(** * StackAllocator and List (stackallocator.h)

    A shallow embedding of the arena allocator [StackAllocator<T, N>] over
    [StackStorage<N>] and of the allocator-aware doubly linked [List<T,
    Allocator>], with the element types and the allocator that test.cpp
    exercises them with ([Counted], [Explosive], [ExceptionalAllocator]),
    followed by the properties established about them. *)

From stdpp Require Import gmap list.

Local Open Scope Z_scope.

(** ** Machine integers

    [size_t] is a 64-bit unsigned integer; every arithmetic operation of the
    source on a [size_t] is followed by [wrap].  Pointers are 64-bit
    addresses and pointer arithmetic wraps in the same way. *)

Definition wrap (z : Z) : Z := z mod 2 ^ 64.

(** Outcome of an allocator call over a state of type [St]: normal return
    with the new state, an exception thrown (carrying the state at the
    throw), or undefined behaviour. *)
Inductive result (St A : Type) :=
| Ok (a : A) (s : St)
| Throw (s : St)
| Undefined.
Arguments Ok {St A} a s.
Arguments Throw {St A} s.
Arguments Undefined {St A}.

(** ** The arena: StackStorage and StackAllocator *)

Module Arena.

(** [struct StackStorage { int8_t data[N]; size_t size; }].  The array is the
    first member, so [data + k] is the address of the storage plus [k]. *)
Record StackStorage := mkStorage {
  data : list Z;
  size : Z
}.

(** [StackStorage() : size(0) {}] over an uninitialised array. *)
Definition StackStorage_new (bytes : list Z) : StackStorage :=
  mkStorage bytes 0.

(** [struct StackAllocator { StackStorage<N>* st; }]: a handle holding the
    address of its storage. *)
Record StackAllocator := mkAllocator {
  st : Z
}.

(** The memory holding the storages, by address.  A call through a handle
    whose [st] designates no storage is [Undefined]; [Throw] is
    [std::bad_alloc]. *)
Abbreviation memory := (gmap Z StackStorage).

(** [StackAllocator(StackStorage<N>& st) : st(&st)] *)
Definition of_storage (address : Z) : StackAllocator := mkAllocator address.

(** [template <typename U> StackAllocator(const StackAllocator<U, N>& copy)
    : st(copy.st)], the converting copy used by rebinding. *)
Definition rebind_copy (copy : StackAllocator) : StackAllocator :=
  mkAllocator (st copy).

(** The equality operators of [StackAllocator].  The struct declares none:
    neither [operator==] nor [operator!=] appears in the header, so the
    comparison of two handles has no function to call.  [None] is that
    comparison without a result. *)
Definition operator_eq (a b : StackAllocator) : option bool := None.

Section Typed.
(** The capacity [N] and the layout of the element type [T]. *)
Variables (N sizeofT alignofT : Z).

(** [T* allocate(size_t count) const] *)
Definition allocate (a : StackAllocator) (count : Z)
    (m : memory) : result memory Z :=
  match m !! st a with
  | None => Undefined
  | Some s =>
      let padding := size s mod alignofT in
      let padding :=
        if 0 <? padding then wrap (alignofT - padding) else padding in
      if N <? wrap (wrap (size s + wrap (count * sizeofT)) + padding)
      then Throw m
      else
        let s1 := mkStorage (data s) (wrap (size s + padding)) in
        let tmp := wrap (st a + size s1) in
        let s2 :=
          mkStorage (data s1) (wrap (size s1 + wrap (count * sizeofT))) in
        Ok tmp (<[st a := s2]> m)
  end.

(** [void deallocate(T* ptr, size_t count) const] *)
Definition deallocate (a : StackAllocator) (ptr count : Z)
    (m : memory) : result memory unit :=
  match m !! st a with
  | None => Undefined
  | Some s =>
      if wrap (ptr + count * sizeofT) =? wrap (st a + size s)
      then
        Ok tt (<[st a :=
                   mkStorage (data s)
                     (wrap (size s - wrap (count * sizeofT)))]> m)
      else Ok tt m
  end.

(** The alignment padding [allocate] inserts at cursor [used]. *)
Definition padding_of (used : Z) : Z :=
  if used mod alignofT =? 0 then 0 else alignofT - used mod alignofT.

(** A sequence of [allocate] calls, one per count, stopping at the first
    that throws; it returns the pointers handed out. *)
Fixpoint allocate_each (a : StackAllocator) (counts : list Z) (m : memory)
    : result memory (list Z) :=
  match counts with
  | [] => Ok [] m
  | count :: counts' =>
      match allocate a count m with
      | Ok ptr m' =>
          match allocate_each a counts' m' with
          | Ok ptrs m'' => Ok (ptr :: ptrs) m''
          | Throw m'' => Throw m''
          | Undefined => Undefined
          end
      | Throw m' => Throw m'
      | Undefined => Undefined
      end
  end.

(** The cursor after such a sequence, when nothing wraps: the total
    aligned size of the requests on top of [used]. *)
Fixpoint cursor_after (used : Z) (counts : list Z) : Z :=
  match counts with
  | [] => used
  | count :: counts' =>
      cursor_after (used + padding_of used + count * sizeofT) counts'
  end.

(** A sequence of [deallocate] calls, one per region given by its pointer
    and its count. *)
Fixpoint deallocate_each (a : StackAllocator) (regions : list (Z * Z))
    (m : memory) : result memory unit :=
  match regions with
  | [] => Ok tt m
  | (ptr, count) :: regions' =>
      match deallocate a ptr count m with
      | Ok _ m' => deallocate_each a regions' m'
      | Throw m' => Throw m'
      | Undefined => Undefined
      end
  end.

(** [stacked lo regions hi]: the regions lie one after the other in the
    address space, the first at or after [lo] and the last ending at
    [hi]. *)
Fixpoint stacked (lo : Z) (regions : list (Z * Z)) (hi : Z) : Prop :=
  match regions with
  | [] => lo = hi
  | (ptr, count) :: regions' =>
      lo ≤ ptr ∧ stacked (ptr + count * sizeofT) regions' hi
  end.
End Typed.

End Arena.

(** ** The list: List<T, Allocator> *)

Module ListModel.

(** Addresses of the objects the list links together.  A sentinel is the
    [data] member of a [List] object and lives where that object lives
    ([Obj]); a node lives in a block handed out by the allocator ([Blk], the
    pointer value [allocate] returned). *)
Inductive addr :=
| Obj (n : nat)
| Blk (p : Z).

Global Instance addr_eq_dec : EqDecision addr.
Proof. solve_decision. Defined.

Global Instance addr_countable : Countable addr.
Proof.
  apply (inj_countable'
           (λ a, match a with Obj n => inl n | Blk p => inr p end)
           (λ x, match x with inl n => Obj n | inr p => Blk p end)).
  by intros [].
Defined.

(** [struct BaseNode { BaseNode* prev; BaseNode* next; }] *)
Record BaseNode := mkBase {
  prev : addr;
  next : addr
}.

(** What lives at an address: a plain [BaseNode] (a sentinel) or a
    [struct Node : BaseNode { T key; }]. *)
Inductive object (T : Type) :=
| Base (b : BaseNode)
| Node (b : BaseNode) (key : T).
Arguments Base {T} b.
Arguments Node {T} b key.

Definition base_of {T} (o : object T) : BaseNode :=
  match o with Base b => b | Node b _ => b end.

Definition with_base {T} (o : object T) (b : BaseNode) : object T :=
  match o with Base _ => Base b | Node _ k => Node b k end.

(** The element type [T], with the state [E] its special members act on
    (for instance a static counter).  [None] is an exception thrown by the
    constructor; destructors do not throw. *)
Class Element (T E : Type) := {
  construct_default : E → option T * E;
  construct_copy : T → E → option T * E;
  destruct : T → E → E
}.

(** The node allocator [NodeAlloc], as [std::allocator_traits] presents it:
    a handle of type [H] over an allocation state of type [S].
    [allocate_node] is [NodeTraits::allocate(alloc, 1)] and
    [deallocate_node] is [NodeTraits::deallocate(alloc, p, 1)]. *)
Class Allocator (H S : Type) := {
  allocate_node : H → S → result S Z;
  deallocate_node : H → Z → S → result S unit;
  propagate_on_container_copy_assignment : bool;
  select_on_container_copy_construction : H → H
}.

Section Model.
Context {T E H S : Type} `{!Element T E} `{!Allocator H S}.

(** The state of the program: the objects in memory, the allocation
    state, the state of the element type, and the set of blocks that were
    allocated and not yet deallocated.  The last is bookkeeping: no
    operation of the list reads it other than to check that a block being
    deallocated was allocated. *)
Record world := mkWorld {
  heap : gmap addr (object T);
  astate : S;
  estate : E;
  live : gset Z
}.

Definition set_heap (f : gmap addr (object T) → gmap addr (object T))
    (w : world) : world :=
  mkWorld (f (heap w)) (astate w) (estate w) (live w).

(** Outcome of an operation: normal return, an exception in flight,
    undefined behaviour, or a loop that did not finish within its bound. *)
Inductive outcome (R : Type) :=
| Ret (r : R) (w : world)
| Raise (w : world)
| UB
| OutOfFuel.
Arguments Ret {R} r w.
Arguments Raise {R} w.
Arguments UB {R}.
Arguments OutOfFuel {R}.

Definition M (R : Type) : Type := world → outcome R.

Definition ret {R} (r : R) : M R := λ w, Ret r w.

Definition bind {R R'} (m : M R) (k : R → M R') : M R' :=
  λ w, match m w with
       | Ret r w' => k r w'
       | Raise w' => Raise w'
       | UB => UB
       | OutOfFuel => OutOfFuel
       end.

(** [throw;] and the propagation of an exception. *)
Definition throw {R} : M R := λ w, Raise w.

(** [try { body } catch (...) { handler }] *)
Definition try_catch {R} (body handler : M R) : M R :=
  λ w, match body w with
       | Raise w' => handler w'
       | o => o
       end.

Definition undefined {R} : M R := λ _, UB.

Notation "'let*' x ':=' m 'in' k" := (bind m (λ x, k))
  (at level 10, x pattern, m at level 100, k at level 200).

(** *** Memory accesses *)

Definition load (a : addr) : M (object T) :=
  λ w, match heap w !! a with
       | Some o => Ret o w
       | None => UB
       end.

Definition store (a : addr) (o : object T) : M unit :=
  λ w, Ret tt (set_heap (insert a o) w).

(** [a->prev], [a->next] *)
Definition get_prev (a : addr) : M addr :=
  let* o := load a in ret (prev (base_of o)).

Definition get_next (a : addr) : M addr :=
  let* o := load a in ret (next (base_of o)).

(** [a->prev = v], [a->next = v] *)
Definition set_prev (a v : addr) : M unit :=
  let* o := load a in
  store a (with_base o (mkBase v (next (base_of o)))).

Definition set_next (a v : addr) : M unit :=
  let* o := load a in
  store a (with_base o (mkBase (prev (base_of o)) v)).

(** [static_cast<Node*>(a)->key]: the object must be a [Node]. *)
Definition get_key (a : addr) : M T :=
  let* o := load a in
  match o with
  | Node _ k => ret k
  | Base _ => undefined
  end.

(** *** NodeTraits *)

(** [NodeTraits::allocate(alloc, 1)] *)
Definition NodeTraits_allocate (alloc : H) : M Z :=
  λ w, match allocate_node alloc (astate w) with
       | Ok p s =>
           Ret p (mkWorld (heap w) s (estate w) (live w ∪ {[p]}))
       | Throw s => Raise (mkWorld (heap w) s (estate w) (live w))
       | Undefined => UB
       end.

(** [NodeTraits::deallocate(alloc, static_cast<Node*>(a), 1)]: the pointer
    must be one that [allocate] returned and that is still allocated. *)
Definition NodeTraits_deallocate (alloc : H) (a : addr) : M unit :=
  λ w, match a with
       | Obj _ => UB
       | Blk p =>
           if decide (p ∈ live w) then
             match deallocate_node alloc p (astate w) with
             | Ok _ s =>
                 Ret tt (mkWorld (heap w) s (estate w) (live w ∖ {[p]}))
             | Throw _ => UB
             | Undefined => UB
             end
           else UB
       end.

(** [NodeTraits::construct(alloc, it, prev, next, value)], running
    [Node(BaseNode* prev, BaseNode* next, const T& key)]. *)
Definition NodeTraits_construct (it : Z) (prv nxt : addr) (value : T)
    : M unit :=
  λ w, match construct_copy value (estate w) with
       | (Some k, e) =>
           Ret tt (mkWorld (<[Blk it := Node (mkBase prv nxt) k]> (heap w))
                     (astate w) e (live w))
       | (None, e) => Raise (mkWorld (heap w) (astate w) e (live w))
       end.

(** [NodeTraits::construct(alloc, it, prev, next)], running
    [Node(BaseNode* prev, BaseNode* next)] with [key()]. *)
Definition NodeTraits_construct_default (it : Z) (prv nxt : addr)
    : M unit :=
  λ w, match construct_default (estate w) with
       | (Some k, e) =>
           Ret tt (mkWorld (<[Blk it := Node (mkBase prv nxt) k]> (heap w))
                     (astate w) e (live w))
       | (None, e) => Raise (mkWorld (heap w) (astate w) e (live w))
       end.

(** [NodeTraits::destroy(alloc, static_cast<Node*>(a))]: runs [~Node], that
    is [~T] on the key; afterwards no object lives at [a]. *)
Definition NodeTraits_destroy (a : addr) : M unit :=
  λ w, match heap w !! a with
       | Some (Node _ k) =>
           Ret tt (mkWorld (delete a (heap w)) (astate w)
                     (destruct k (estate w)) (live w))
       | _ => UB
       end.

(** *** The list object

    [alloc], the address of the in-place sentinel [data], and [sz].  The
    sentinel itself is the object at address [data] in the heap. *)
Record List := mkList {
  alloc : H;
  data : addr;
  sz : Z
}.

Definition set_sz (l : List) (n : Z) : List :=
  mkList (alloc l) (data l) n.

(** [size()] *)
Definition size (l : List) : Z := sz l.

(** [get_allocator()] *)
Definition get_allocator (l : List) : H := alloc l.

(** [begin()], [end()]; iterators are the [item] pointers. *)
Definition begin (l : List) : M addr := get_next (data l).
Definition end_ (l : List) : M addr := ret (data l).

(** [operator++], [operator--] and [operator*] of [BaseIterator]. *)
Definition iter_incr (item : addr) : M addr := get_next item.
Definition iter_decr (item : addr) : M addr := get_prev item.
Definition iter_deref (item : addr) : M T := get_key item.

(** [bool operator==(const BaseIterator&) const]: the [item] pointers are
    compared. *)
Definition iter_eq (item other : addr) : bool := bool_decide (item = other).

(** Postfix [operator++(int)] and [operator--(int)]: the copy made before
    the step is returned, next to the stepped iterator. *)
Definition iter_post_incr (item : addr) : M (addr * addr) :=
  let copy := item in
  let* item' := iter_incr item in
  ret (copy, item').

Definition iter_post_decr (item : addr) : M (addr * addr) :=
  let copy := item in
  let* item' := iter_decr item in
  ret (copy, item').

(** [cbegin()], [cend()] *)
Definition cbegin (l : List) : M addr := get_next (data l).
Definition cend (l : List) : M addr := ret (data l).

(** [rbegin()] is [reverse_iterator(end())] and [rend()] is
    [reverse_iterator(begin())]; [crbegin()] and [crend()] are the same over
    constant iterators.  A [std::reverse_iterator] holds the iterator
    [current] it was made from: its [operator*] is [tmp = current; return
    *--tmp;], its [operator++] is [--current], and two reverse iterators are
    equal when their [current] are. *)
Definition rbegin (l : List) : M addr := end_ l.
Definition rend (l : List) : M addr := begin l.

Definition riter_deref (current : addr) : M T :=
  let* tmp := iter_decr current in
  iter_deref tmp.

Definition riter_incr (current : addr) : M addr := iter_decr current.

(** [for (it = first; it != last; ++it)] reading [*it]: the loop a caller
    runs over a range of iterators, with the dereference and the increment
    of the iterator type as parameters; it returns the elements read. *)
Fixpoint traverse (deref : addr → M T) (incr : addr → M addr)
    (fuel : nat) (it last : addr) : M (list T) :=
  match fuel with
  | O => λ _, OutOfFuel
  | Datatypes.S fuel' =>
      if iter_eq it last then ret []
      else
        let* v := deref it in
        let* it' := incr it in
        let* vs := traverse deref incr fuel' it' last in
        ret (v :: vs)
  end.

(** [iterator insert(const_iterator iter, const T& value)] *)
Definition insert (l : List) (iter : addr) (value : T)
    : M (addr * List) :=
  let* it := NodeTraits_allocate (alloc l) in
  let* _ :=
    try_catch
      (let* p := get_prev iter in
       NodeTraits_construct it p iter value)
      (let* _ := NodeTraits_deallocate (alloc l) (Blk it) in throw) in
  let* p := get_prev iter in
  let* _ := set_next p (Blk it) in
  let* _ := set_prev iter (Blk it) in
  ret (Blk it, set_sz l (wrap (sz l + 1))).

(** [void emplace_back()] *)
Definition emplace_back (l : List) : M List :=
  let* it := NodeTraits_allocate (alloc l) in
  let* _ :=
    try_catch
      (let* p := get_prev (data l) in
       NodeTraits_construct_default it p (data l))
      (let* _ := NodeTraits_deallocate (alloc l) (Blk it) in throw) in
  let* p := get_prev (data l) in
  let* _ := set_next p (Blk it) in
  let* _ := set_prev (data l) (Blk it) in
  ret (set_sz l (wrap (sz l + 1))).

(** [insert] and [emplace_back] run the same steps around different
    constructors of the element; [insert_with ctor] is that common shape,
    used to state what both do. *)
Definition NodeTraits_construct_with (ctor : E → option T * E) (it : Z)
    (prv nxt : addr) : M unit :=
  λ w, match ctor (estate w) with
       | (Some k, e) =>
           Ret tt (mkWorld (<[Blk it := Node (mkBase prv nxt) k]> (heap w))
                     (astate w) e (live w))
       | (None, e) => Raise (mkWorld (heap w) (astate w) e (live w))
       end.

Definition insert_with (ctor : E → option T * E) (l : List) (iter : addr)
    : M (addr * List) :=
  let* it := NodeTraits_allocate (alloc l) in
  let* _ :=
    try_catch
      (let* p := get_prev iter in
       NodeTraits_construct_with ctor it p iter)
      (let* _ := NodeTraits_deallocate (alloc l) (Blk it) in throw) in
  let* p := get_prev iter in
  let* _ := set_next p (Blk it) in
  let* _ := set_prev iter (Blk it) in
  ret (Blk it, set_sz l (wrap (sz l + 1))).

(** [iterator erase(const_iterator iter)] *)
Definition erase (l : List) (iter : addr) : M (addr * List) :=
  let* it := get_next iter in
  let* p := get_prev iter in
  let* _ := set_prev it p in
  let* p := get_prev iter in
  let* _ := set_next p it in
  let* _ := NodeTraits_destroy iter in
  let* _ := NodeTraits_deallocate (alloc l) iter in
  ret (it, set_sz l (wrap (sz l - 1))).

(** [push_back], [push_front], [pop_back], [pop_front] *)
Definition push_back (l : List) (value : T) : M List :=
  let* e := end_ l in
  let* r := insert l e value in ret (snd r).

Definition push_front (l : List) (value : T) : M List :=
  let* b := begin l in
  let* r := insert l b value in ret (snd r).

Definition pop_back (l : List) : M List :=
  let* e := end_ l in
  let* it := iter_decr e in
  let* r := erase l it in ret (snd r).

Definition pop_front (l : List) : M List :=
  let* b := begin l in
  let* r := erase l b in ret (snd r).

(** The loop of [destroy()]: [while (it != &data) { ... }].  Every
    iteration destroys one object of the heap, so a bound of one more than
    the number of objects is never reached. *)
Fixpoint destroy_loop (fuel : nat) (l : List) (it : addr) : M unit :=
  match fuel with
  | O => λ _, OutOfFuel
  | Datatypes.S fuel' =>
      if decide (it = data l) then ret tt
      else
        let* tmp := get_next it in
        let* _ := NodeTraits_destroy it in
        let* _ := NodeTraits_deallocate (alloc l) it in
        destroy_loop fuel' l tmp
  end.

(** [void destroy()]; it reads [alloc] and [&data] but not [sz]. *)
Definition destroy (l : List) : M unit :=
  let* it := get_next (data l) in
  λ w, destroy_loop (Datatypes.S (stdpp.base.size (heap w))) l it w.

(** [void clear()] *)
Definition clear (l : List) : M List :=
  let* _ := destroy l in
  let* _ := set_next (data l) (data l) in
  let* _ := set_prev (data l) (data l) in
  ret (set_sz l 0).

(** The end of the lifetime of the [List] object at [self]: its sentinel
    member is no longer an object. *)
Definition release (self : addr) : M unit :=
  λ w, Ret tt (set_heap (delete self) w).

(** [~List()], followed by the end of the object's lifetime. *)
Definition List_destructor (l : List) : M unit :=
  let* _ := destroy l in release (data l).

(** Member initialisation of a [List] placed at [self]: [alloc(allocator)],
    [data] with [prev = next = this], [sz = 0]. *)
Definition List_init (self : addr) (allocator : H) : M List :=
  let* _ := store self (Base (mkBase self self)) in
  ret (mkList allocator self 0).

(** [List() = default] and [explicit List(const Allocator& allocator)] *)
Definition List_new (self : addr) (allocator : H) : M List :=
  List_init self allocator.

(** The body of a constructor that fills the list:
    [try { body } catch (...) { destroy(); throw; }].  The handler runs
    [destroy] on the object under construction, whose [alloc] and [&data]
    the body does not change; when the exception leaves the constructor the
    object never came to life. *)
Definition constructing (this : List) (body : M List) : M List :=
  try_catch body
    (let* _ := destroy this in
     let* _ := release (data this) in throw).

(** [for (size_t i = 0; i < count; ++i) push_back(value);] *)
Fixpoint push_back_n (n : nat) (l : List) (value : T) : M List :=
  match n with
  | O => ret l
  | Datatypes.S n' =>
      let* l' := push_back l value in push_back_n n' l' value
  end.

(** [for (size_t i = 0; i < count; ++i) emplace_back();] *)
Fixpoint emplace_back_n (n : nat) (l : List) : M List :=
  match n with
  | O => ret l
  | Datatypes.S n' =>
      let* l' := emplace_back l in emplace_back_n n' l'
  end.

(** [List(size_t count, const T& value, const Allocator& allocator)] *)
Definition List_count_value (self : addr) (count : Z) (value : T)
    (allocator : H) : M List :=
  let* this := List_init self allocator in
  constructing this (push_back_n (Z.to_nat count) this value).

(** [explicit List(size_t count, const Allocator& allocator)] *)
Definition List_count (self : addr) (count : Z) (allocator : H)
    : M List :=
  let* this := List_init self allocator in
  constructing this (emplace_back_n (Z.to_nat count) this).

(** [for (auto it = copy.begin(); it != copy.end(); ++it)] pushing back
    a copy of the element under [it]. *)
Fixpoint copy_loop (fuel : nat) (l copy : List) (it : addr) : M List :=
  match fuel with
  | O => λ _, OutOfFuel
  | Datatypes.S fuel' =>
      if decide (it = data copy) then ret l
      else
        let* v := iter_deref it in
        let* l' := push_back l v in
        let* it' := iter_incr it in
        copy_loop fuel' l' copy it'
  end.

(** [List(const List& copy, const Allocator& alloc)] *)
Definition List_copy_alloc (self : addr) (copy : List) (allocator : H)
    : M List :=
  let* this := List_init self allocator in
  constructing this
    (let* it := begin copy in
     λ w, copy_loop (Datatypes.S (stdpp.base.size (heap w)))
            this copy it w).

(** [List(const List& copy)] *)
Definition List_copy (self : addr) (copy : List) : M List :=
  List_copy_alloc self copy
    (select_on_container_copy_construction (alloc copy)).

(** [std::swap(data, res.data)] on the two sentinels. *)
Definition swap_base (a b : addr) : M unit :=
  let* x := load a in
  let* y := load b in
  let* _ := store a (with_base x (base_of y)) in
  store b (with_base y (base_of x)).

(** The statements of [operator=] up to [return *this;], with the local
    [res] placed at [res_addr].  Returns the assigned list and [res]. *)
Definition assign_body (this copy : List) (res_addr : addr)
    : M (List * List) :=
  let* res :=
    List_copy_alloc res_addr copy
      (if propagate_on_container_copy_assignment
       then alloc copy else alloc this) in
  let this1 := mkList (alloc res) (data this) (sz this) in
  let res1 := mkList (alloc this) (data res) (sz res) in
  let* _ := swap_base (data this1) (data res1) in
  let this2 := set_sz this1 (sz res1) in
  let* n := get_next (data this2) in
  let* _ := set_prev n (data this2) in
  let* p := get_prev (data this2) in
  let* _ := set_next p (data this2) in
  let* rp := get_prev (data res1) in
  let* _ := set_next rp (data res1) in
  ret (this2, res1).

(** [List& operator=(const List& copy)]: the body, then the destructor of
    the local [res]. *)
Definition operator_assign (this copy : List) (res_addr : addr)
    : M List :=
  let* r := assign_body this copy res_addr in
  let* _ := List_destructor (snd r) in
  ret (fst r).

(** *** Walking the ring

    The nodes met by following [next] from [it] until the sentinel of [l],
    with their keys; [None] if the walk leaves the heap, meets an object
    that is not a node, or does not come back within [fuel] steps. *)
Fixpoint walk (fuel : nat) (h : gmap addr (object T)) (stop it : addr)
    : option (list (addr * T)) :=
  match fuel with
  | O => None
  | Datatypes.S fuel' =>
      if decide (it = stop) then Some []
      else
        match h !! it with
        | Some (Node b k) =>
            match walk fuel' h stop (next b) with
            | Some r => Some ((it, k) :: r)
            | None => None
            end
        | _ => None
        end
  end.

(** The nodes of [l] in iteration order, from [begin()] to [end()]. *)
Definition nodes (w : world) (l : List) : option (list (addr * T)) :=
  match heap w !! data l with
  | Some o =>
      walk (Datatypes.S (stdpp.base.size (heap w))) (heap w) (data l)
        (next (base_of o))
  | None => None
  end.

(** The elements of [l] in iteration order. *)
Definition elements_of (w : world) (l : List) : option (list T) :=
  option_map (map snd) (nodes w l).
End Model.

Arguments world : clear implicits.
Arguments outcome : clear implicits.
Arguments List : clear implicits.
Arguments Ret {T E S R} r w.
Arguments Raise {T E S R} w.
Arguments UB {T E S R}.
Arguments OutOfFuel {T E S R}.

(** What a lawful allocator guarantees to the list: handles that may be
    used ([handle_ok]) and an invariant [alloc_inv s L] tying the allocation
    state [s] to the set [L] of blocks currently allocated, such that an
    allocation either throws or returns a block that is not allocated, a
    deallocation of an allocated block succeeds, and the blocks are distinct
    64-bit addresses. *)
Class AllocatorLaws (H S : Type) `{!Allocator H S} := {
  handle_ok : H → Prop;
  alloc_inv : S → gset Z → Prop;
  allocate_node_spec h s L :
    handle_ok h → alloc_inv s L →
    match allocate_node h s with
    | Ok p s' => (p ∉ L) ∧ alloc_inv s' (L ∪ {[p]})
    | Throw s' => alloc_inv s' L
    | Undefined => False
    end;
  deallocate_node_spec h s L p :
    handle_ok h → alloc_inv s L → p ∈ L →
    ∃ s', deallocate_node h p s = Ok tt s' ∧ alloc_inv s' (L ∖ {[p]});
  alloc_inv_bound s L :
    alloc_inv s L → Z.of_nat (stdpp.base.size L) < 2 ^ 64;
  select_handle_ok h :
    handle_ok h → handle_ok (select_on_container_copy_construction h)
}.

Section Invariants.
Context {T E H S : Type} `{!Element T E} `{!Allocator H S}
        `{!AllocatorLaws H S}.

(** The object with links [prv], [nxt]: a sentinel without key, a node
    with one. *)
Definition obj_of (prv nxt : addr) (k : option T) : object T :=
  match k with
  | None => Base (mkBase prv nxt)
  | Some v => Node (mkBase prv nxt) v
  end.

(** [seg h prv r nxt]: the objects at the addresses of [r] are linked in
    this order, the first pointing back to [prv] and the last pointing on
    to [nxt]. *)
Fixpoint seg (h : gmap addr (object T)) (prv : addr)
    (r : list (addr * option T)) (nxt : addr) : Prop :=
  match r with
  | [] => True
  | (a, k) :: r' =>
      h !! a = Some (obj_of prv (List.hd nxt (r'.*1)) k) ∧ seg h a r' nxt
  end.

(** [cyc h r]: the objects at the addresses of [r] form a ring. *)
Definition cyc (h : gmap addr (object T)) (r : list (addr * option T))
    : Prop :=
  NoDup (r.*1) ∧
  match r with
  | [] => False
  | (a, _) :: _ => seg h (List.last (r.*1) a) r a
  end.

(** [a->next = v] and [a->prev = v] as heap updates. *)
Definition link_next (a v : addr) (h : gmap addr (object T))
    : gmap addr (object T) :=
  alter (λ o, with_base o (mkBase (prev (base_of o)) v)) a h.

Definition link_prev (a v : addr) (h : gmap addr (object T))
    : gmap addr (object T) :=
  alter (λ o, with_base o (mkBase v (next (base_of o)))) a h.

(** [a->prev] and [a->next] read from a heap. *)
Definition prev_of (h : gmap addr (object T)) (a : addr) : addr :=
  match h !! a with Some o => prev (base_of o) | None => a end.

Definition next_of (h : gmap addr (object T)) (a : addr) : addr :=
  match h !! a with Some o => next (base_of o) | None => a end.

(** The heap after a node with key [k] at [p] was spliced in before
    [pos]: the new node, and the two links around it. *)
Definition spliced (h : gmap addr (object T)) (pos p : addr) (k : T)
    : gmap addr (object T) :=
  let q := prev_of h pos in
  link_prev pos p (link_next q p (<[p := Node (mkBase q pos) k]> h)).

(** The heap after the node at [q] was unlinked and destroyed. *)
Definition unlinked (h : gmap addr (object T)) (q : addr)
    : gmap addr (object T) :=
  let it := next_of h q in
  let p := prev_of h q in
  delete q (link_next p it (link_prev it p h)).

(** [chain h it ns stop]: following [next] from [it] meets exactly the
    nodes [ns], with these keys, and then [stop]. *)
Fixpoint chain (h : gmap addr (object T)) (it : addr)
    (ns : list (addr * T)) (stop : addr) : Prop :=
  match ns with
  | [] => it = stop
  | n :: ns' =>
      it = n.1 ∧ it ≠ stop ∧
      ∃ b, h !! it = Some (Node b n.2) ∧ chain h (next b) ns' stop
  end.

(** The ring of a list: its sentinel, then its nodes. *)
Definition ring_of (l : List H) (ns : list (addr * T))
    : list (addr * option T) :=
  (data l, None) :: map (λ n, (n.1, Some n.2)) ns.

(** The ring of [l1 ++ l2], turned so that the position before which
    [l2] starts comes first. *)
Definition turned (l : List H) (l1 l2 : list (addr * T))
    : list (addr * option T) :=
  match l2 with
  | [] => ring_of l l1
  | _ :: _ => map (λ n, (n.1, Some n.2)) l2 ++ ring_of l l1
  end.

(** The block a node address designates. *)
Definition ptr_of (a : addr) : Z :=
  match a with Blk p => p | Obj _ => 0 end.

(** [is_list w l ns]: in [w], the list [l] is a well-formed ring whose
    nodes, in iteration order, are at the addresses and hold the keys
    given by [ns]; [sz] is their number; every node is an allocated
    block; the allocator handle is usable. *)
Definition is_list (w : world T E S) (l : List H)
    (ns : list (addr * T)) : Prop :=
  cyc (heap w) (ring_of l ns) ∧
  sz l = Z.of_nat (length ns) ∧
  (∀ a, a ∈ ns.*1 → ∃ p, a = Blk p ∧ p ∈ live w) ∧
  handle_ok (alloc l).

(** [wf_world w]: the allocator invariant holds for the blocks recorded as
    allocated, and objects live only in allocated blocks or outside the
    allocator's memory. *)
Definition wf_world (w : world T E S) : Prop :=
  alloc_inv (astate w) (live w) ∧
  ∀ p, is_Some (heap w !! Blk p) → p ∈ live w.

(** [building h0 L0 w l ns]: [l] is a list under construction in a program
    whose heap was [h0] and whose allocated blocks were [L0] before the
    construction began: the list is well-formed, its sentinel and nodes are
    at addresses that were free in [h0], its nodes are the blocks allocated
    since, and the rest of the heap is as in [h0]. *)
Definition building (h0 : gmap addr (object T)) (L0 : gset Z)
    (w : world T E S) (l : List H) (ns : list (addr * T)) : Prop :=
  wf_world w ∧ is_list w l ns ∧
  (∀ a, a ∈ data l :: ns.*1 → h0 !! a = None) ∧
  (∀ a, a ∉ data l :: ns.*1 → heap w !! a = h0 !! a) ∧
  (∀ p, p ∈ live w ↔ p ∈ L0 ∨ Blk p ∈ ns.*1) ∧
  (∀ p, p ∈ L0 → Blk p ∉ ns.*1).

(** [k] is a value the copy constructor made from [v]; [k] is a value
    the default constructor made. *)
Definition copy_of (v k : T) : Prop :=
  ∃ e e', construct_copy v e = (Some k, e').

Definition default_value (k : T) : Prop :=
  ∃ e e', construct_default e = (Some k, e').

(** Two values of the same list object: same allocator, same sentinel. *)
Definition same_obj (l l' : List H) : Prop :=
  alloc l' = alloc l ∧ data l' = data l.

(** What a constructor started in [w] may end with: a well-formed list, or
    an exception with the heap and the allocated blocks of [w]. *)
Definition all_or_nothing (w : world T E S)
    (o : outcome T E S (List H)) : Prop :=
  match o with
  | Ret l w' => wf_world w' ∧ ∃ ns, is_list w' l ns
  | Raise w' => heap w' = heap w ∧ live w' = live w ∧ wf_world w'
  | _ => False
  end.
(** What a loop that appends to the list under construction may end
    with. *)
Definition built (h0 : gmap addr (object T)) (L0 : gset Z) (l : List H)
    (o : outcome T E S (List H)) : Prop :=
  match o with
  | Ret l' w' => ∃ ns', building h0 L0 w' l' ns' ∧ same_obj l l'
  | Raise w' => ∃ l' ns', building h0 L0 w' l' ns' ∧ same_obj l l'
  | _ => False
  end.

(** The result of a member function that returns an iterator, seen by a
    caller that drops it, as [push_back] and [push_front] do. *)
Definition drop_iter (o : outcome T E S (addr * List H))
    : outcome T E S (List H) :=
  match o with
  | Ret r w' => Ret r.2 w'
  | Raise w' => Raise w'
  | UB => UB
  | OutOfFuel => OutOfFuel
  end.

(** The operations of the size invariant. *)
Inductive op :=
| PushBack (v : T)
| PushFront (v : T)
| Insert (iter : addr) (v : T)
| PopBack
| PopFront
| Erase (iter : addr)
| Clear.

Definition step (o : op) (l : List H) : M (List H) :=
  match o with
  | PushBack v => push_back l v
  | PushFront v => push_front l v
  | Insert iter v => bind (insert l iter v) (λ r, ret (snd r))
  | PopBack => pop_back l
  | PopFront => pop_front l
  | Erase iter => bind (erase l iter) (λ r, ret (snd r))
  | Clear => clear l
  end.

(** The precondition of an operation: [insert] takes an iterator of the
    list (one of its nodes or [end()]), [erase] one that designates a
    node, and the two [pop]s a list that is not empty. *)
Definition pre (w : world T E S) (l : List H) (o : op) : Prop :=
  match o with
  | Insert iter _ =>
      ∃ ns, nodes w l = Some ns ∧ (iter = data l ∨ iter ∈ ns.*1)
  | Erase iter => ∃ ns, nodes w l = Some ns ∧ iter ∈ ns.*1
  | PopBack | PopFront => ∃ n ns, nodes w l = Some (n :: ns)
  | _ => True
  end.

(** The states a list goes through from [(w0, l0)] under operations
    applied within their preconditions; an operation that throws leaves
    the list object to its caller as it was. *)
Inductive reachable (w0 : world T E S) (l0 : List H)
    : world T E S → List H → Prop :=
| reach_start : reachable w0 l0 w0 l0
| reach_return w l o l' w' :
    reachable w0 l0 w l → pre w l o → step o l w = Ret l' w' →
    reachable w0 l0 w' l'
| reach_raise w l o w' :
    reachable w0 l0 w l → pre w l o → step o l w = Raise w' →
    reachable w0 l0 w' l.
End Invariants.

(** *** Instances *)

(** [int]: trivial special members; [int()] is zero. *)
Definition int_element : Element Z unit := {|
  construct_default := λ e, (Some 0, e);
  construct_copy := λ v e, (Some v, e);
  destruct := λ _ e, e
|}.

(** [Counted<WhenThrow>] of test.cpp: a static counter of live objects; the
    default constructor, to which the copy constructor delegates, throws
    when the counter reaches [WhenThrow]. *)
Definition Counted (WhenThrow : Z) : Element unit Z :=
  let ctor := λ counter : Z,
    let counter := counter + 1 in
    if counter =? WhenThrow then (None, counter - 1)
    else (Some tt, counter) in
  {| construct_default := ctor;
     construct_copy := λ _, ctor;
     destruct := λ _ counter, counter - 1 |}.

(** [Explosive] of test.cpp: the default and the copy constructor throw
    after [should_explode] was set to true, so no object comes to life
    through them; the destructor of an object records its [should_explode]
    in the static flag [exploded].  An element is its [should_explode]; the
    state is [exploded]. *)
Definition Explosive : Element bool bool := {|
  construct_default := λ exploded, (None, exploded);
  construct_copy := λ _ exploded, (None, exploded);
  destruct := λ should_explode exploded, exploded || should_explode
|}.

(** [StackAllocator<Node, N>] as the node allocator of a list, for nodes of
    size [sizeofNode] and alignment [alignofNode].  It declares neither
    [propagate_on_container_copy_assignment] nor
    [select_on_container_copy_construction], so [std::allocator_traits]
    supplies [false_type] and a copy of the handle. *)
Definition stack_allocator (N sizeofNode alignofNode : Z)
    : Allocator Arena.StackAllocator (gmap Z Arena.StackStorage) := {|
  allocate_node := λ a m, Arena.allocate N sizeofNode alignofNode a 1 m;
  deallocate_node := λ a p m, Arena.deallocate sizeofNode a p 1 m;
  propagate_on_container_copy_assignment := false;
  select_on_container_copy_construction := Arena.rebind_copy
|}.

Section StackInv.
Variables (N sizeofNode alignofNode base : Z).

(** The invariant of an arena at [base] serving nodes to lists: the cursor
    is within the capacity, and the allocated blocks lie below the cursor
    and do not overlap. *)
Definition stack_inv (m : gmap Z Arena.StackStorage) (L : gset Z) : Prop :=
  ∃ s, m !! base = Some s ∧ 0 ≤ Arena.size s ≤ N ∧
       (∀ p, p ∈ L → base ≤ p ∧ p + sizeofNode ≤ base + Arena.size s) ∧
       (∀ p q, p ∈ L → q ∈ L → p ≠ q →
               p + sizeofNode ≤ q ∨ q + sizeofNode ≤ p).
End StackInv.

End ListModel.

(** ** The allocator of the tests: ExceptionalAllocator (test.cpp) *)

Module Exceptional.

(** [struct ExceptionalAllocator { size_t m_time_to_exception;
    std::allocator<T> m_actual_allocator; }]; the actual allocator has no
    state of its own. *)
Record ExceptionalAllocator := mkExceptional {
  m_time_to_exception : Z
}.

(** [ExceptionalAllocator(size_t time)] and the converting copy. *)
Definition ExceptionalAllocator_new (time : Z) : ExceptionalAllocator :=
  mkExceptional time.

Definition ExceptionalAllocator_copy (other : ExceptionalAllocator)
    : ExceptionalAllocator :=
  mkExceptional (m_time_to_exception other).

(** How a call of [allocate] ends: with a pointer, with
    [CustomAllocatorException], with the [std::bad_alloc] of the actual
    allocator, or undefined. *)
Inductive allocation (St : Type) :=
| Allocated (ptr : Z) (s : St)
| CustomAllocatorException (s : St)
| BadAlloc (s : St)
| Unspecified.
Arguments Allocated {St} ptr s.
Arguments CustomAllocatorException {St} s.
Arguments BadAlloc {St} s.
Arguments Unspecified {St}.

Section Actual.
(** [std::allocator<T>::allocate] over the state [S] of the free store. *)
Context {S : Type}.
Variable actual_allocate : Z → S → result S Z.

(** [T* allocate(size_t n)] *)
Definition allocate (a : ExceptionalAllocator) (n : Z) (s : S)
    : allocation (ExceptionalAllocator * S) :=
  if m_time_to_exception a =? 0 then CustomAllocatorException (a, s)
  else
    let a' :=
      if m_time_to_exception a <? n then mkExceptional 0
      else mkExceptional (wrap (m_time_to_exception a - n)) in
    match actual_allocate n s with
    | Ok ptr s' => Allocated ptr (a', s')
    | Throw s' => BadAlloc (a', s')
    | Undefined => Unspecified
    end.

(** A sequence of [allocate] calls that all return, with the allocator and
    the free store they leave; [None] if one of them does not return. *)
Fixpoint allocate_all (a : ExceptionalAllocator) (ns : list Z) (s : S)
    : option (list Z * (ExceptionalAllocator * S)) :=
  match ns with
  | [] => Some ([], (a, s))
  | n :: ns' =>
      match allocate a n s with
      | Allocated ptr (a', s') =>
          match allocate_all a' ns' s' with
          | Some (ptrs, r) => Some (ptr :: ptrs, r)
          | None => None
          end
      | _ => None
      end
  end.
End Actual.

(** An actual allocator for the examples: it hands out consecutive
    addresses and never fails. *)
Definition bump (n s : Z) : result Z Z := Ok s (s + n).
End Exceptional.

(** ** Examples: lists of [int] and of [Counted] over an arena *)

Module Demo.
Import ListModel.

(** [List<int, StackAllocator<int, N>>] on a 64-bit machine: a node is two
    pointers and an [int], 24 bytes aligned to 8; the arena has capacity
    [N] and lives at address 4096. *)
Definition int_list_allocator (N : Z)
    : Allocator Arena.StackAllocator (gmap Z Arena.StackStorage) :=
  stack_allocator N 24 8.

Definition handle : Arena.StackAllocator := Arena.of_storage 4096.

(** A program state with the empty arena and nothing else. *)
Definition start {T E} (N : Z) (e : E)
    : world T E (gmap Z Arena.StackStorage) :=
  mkWorld ∅ {[ 4096 := Arena.StackStorage_new (replicate (Z.to_nat N) 0) ]}
    e ∅.

(** What a test observes of a list: [size()] and the elements met from
    [begin()] to [end()], if the iteration comes back to [end()]. *)
Definition observe {T E S H R} (f : R → List H) (o : outcome T E S R)
    : option (Z * option (list T)) :=
  match o with
  | Ret r w => Some (size (f r), elements_of w (f r))
  | _ => None
  end.

(** The state an operation returned in, or [otherwise]. *)
Definition world_of {T E S R} (o : outcome T E S R) (otherwise : world T E S)
    : world T E S :=
  match o with
  | Ret _ w => w
  | _ => otherwise
  end.

(** The arenas and the element type of the examples. *)
Definition arena_1024
    : Allocator Arena.StackAllocator (gmap Z Arena.StackStorage) :=
  int_list_allocator 1024.

Definition arena_24
    : Allocator Arena.StackAllocator (gmap Z Arena.StackStorage) :=
  int_list_allocator 24.

Definition counted_17 : Element unit Z := Counted 17.

Section IntLists.
#[local] Existing Instance int_element.
#[local] Existing Instance arena_1024.

(** [List<int> a(na, va); List<int> b(nb, vb);], with [a] at [Obj 0] and
    [b] at [Obj 1]; a count of zero stands for the default constructor. *)
Definition two_lists (na va nb vb : Z)
    : M (T := Z) (E := unit) (List Arena.StackAllocator
                               * List Arena.StackAllocator) :=
  bind (if na =? 0 then List_new (Obj 0) handle
        else List_count_value (Obj 0) na va handle) (λ a,
  bind (if nb =? 0 then List_new (Obj 1) handle
        else List_count_value (Obj 1) nb vb handle) (λ b,
  ret (a, b))).

(** [a = b;], the temporary of [operator=] at [Obj 2]. *)
Definition assigned (na va nb vb : Z) :=
  bind (two_lists na va nb vb)
    (λ ab, operator_assign ab.1 ab.2 (Obj 2)) (start 1024 tt).

(** The same up to the [return] of [operator=], before the temporary is
    destroyed. *)
Definition assigned_body (na va nb vb : Z) :=
  bind (two_lists na va nb vb)
    (λ ab, assign_body ab.1 ab.2 (Obj 2)) (start 1024 tt).

(** A default-constructed list at [Obj 0], and the state right after its
    construction in [start N e]. *)
Definition fresh_list : List Arena.StackAllocator :=
  mkList handle (Obj 0) 0.

Definition with_fresh_list {T E} (N : Z) (e : E)
    : world T E (gmap Z Arena.StackStorage) :=
  set_heap (λ h, <[Obj 0 := Base (mkBase (Obj 0) (Obj 0))]> h) (start N e).

(** The state after [push_back(5)] on the fresh list. *)
Definition pushed_5 : world Z unit (gmap Z Arena.StackStorage) :=
  mkWorld (spliced (heap (with_fresh_list (T := Z) 1024 tt)) (Obj 0)
             (Blk 4096) 5)
    {[ 4096 := Arena.mkStorage (replicate 1024 0) 24 ]} tt {[ 4096 ]}.

(** [List<int> a(1, 7)] in an arena with room for exactly one node: the
    list and the state after its construction. *)
Definition full_list : List Arena.StackAllocator :=
  mkList handle (Obj 0) 1.

Definition full_world : world Z unit (gmap Z Arena.StackStorage) :=
  mkWorld {[ Obj 0 := Base (mkBase (Blk 4096) (Blk 4096));
             Blk 4096 := Node (mkBase (Obj 0) (Obj 0)) 7 ]}
    {[ 4096 := Arena.mkStorage (replicate 24 0) 24 ]} tt {[ 4096 ]}.

(** The state after [List<Counted<17>>(100)] gave up next to the fresh
    list: 16 nodes were allocated and only the last of them, the tail of
    the arena, was reclaimed together with the node of the failed
    element. *)
Definition counted_rolled_back : world unit Z (gmap Z Arena.StackStorage) :=
  mkWorld {[ Obj 0 := Base (mkBase (Obj 0) (Obj 0)) ]}
    {[ 4096 := Arena.mkStorage (replicate 1024 0) 360 ]} 0 ∅.

(** [List<int> a(na, va); a = a;] *)
Definition self_assigned (na va : Z) :=
  bind (two_lists na va 0 0)
    (λ ab, operator_assign ab.1 ab.1 (Obj 2)) (start 1024 tt).

(** [List<int> a(2, 7); a.push_back(9);], with [a] at [Obj 0]: the list,
    its nodes and the state afterwards. *)
Definition seven_seven : outcome Z unit (gmap Z Arena.StackStorage)
                           (List Arena.StackAllocator) :=
  List_count_value (Obj 0) 2 7 handle (start 1024 tt).

Definition sevens_list : List Arena.StackAllocator := mkList handle (Obj 0) 2.

Definition sevens_world : world Z unit (gmap Z Arena.StackStorage) :=
  world_of seven_seven (start 1024 tt).

Definition three_list : List Arena.StackAllocator := mkList handle (Obj 0) 3.

Definition three_world : world Z unit (gmap Z Arena.StackStorage) :=
  world_of (push_back sevens_list 9 sevens_world) sevens_world.

Definition three_nodes : list (addr * Z) :=
  [(Blk 4096, 7); (Blk 4120, 7); (Blk 4144, 9)].

(** [List<int> a(2, 3); List<int> b(1, 5);] with [a] at [Obj 0] and [b] at
    [Obj 1]. *)
Definition list_a : List Arena.StackAllocator := mkList handle (Obj 0) 2.
Definition list_b : List Arena.StackAllocator := mkList handle (Obj 1) 1.

Definition world_a : world Z unit (gmap Z Arena.StackStorage) :=
  world_of (List_count_value (Obj 0) 2 3 handle (start 1024 tt))
    (start 1024 tt).

Definition world_ab : world Z unit (gmap Z Arena.StackStorage) :=
  world_of (List_count_value (Obj 1) 1 5 handle world_a) world_a.
End IntLists.

End Demo.

(** * Properties *)

Lemma wrap_small z : 0 ≤ z < 2 ^ 64 → wrap z = z.
Proof. intros. unfold wrap. by apply Z.mod_small. Qed.

Module ArenaFacts.
Import Arena.

Section Typed.
Variables (N sizeofT alignofT : Z).
Hypothesis align_pos : 0 < alignofT.

Lemma padding_of_range used :
  0 ≤ padding_of alignofT used < alignofT.
Proof.
  unfold padding_of. pose proof (Z.mod_pos_bound used alignofT align_pos).
  destruct (Z.eqb_spec (used mod alignofT) 0); lia.
Qed.

Lemma padding_of_aligned used :
  (used + padding_of alignofT used) mod alignofT = 0.
Proof.
  unfold padding_of.
  destruct (Z.eqb_spec (used mod alignofT) 0) as [E|E].
  - by rewrite Z.add_0_r.
  - replace (used + (alignofT - used mod alignofT))
      with (used - used mod alignofT + 1 * alignofT) by lia.
    rewrite Z.mod_add by lia.
    rewrite Zminus_mod_idemp_r. rewrite Z.sub_diag. by apply Z.mod_0_l; lia.
Qed.

Hypothesis size_nonneg : 0 ≤ sizeofT.
Hypothesis capacity_fits : N + alignofT ≤ 2 ^ 64.

(** The padding the code computes is [padding_of]. *)
Lemma allocate_padding used :
  0 ≤ used → used + alignofT ≤ 2 ^ 64 →
  (if 0 <? used mod alignofT
   then wrap (alignofT - used mod alignofT) else used mod alignofT)
  = padding_of alignofT used.
Proof.
  intros ??. unfold padding_of.
  pose proof (Z.mod_pos_bound used alignofT align_pos).
  destruct (Z.ltb_spec 0 (used mod alignofT)),
    (Z.eqb_spec (used mod alignofT) 0); try lia.
  apply wrap_small. lia.
Qed.

(** Behaviour of [allocate] whenever the size computation does not leave
    the range of [size_t]. *)
Lemma allocate_in_range a count m s :
  m !! st a = Some s →
  0 ≤ size s ≤ N → 0 ≤ count → 0 ≤ st a → st a + N < 2 ^ 64 →
  size s + padding_of alignofT (size s) + count * sizeofT < 2 ^ 64 →
  allocate N sizeofT alignofT a count m =
    if decide (N < size s + padding_of alignofT (size s) + count * sizeofT)
    then Throw m
    else Ok (st a + (size s + padding_of alignofT (size s)))
            (<[st a := mkStorage (data s)
                 (size s + padding_of alignofT (size s)
                  + count * sizeofT)]> m).
Proof.
  intros Hs Hu Hc Ha Hb Hr. unfold allocate. rewrite Hs. cbv zeta.
  rewrite allocate_padding by lia.
  pose proof (padding_of_range (size s)) as Hp.
  assert (0 ≤ count * sizeofT) by (apply Z.mul_nonneg_nonneg; lia).
  rewrite (wrap_small (count * sizeofT)) by lia.
  rewrite (wrap_small (size s + count * sizeofT)) by lia.
  rewrite (wrap_small (size s + count * sizeofT + _)) by lia.
  destruct (Z.ltb_spec N (size s + count * sizeofT
                          + padding_of alignofT (size s)));
    case_decide; try lia; [done|].
  cbn [size data].
  rewrite (wrap_small (size s + _)) by lia.
  rewrite (wrap_small (st a + _)) by lia.
  rewrite (wrap_small (size s + _ + _)) by lia. done.
Qed.

(** X2: the pointer a returning [allocate] hands out is a multiple of
    [alignof(T)] whenever the address of the buffer is. *)
Theorem allocate_aligned a count m s ptr m' :
  m !! st a = Some s →
  0 ≤ size s ≤ N → 0 ≤ count → 0 ≤ st a → st a + N < 2 ^ 64 →
  size s + padding_of alignofT (size s) + count * sizeofT < 2 ^ 64 →
  st a mod alignofT = 0 →
  allocate N sizeofT alignofT a count m = Ok ptr m' →
  ptr mod alignofT = 0.
Proof.
  intros Hs Hu Hc Ha Hb Hr Hal.
  rewrite (allocate_in_range a count m s) by done.
  case_decide; [done|]. intros [= <- _].
  rewrite <- Zplus_mod_idemp_l, Hal, Z.add_0_l. apply padding_of_aligned.
Qed.

Lemma cursor_after_ge used counts :
  0 ≤ used → Forall (λ c, 0 ≤ c) counts →
  used ≤ cursor_after sizeofT alignofT used counts.
Proof.
  intros Hu Hc. revert used Hu.
  induction Hc as [|c counts Hc _ IH]; intros used Hu; cbn; [lia|].
  pose proof (padding_of_range used).
  assert (0 ≤ c * sizeofT) by (apply Z.mul_nonneg_nonneg; lia).
  etrans; [|apply IH]; lia.
Qed.

(** X3: every sequence of allocations whose total aligned size stays
    within the capacity returns a pointer for each request and leaves the
    cursor at that total, the buffer untouched. *)
Theorem allocate_each_fits a counts : ∀ m s,
  m !! st a = Some s →
  0 ≤ size s → 0 ≤ st a → st a + N < 2 ^ 64 →
  Forall (λ c, 0 ≤ c) counts →
  cursor_after sizeofT alignofT (size s) counts ≤ N →
  ∃ ptrs m',
    allocate_each N sizeofT alignofT a counts m = Ok ptrs m' ∧
    length ptrs = length counts ∧
    m' !! st a
    = Some (mkStorage (data s)
              (cursor_after sizeofT alignofT (size s) counts)).
Proof.
  induction counts as [|c counts IH]; intros m s Hs Hu Ha Hb Hc Hfit; cbn.
  - exists [], m. by destruct s.
  - apply Forall_cons in Hc as [Hc0 Hc]. cbn in Hfit.
    pose proof (padding_of_range (size s)).
    assert (0 ≤ c * sizeofT) by (apply Z.mul_nonneg_nonneg; lia).
    pose proof (cursor_after_ge
                  (size s + padding_of alignofT (size s) + c * sizeofT)
                  counts ltac:(lia) Hc).
    rewrite (allocate_in_range a c m s) by (done || lia).
    rewrite decide_False by lia.
    edestruct IH as (ptrs & m' & -> & Hlen & Hm');
      [apply lookup_insert_eq|cbn; lia|done..|].
    eexists _, _. split; [done|]. split; [cbn; by rewrite Hlen|]. done.
Qed.


(** C10: a successful [allocate(count)] followed at once by [deallocate]
    of the returned region leaves the cursor at its original value plus the
    alignment padding, and the buffer as it was; the cursor is restored
    exactly if and only if it was a multiple of [alignof(T)]. *)
Theorem allocate_deallocate_keeps_padding a count m s ptr m1 :
  m !! st a = Some s →
  0 ≤ size s ≤ N →
  allocate N sizeofT alignofT a count m = Ok ptr m1 →
  ∃ m2 s2,
    deallocate sizeofT a ptr count m1 = Ok tt m2 ∧
    m2 !! st a = Some s2 ∧
    data s2 = data s ∧
    size s2 = size s + padding_of alignofT (size s) ∧
    (0 < size s mod alignofT → size s < size s2) ∧
    (size s2 = size s ↔ size s mod alignofT = 0).
Proof.
  intros Hs Hu. unfold allocate. rewrite Hs. cbv zeta.
  rewrite allocate_padding by lia.
  pose proof (padding_of_range (size s)) as Hp.
  case_match; [done|]. intros [= <- <-]. cbn [size data].
  unfold deallocate. rewrite lookup_insert_eq. cbn [size data].
  rewrite (wrap_small (size s + _)) by lia.
  set (p := padding_of alignofT (size s)) in *.
  set (b := wrap (count * sizeofT)).
  assert (wrap (wrap (st a + (size s + p)) + count * sizeofT)
          = wrap (st a + wrap (size s + p + b))) as ->.
  { unfold b, wrap. rewrite Zplus_mod_idemp_l, Zplus_mod_idemp_r.
    rewrite <- (Zplus_mod_idemp_r (count * sizeofT)), !Z.add_assoc.
    rewrite (Z.add_comm (st a + size s + p)).
    rewrite Zplus_mod_idemp_l. f_equal. }
  rewrite Z.eqb_refl. eexists _, _. split; [done|].
  rewrite lookup_insert_eq. split; [done|]. cbn [size data].
  split; [done|].
  assert (wrap (wrap (size s + p + b) - b) = size s + p) as ->.
  { unfold wrap. rewrite Zminus_mod_idemp_l.
    replace (size s + p + b - b) with (size s + p) by lia.
    apply Z.mod_small. lia. }
  split; [done|]. subst p. unfold padding_of in *.
  pose proof (Z.mod_pos_bound (size s) alignofT align_pos).
  destruct (Z.eqb_spec (size s mod alignofT) 0); lia.
Qed.
End Typed.

Section Sequences.
Variables (N sizeofT alignofT : Z).
Hypothesis align_pos : 0 < alignofT.
Hypothesis size_nonneg : 0 ≤ sizeofT.
Hypothesis capacity_fits : N + alignofT ≤ 2 ^ 64.

(** X1: for a request whose byte size cannot wrap around [size_t],
    [allocate] throws and leaves the memory as it was when the cursor, the
    padding and the request together exceed the capacity; otherwise it
    returns the address of the buffer plus cursor plus padding and leaves the
    cursor behind the new region. *)
Theorem allocate_within_capacity a count m s :
  m !! st a = Some s →
  0 ≤ size s ≤ N → 0 ≤ st a → st a + N < 2 ^ 64 →
  0 ≤ count → N + alignofT + count * sizeofT ≤ 2 ^ 64 →
  let start := size s + padding_of alignofT (size s) in
  (N < start + count * sizeofT →
   allocate N sizeofT alignofT a count m = Throw m) ∧
  (start + count * sizeofT ≤ N →
   allocate N sizeofT alignofT a count m
   = Ok (st a + start)
       (<[st a := mkStorage (data s) (start + count * sizeofT)]> m)).
Proof.
  intros Hs Hu Ha Hb Hc Hr start.
  pose proof (padding_of_range alignofT align_pos (size s)).
  rewrite (allocate_in_range N sizeofT alignofT align_pos size_nonneg
             capacity_fits a count m s) by (done || lia).
  fold start. split; intros ?; [by rewrite decide_True|].
  by rewrite decide_False by lia.
Qed.

(** Allocations that return hand out regions that lie one after the other,
    from the old cursor to the new one. *)
Lemma allocate_each_stacked a counts : ∀ m s ptrs m',
  m !! st a = Some s →
  0 ≤ size s ≤ N → 0 ≤ st a → st a + N < 2 ^ 64 →
  Forall (λ c, 0 ≤ c ∧ N + alignofT + c * sizeofT ≤ 2 ^ 64) counts →
  allocate_each N sizeofT alignofT a counts m = Ok ptrs m' →
  length ptrs = length counts ∧
  cursor_after sizeofT alignofT (size s) counts ≤ N ∧
  m' = <[st a := mkStorage (data s)
                   (cursor_after sizeofT alignofT (size s) counts)]> m ∧
  stacked sizeofT (st a + size s) (zip ptrs counts)
    (st a + cursor_after sizeofT alignofT (size s) counts).
Proof.
  induction counts as [|c counts IH]; intros m s ptrs m' Hs Hu Ha Hb Hc; cbn.
  - intros [= <- <-]. split; [done|]. split; [lia|]. split; [|done].
    rewrite insert_id; [done|]. by destruct s.
  - apply Forall_cons in Hc as [[Hc0 Hc1] Hc].
    pose proof (padding_of_range alignofT align_pos (size s)).
    assert (0 ≤ c * sizeofT) by (apply Z.mul_nonneg_nonneg; lia).
    rewrite (allocate_in_range N sizeofT alignofT align_pos size_nonneg
               capacity_fits a c m s) by (done || lia).
    case_decide as Hfit; [done|].
    destruct (allocate_each _ _ _ _ _ _) as [ptrs' m''| |] eqn:Hrest; [|done..].
    intros [= <- <-].
    eapply IH in Hrest as (Hlen & Hn & -> & Hst);
      [|apply lookup_insert_eq|cbn; lia|done..].
    cbn [size data] in *. split; [cbn; by rewrite Hlen|]. split; [done|].
    split; [by rewrite insert_insert_eq|].
    split; [lia|].
    by replace (st a + (size s + padding_of alignofT (size s)) + c * sizeofT)
      with (st a + (size s + padding_of alignofT (size s) + c * sizeofT))
      by lia.
Qed.

Lemma padding_of_zero used :
  used mod alignofT = 0 → padding_of alignofT used = 0.
Proof. intros Hu. unfold padding_of. by rewrite Hu. Qed.

(** [deallocate] when the region does not wrap around the address
    space. *)
Lemma deallocate_in_range a ptr count m s :
  m !! st a = Some s →
  0 ≤ size s ≤ N → 0 ≤ st a → st a + N < 2 ^ 64 →
  0 ≤ count → st a ≤ ptr → ptr + count * sizeofT < 2 ^ 64 →
  deallocate sizeofT a ptr count m =
    Ok tt (if decide (ptr + count * sizeofT = st a + size s)
           then <[st a := mkStorage (data s) (size s - count * sizeofT)]> m
           else m).
Proof.
  intros Hs Hu Ha Hb Hc Hp Hr. unfold deallocate. rewrite Hs.
  assert (0 ≤ count * sizeofT) by (apply Z.mul_nonneg_nonneg; lia).
  rewrite (wrap_small (ptr + _)), (wrap_small (st a + _)) by lia.
  destruct (Z.eqb_spec (ptr + count * sizeofT) (st a + size s));
    case_decide; try lia; [|done].
  rewrite (wrap_small (count * sizeofT)) by lia.
  rewrite (wrap_small (size s - _)) by lia. done.
Qed.

Lemma deallocate_each_app a r1 r2 m :
  deallocate_each sizeofT a (r1 ++ r2) m
  = match deallocate_each sizeofT a r1 m with
    | Ok _ m' => deallocate_each sizeofT a r2 m'
    | Throw m' => Throw m'
    | Undefined => Undefined
    end.
Proof.
  revert m. induction r1 as [|[p c] r1 IH]; intros m; cbn; [done|].
  destruct (deallocate sizeofT a p c m); try done.
Qed.

(** X6: with the cursor on a multiple of [alignof(T)] and [sizeof(T)] a
    multiple of [alignof(T)], as it is for every object type, deallocating
    the regions of a sequence of allocations in the reverse order of their
    allocation gives back the memory exactly as it was before the first of
    them. *)
Theorem deallocate_in_reverse_restores a counts : ∀ m s ptrs m',
  m !! st a = Some s →
  0 ≤ size s ≤ N → 0 ≤ st a → st a + N < 2 ^ 64 →
  size s mod alignofT = 0 → sizeofT mod alignofT = 0 →
  Forall (λ c, 0 ≤ c ∧ N + alignofT + c * sizeofT ≤ 2 ^ 64) counts →
  allocate_each N sizeofT alignofT a counts m = Ok ptrs m' →
  deallocate_each sizeofT a (reverse (zip ptrs counts)) m' = Ok tt m.
Proof.
  induction counts as [|c counts IH]; intros m s ptrs m' Hs Hu Ha Hb Hal Hsz Hc;
    cbn.
  - by intros [= <- <-].
  - apply Forall_cons in Hc as [[Hc0 Hc1] Hc].
    assert (0 ≤ c * sizeofT) by (apply Z.mul_nonneg_nonneg; lia).
    pose proof (padding_of_zero _ Hal) as Hpad.
    rewrite (allocate_in_range N sizeofT alignofT align_pos size_nonneg
               capacity_fits a c m s) by (done || lia).
    rewrite Hpad, Z.add_0_r.
    case_decide as Hfit; [done|].
    destruct (allocate_each _ _ _ _ _ _) as [ptrs' m''| |] eqn:Hrest; [|done..].
    intros [= <- <-]. cbn [zip zip_with]. rewrite reverse_cons.
    rewrite deallocate_each_app.
    eapply IH in Hrest;
      [|apply lookup_insert_eq|cbn; lia|done|done| |done|done].
    2:{ cbn. rewrite <- Zplus_mod_idemp_r, <- Zmult_mod_idemp_r, Hsz.
        by rewrite Z.mul_0_r, Z.add_0_r. }
    rewrite Hrest.
    cbn [deallocate_each].
    rewrite (deallocate_in_range a _ c _ _ (lookup_insert_eq _ _ _))
      by (cbn; lia).
    cbn [size data]. rewrite decide_True by lia.
    rewrite insert_insert_eq.
    replace (size s + c * sizeofT - c * sizeofT) with (size s) by lia.
    rewrite insert_id; [done|]. by destruct s.
Qed.

Lemma stacked_lt lo regions p c hi :
  Forall (λ b, 0 ≤ b.2 * sizeofT) regions → 0 < c * sizeofT →
  stacked sizeofT lo (regions ++ [(p, c)]) hi → lo < hi.
Proof.
  intros Hb Hc. revert lo.
  induction Hb as [|[q k] regions Hk _ IH]; intros lo; cbn.
  - intros [? <-]. lia.
  - intros [? Hst%IH]. cbn in Hk. lia.
Qed.

(** Deallocating stacked regions from the first to the last: only the last
    one ends at the cursor. *)
Lemma deallocate_each_in_order a regions : ∀ lo p c m s,
  m !! st a = Some s →
  0 ≤ size s ≤ N → 0 ≤ st a → st a + N < 2 ^ 64 → st a ≤ lo →
  Forall (λ b, 0 ≤ b.2) regions → 0 ≤ c → 0 < c * sizeofT →
  stacked sizeofT lo (regions ++ [(p, c)]) (st a + size s) →
  deallocate_each sizeofT a (regions ++ [(p, c)]) m
  = Ok tt (<[st a := mkStorage (data s) (size s - c * sizeofT)]> m).
Proof.
  induction regions as [|[q k] regions IH];
    intros lo p c m s Hs Hu Ha Hb Hlo Hk Hc0 Hc; cbn.
  - intros [Hp Hend].
    rewrite (deallocate_in_range a p c m s) by (done || lia).
    by rewrite decide_True by done.
  - intros [Hq Hst]. apply Forall_cons in Hk as [Hk0 Hk]. cbn in Hk0.
    assert (0 ≤ k * sizeofT) by (apply Z.mul_nonneg_nonneg; lia).
    assert (q + k * sizeofT < st a + size s) as Hlt.
    { eapply stacked_lt; [|done|done].
      eapply Forall_impl; [done|]. intros [??] ?; cbn in *.
      apply Z.mul_nonneg_nonneg; lia. }
    rewrite (deallocate_in_range a q k m s) by (done || lia).
    rewrite decide_False by lia.
    by apply (IH (q + k * sizeofT)); try done; lia.
Qed.

Lemma cursor_after_app used counts c :
  cursor_after sizeofT alignofT used (counts ++ [c])
  = let u := cursor_after sizeofT alignofT used counts in
    u + padding_of alignofT u + c * sizeofT.
Proof. revert used. induction counts as [|k counts IH]; intros used; cbn; [done|apply IH]. Qed.

(** X7: deallocating the regions of a sequence of allocations in the order
    of their allocation reclaims the last region only: every earlier
    [deallocate] finds a region that does not end at the cursor and does
    nothing, so the cursor stops where the last region began. *)
Theorem deallocate_in_allocation_order_reclaims_last a counts c m s ptrs m' :
  m !! st a = Some s →
  0 ≤ size s ≤ N → 0 ≤ st a → st a + N < 2 ^ 64 →
  Forall (λ c, 0 ≤ c ∧ N + alignofT + c * sizeofT ≤ 2 ^ 64) (counts ++ [c]) →
  0 < c * sizeofT →
  allocate_each N sizeofT alignofT a (counts ++ [c]) m = Ok ptrs m' →
  let u := cursor_after sizeofT alignofT (size s) counts in
  deallocate_each sizeofT a (zip ptrs (counts ++ [c])) m'
  = Ok tt (<[st a := mkStorage (data s) (u + padding_of alignofT u)]> m).
Proof.
  intros Hs Hu Ha Hb Hc Hpos Hrun u.
  pose proof (allocate_each_stacked a _ m s ptrs m' Hs Hu Ha Hb Hc Hrun)
    as (Hlen & Hn & -> & Hst).
  rewrite cursor_after_app in Hn, Hst |- *. fold u in Hn, Hst |- *.
  cbv zeta in Hn, Hst |- *.
  rewrite length_app in Hlen. cbn in Hlen.
  destruct (exists_last (l := ptrs)) as (ptrs0 & p & ->).
  { intros ->. cbn in Hlen. lia. }
  rewrite length_app in Hlen. cbn in Hlen.
  rewrite zip_with_app in Hst |- * by lia. cbn [zip_with] in Hst |- *.
  apply Forall_app in Hc as [Hc [Hc1 _]%Forall_cons].
  pose proof (padding_of_range alignofT align_pos u).
  assert (size s ≤ u) as Hge.
  { apply (cursor_after_ge sizeofT alignofT align_pos size_nonneg);
      [lia|]. eapply Forall_impl; [done|]. by intros ? [? _]. }
  assert (Forall (λ b : Z * Z, 0 ≤ b.2) (zip ptrs0 counts)) as Hnn.
  { apply Forall_forall. intros [q k] Hin. cbn.
    apply elem_of_zip_r in Hin. cbn in Hin.
    by eapply Forall_forall in Hc as [? _]. }
  rewrite (deallocate_each_in_order a _ (st a + size s) p c _ _
             (lookup_insert_eq _ _ _)); cbn [size data]; try done; try lia.
  rewrite insert_insert_eq. do 3 f_equal. lia.
Qed.

Lemma stacked_le lo regions hi :
  Forall (λ b, 0 ≤ b.2 * sizeofT) regions →
  stacked sizeofT lo regions hi → lo ≤ hi.
Proof.
  intros Hb. revert lo.
  induction Hb as [|[q k] regions Hk _ IH]; intros lo; cbn; [lia|].
  intros [? Hst%IH]. cbn in Hk. lia.
Qed.

Lemma stacked_lookup lo regions hi i p c :
  Forall (λ b, 0 ≤ b.2 * sizeofT) regions →
  stacked sizeofT lo regions hi → regions !! i = Some (p, c) →
  lo ≤ p ∧ stacked sizeofT (p + c * sizeofT) (drop (S i) regions) hi.
Proof.
  intros Hb. revert lo i.
  induction Hb as [|[q k] regions Hk _ IH]; intros lo i; [done|].
  cbn in Hk. destruct i as [|i]; cbn.
  - intros [? ?] [= <- <-]. by rewrite drop_0.
  - intros [? Hst] Hi. destruct (IH _ _ Hst Hi) as [? ?]. split; [lia|done].
Qed.

(** X4: the regions two allocations of a sequence return do not overlap and
    lie inside the buffer: the earlier one ends at or before the start of
    the later one, the first starts at or after the old cursor, and the
    last ends within the capacity. *)
Theorem allocations_never_overlap a counts m s ptrs m' i j p q ci cj :
  m !! st a = Some s →
  0 ≤ size s ≤ N → 0 ≤ st a → st a + N < 2 ^ 64 →
  Forall (λ c, 0 ≤ c ∧ N + alignofT + c * sizeofT ≤ 2 ^ 64) counts →
  allocate_each N sizeofT alignofT a counts m = Ok ptrs m' →
  (i < j)%nat →
  ptrs !! i = Some p → counts !! i = Some ci →
  ptrs !! j = Some q → counts !! j = Some cj →
  st a + size s ≤ p ∧ p + ci * sizeofT ≤ q ∧ q + cj * sizeofT ≤ st a + N.
Proof.
  intros Hs Hu Ha Hb Hc Hrun Hij Hp Hci Hq Hcj.
  pose proof (allocate_each_stacked a _ m s ptrs m' Hs Hu Ha Hb Hc Hrun)
    as (Hlen & Hn & _ & Hst).
  assert (Forall (λ b : Z * Z, 0 ≤ b.2 * sizeofT) (zip ptrs counts)) as Hnn.
  { apply Forall_forall. intros [r k] Hin. cbn.
    apply elem_of_zip_r in Hin. cbn in Hin.
    eapply Forall_forall in Hc as [? _]; [|done].
    apply Z.mul_nonneg_nonneg; lia. }
  assert (zip ptrs counts !! i = Some (p, ci)) as Hi.
  { rewrite lookup_zip_with, Hp, Hci. done. }
  assert (zip ptrs counts !! j = Some (q, cj)) as Hj.
  { rewrite lookup_zip_with, Hq, Hcj. done. }
  destruct (stacked_lookup _ _ _ _ _ _ Hnn Hst Hi) as [Hlo Hst'].
  assert (drop (S i) (zip ptrs counts) !! (j - S i)%nat = Some (q, cj)) as Hj'.
  { rewrite lookup_drop. rewrite <- Hj. f_equal. lia. }
  destruct (stacked_lookup _ _ _ _ _ _ (Forall_drop _ _ _ Hnn) Hst' Hj')
    as [Hpq Hst''].
  apply stacked_le in Hst''; [|by do 2 apply Forall_drop]. lia.
Qed.

(** X5: an arena whose free space holds exactly [k] elements, with the
    cursor and [sizeof(T)] multiples of [alignof(T)], serves [k] single
    allocations at consecutive addresses, and the next [allocate(1)] throws
    and changes nothing. *)
Theorem arena_serves_exactly_capacity a (k : nat) : ∀ m s,
  m !! st a = Some s →
  0 ≤ size s ≤ N → 0 ≤ st a → st a + N < 2 ^ 64 →
  size s mod alignofT = 0 → sizeofT mod alignofT = 0 →
  N + alignofT + sizeofT ≤ 2 ^ 64 →
  size s + Z.of_nat k * sizeofT ≤ N < size s + (Z.of_nat k + 1) * sizeofT →
  let m' := <[st a := mkStorage (data s) (size s + Z.of_nat k * sizeofT)]> m in
  allocate_each N sizeofT alignofT a (replicate k 1) m
  = Ok ((λ i, st a + size s + i * sizeofT) <$> seqZ 0 (Z.of_nat k)) m' ∧
  allocate N sizeofT alignofT a 1 m' = Throw m'.
Proof.
  induction k as [|k IH]; intros m s Hs Hu Ha Hb Hal Hsz Hfit Hk m'; subst m'.
  - cbn [replicate allocate_each]. rewrite Z.mul_0_l, Z.add_0_r.
    rewrite insert_id by by destruct s. split; [done|].
    pose proof (padding_of_zero _ Hal) as Hpad.
    rewrite (allocate_in_range N sizeofT alignofT align_pos size_nonneg
               capacity_fits a 1 m s) by (done || lia).
    rewrite decide_True by lia. done.
  - cbn [replicate allocate_each].
    pose proof (padding_of_zero _ Hal) as Hpad.
    rewrite (allocate_in_range N sizeofT alignofT align_pos size_nonneg
               capacity_fits a 1 m s) by (done || lia).
    rewrite Hpad, Z.add_0_r, Z.mul_1_l. rewrite decide_False by lia.
    edestruct (IH (<[st a := mkStorage (data s) (size s + sizeofT)]> m))
      as [-> Hthrow]; [apply lookup_insert_eq|cbn; lia|done|done| |done|done|
                       cbn; lia|].
    { cbn. by rewrite <- Zplus_mod_idemp_r, Hsz, Z.add_0_r. }
    cbn [size data] in *. rewrite insert_insert_eq in *.
    replace (size s + sizeofT + Z.of_nat k * sizeofT)
      with (size s + Z.of_nat (S k) * sizeofT) in * by lia.
    split; [|done]. f_equal.
    rewrite Nat2Z.inj_succ, (seqZ_cons 0 (Z.succ (Z.of_nat k))) by lia.
    cbn [fmap list_fmap].
    f_equal; [lia|].
    rewrite Z.pred_succ.
    assert (seqZ (Z.succ 0) (Z.of_nat k) = Z.add 1 <$> seqZ 0 (Z.of_nat k))
      as -> by (symmetry; apply (fmap_add_seqZ 1 0)).
    rewrite <- list_fmap_compose.
    apply list_fmap_ext. intros ? x _. cbn. lia.
Qed.
End Sequences.

(** C1: the capacity test of [allocate] is computed in [size_t]; a request
    whose byte size wraps around passes it.  In an arena of capacity 64 over
    8-byte elements with 8 bytes in use, [allocate(2^61 - 1)] needs
    [8 + 2^64 - 8 > 64] bytes, yet it returns [data + 8] and moves the cursor
    back to 0; with an empty arena, [allocate(2^61)] returns [data + 0] and
    leaves the cursor at 0.  Neither call throws. *)
Theorem allocate_wraps_past_capacity :
  let a := of_storage 4096 in
  let m8 : memory := {[ 4096 := mkStorage (replicate 64 0) 8 ]} in
  let m0 : memory := {[ 4096 := mkStorage (replicate 64 0) 0 ]} in
  64 < 8 + padding_of 8 8 + (2 ^ 61 - 1) * 8 ∧
  allocate 64 8 8 a (2 ^ 61 - 1) m8 = Ok 4104 m0 ∧
  64 < 0 + padding_of 8 0 + 2 ^ 61 * 8 ∧
  allocate 64 8 8 a (2 ^ 61) m0 = Ok 4096 m0.
Proof. vm_compute. repeat split; reflexivity. Qed.


(** With 3 bytes in use, allocating one 8-byte element and freeing it
    leaves the cursor at 8: the 5 bytes of padding stay consumed. *)
Lemma allocate_deallocate_keeps_padding_witness :
  let a := of_storage 4096 in
  let m : memory := {[ 4096 := mkStorage (replicate 64 0) 3 ]} in
  let m1 : memory := {[ 4096 := mkStorage (replicate 64 0) 16 ]} in
  allocate 64 8 8 a 1 m = Ok 4104 m1 ∧
  ∃ m2 s2, deallocate 8 a 4104 1 m1 = Ok tt m2 ∧
           m2 !! 4096 = Some s2 ∧ size s2 = 8.
Proof.
  intros a m m1. split; [reflexivity|].
  destruct (allocate_deallocate_keeps_padding 64 8 8 ltac:(lia) ltac:(lia)
              a 1 m (mkStorage (replicate 64 0) 3) 4104 m1 eq_refl
              ltac:(cbn; lia) eq_refl)
    as (m2 & s2 & Hd & Hl & _ & Hs & _).
  exists m2, s2. auto.
Defined.

(** With 3 bytes of 64 in use, one 8-byte element fits behind 5 bytes of
    padding, and eight do not. *)
Lemma allocate_within_capacity_witness :
  let a := of_storage 4096 in
  let m : memory := {[ 4096 := mkStorage (replicate 64 0) 3 ]} in
  allocate 64 8 8 a 1 m
  = Ok 4104 {[ 4096 := mkStorage (replicate 64 0) 16 ]} ∧
  allocate 64 8 8 a 8 m = Throw m.
Proof.
  intros a m.
  destruct (allocate_within_capacity 64 8 8 ltac:(lia) ltac:(lia) ltac:(lia)
              a 1 m (mkStorage (replicate 64 0) 3) eq_refl
              ltac:(cbn; lia) ltac:(cbn; lia) ltac:(cbn; lia) ltac:(lia)
              ltac:(lia)) as [_ Hok].
  destruct (allocate_within_capacity 64 8 8 ltac:(lia) ltac:(lia) ltac:(lia)
              a 8 m (mkStorage (replicate 64 0) 3) eq_refl
              ltac:(cbn; lia) ltac:(cbn; lia) ltac:(cbn; lia) ltac:(lia)
              ltac:(lia)) as [Hthrow _].
  split.
  - rewrite Hok by (vm_compute; discriminate). reflexivity.
  - apply Hthrow. vm_compute. reflexivity.
Defined.

(** The pointer handed out from cursor 3 in a buffer at 4096 is 4104. *)
Lemma allocate_aligned_witness :
  let a := of_storage 4096 in
  let m : memory := {[ 4096 := mkStorage (replicate 64 0) 3 ]} in
  allocate 64 8 8 a 1 m
  = Ok 4104 {[ 4096 := mkStorage (replicate 64 0) 16 ]} ∧
  4104 mod 8 = 0.
Proof.
  intros a m. split; [reflexivity|].
  exact (allocate_aligned 64 8 8 ltac:(lia) ltac:(lia) ltac:(lia) a 1 m
           (mkStorage (replicate 64 0) 3) 4104 _ eq_refl
           ltac:(cbn; lia) ltac:(lia) ltac:(cbn; lia) ltac:(cbn; lia)
           ltac:(vm_compute; reflexivity) eq_refl eq_refl).
Defined.

(** Requests for 1, 2 and 1 elements of 8 bytes from cursor 3 need 40 of
    the 64 bytes. *)
Lemma allocate_each_fits_witness :
  let a := of_storage 4096 in
  let m : memory := {[ 4096 := mkStorage (replicate 64 0) 3 ]} in
  cursor_after 8 8 3 [1; 2; 1] = 40 ∧
  ∃ ptrs m',
    allocate_each 64 8 8 a [1; 2; 1] m = Ok ptrs m' ∧
    length ptrs = 3%nat ∧
    m' !! 4096 = Some (mkStorage (replicate 64 0) 40).
Proof.
  intros a m. split; [reflexivity|].
  exact (allocate_each_fits 64 8 8 ltac:(lia) ltac:(lia) ltac:(lia) a
           [1; 2; 1] m (mkStorage (replicate 64 0) 3) eq_refl
           ltac:(cbn; lia) ltac:(cbn; lia) ltac:(cbn; lia)
           ltac:(repeat constructor; lia) ltac:(vm_compute; discriminate)).
Defined.

(** The regions of two allocations from cursor 3: 8 bytes at 4104, then 16
    bytes at 4112. *)
Lemma allocations_never_overlap_witness :
  let a := of_storage 4096 in
  let m : memory := {[ 4096 := mkStorage (replicate 64 0) 3 ]} in
  allocate_each 64 8 8 a [1; 2] m
  = Ok [4104; 4112] {[ 4096 := mkStorage (replicate 64 0) 32 ]} ∧
  4096 + 3 ≤ 4104 ∧ 4104 + 1 * 8 ≤ 4112 ∧ 4112 + 2 * 8 ≤ 4096 + 64.
Proof.
  intros a m. split; [reflexivity|].
  exact (allocations_never_overlap 64 8 8 ltac:(lia) ltac:(lia) ltac:(lia) a
           [1; 2] m (mkStorage (replicate 64 0) 3) [4104; 4112] _
           0%nat 1%nat 4104 4112 1 2 eq_refl
           ltac:(cbn; lia) ltac:(cbn; lia) ltac:(cbn; lia)
           ltac:(repeat constructor; lia) eq_refl ltac:(lia)
           eq_refl eq_refl eq_refl eq_refl).
Defined.

(** An empty arena of 24 bytes serves three 8-byte elements and no
    fourth. *)
Lemma arena_serves_exactly_capacity_witness :
  let a := of_storage 4096 in
  let m : memory := {[ 4096 := mkStorage (replicate 24 0) 0 ]} in
  let m' : memory := {[ 4096 := mkStorage (replicate 24 0) 24 ]} in
  allocate_each 24 8 8 a [1; 1; 1] m = Ok [4096; 4104; 4112] m' ∧
  allocate 24 8 8 a 1 m' = Throw m'.
Proof.
  intros a m m'.
  exact (arena_serves_exactly_capacity 24 8 8 ltac:(lia) ltac:(lia)
           ltac:(lia) a 3 m (mkStorage (replicate 24 0) 0) eq_refl
           ltac:(cbn; lia) ltac:(cbn; lia) ltac:(cbn; lia)
           eq_refl eq_refl ltac:(lia) ltac:(cbn; lia)).
Defined.

(** Two allocations from cursor 8, freed last first: the cursor is back
    at 8. *)
Lemma deallocate_in_reverse_restores_witness :
  let a := of_storage 4096 in
  let m : memory := {[ 4096 := mkStorage (replicate 64 0) 8 ]} in
  let m' : memory := {[ 4096 := mkStorage (replicate 64 0) 32 ]} in
  allocate_each 64 8 8 a [1; 2] m = Ok [4104; 4112] m' ∧
  deallocate_each 8 a [(4112, 2); (4104, 1)] m' = Ok tt m.
Proof.
  intros a m m'. split; [reflexivity|].
  exact (deallocate_in_reverse_restores 64 8 8 ltac:(lia) ltac:(lia)
           ltac:(lia) a [1; 2] m (mkStorage (replicate 64 0) 8)
           [4104; 4112] m' eq_refl
           ltac:(cbn; lia) ltac:(cbn; lia) ltac:(cbn; lia)
           eq_refl eq_refl ltac:(repeat constructor; lia) eq_refl).
Defined.

(** The same two regions freed first first: only the 16 bytes of the
    second come back, and the cursor stays at 16. *)
Lemma deallocate_in_allocation_order_reclaims_last_witness :
  let a := of_storage 4096 in
  let m : memory := {[ 4096 := mkStorage (replicate 64 0) 8 ]} in
  let m' : memory := {[ 4096 := mkStorage (replicate 64 0) 32 ]} in
  allocate_each 64 8 8 a [1; 2] m = Ok [4104; 4112] m' ∧
  deallocate_each 8 a [(4104, 1); (4112, 2)] m'
  = Ok tt {[ 4096 := mkStorage (replicate 64 0) 16 ]}.
Proof.
  intros a m m'. split; [reflexivity|].
  pose proof (deallocate_in_allocation_order_reclaims_last 64 8 8
                ltac:(lia) ltac:(lia) ltac:(lia) a [1] 2 m
                (mkStorage (replicate 64 0) 8) [4104; 4112] m' eq_refl
                ltac:(cbn; lia) ltac:(cbn; lia) ltac:(cbn; lia)
                ltac:(repeat constructor; lia) ltac:(lia) eq_refl) as Hrun.
  exact Hrun.
Defined.

(** C8, as the code has it: [StackAllocator] declares no equality operator,
    so the comparison of two handles on the same storage does not yield
    "equal". *)
Lemma handles_have_no_equality :
  let a := of_storage 4096 in
  let b := rebind_copy a in
  ¬ (operator_eq a b = Some true ↔ st a = st b).
Proof. intros a b [_ H]. discriminate (H eq_refl). Qed.

(** C8, amended: what identifies a handle is the storage it references.  A
    handle made from a storage references it, a rebound copy references the
    storage of its source, two handles are the same value exactly when they
    reference the same storage, and then [allocate] and [deallocate]
    through either do the same. *)
Theorem handles_share_storage (a b : StackAllocator) :
  (∀ address, st (of_storage address) = address) ∧
  st (rebind_copy a) = st a ∧
  (a = b ↔ st a = st b) ∧
  (st a = st b ↔
   ∀ N sizeofT alignofT count ptr m,
     allocate N sizeofT alignofT a count m
     = allocate N sizeofT alignofT b count m ∧
     deallocate sizeofT a ptr count m = deallocate sizeofT b ptr count m).
Proof.
  split; [done|]. split; [done|]. split.
  - destruct a, b. cbn. split; [by intros [= ->]|by intros ->].
  - split.
    + intros Hst N sizeofT alignofT count ptr m.
      unfold allocate, deallocate. by rewrite Hst.
    + intros Hsame.
      destruct (Hsame 8 1 1 0 0 {[ st a := mkStorage [] 0 ]}) as [Hal _].
      unfold allocate in Hal. rewrite lookup_singleton_eq in Hal.
      destruct (decide (st a = st b)) as [|Hne]; [done|].
      by rewrite lookup_singleton_ne in Hal.
Qed.

End ArenaFacts.

(** ** The list *)

Module ListFacts.
Import ListModel.

Section RingFacts.
Context {T : Type}.
Implicit Types (h : gmap addr (object T)) (r : list (addr * option T)).

Lemma base_of_obj_of (p n : addr) (k : option T) :
  base_of (obj_of p n k) = mkBase p n.
Proof. by destruct k. Qed.

Lemma with_base_obj_of (p n p' n' : addr) (k : option T) :
  with_base (obj_of p n k) (mkBase p' n') = obj_of p' n' k.
Proof. by destruct k. Qed.

Lemma hd_app_cons {A} (d d' : A) (l : list A) x l' :
  List.hd d (l ++ x :: l') = List.hd d' (l ++ x :: l').
Proof. by destruct l. Qed.

Lemma last_snoc {A} (d : A) (l : list A) x : List.last (l ++ [x]) d = x.
Proof. apply List.last_last. Qed.

Lemma last_cons_snoc {A} (d : A) y (l : list A) x :
  List.last (y :: l ++ [x]) d = x.
Proof. by rewrite app_comm_cons, last_snoc. Qed.

Lemma seg_frame h h' prv r nxt :
  (∀ a, a ∈ r.*1 → h' !! a = h !! a) →
  seg h prv r nxt → seg h' prv r nxt.
Proof.
  revert prv. induction r as [|[a k] r IH]; intros prv Hf; [done|].
  cbn. intros [Ha Hr]. split.
  - rewrite Hf; [done|]. cbn. left.
  - apply IH; [|done]. intros b Hb. apply Hf. cbn. by right.
Qed.

Lemma last_cons_irrel {A} (x : A) (l : list A) d d' :
  List.last (x :: l) d = List.last (x :: l) d'.
Proof.
  revert x. induction l as [|y l IH]; intros x; [done|].
  change (List.last (y :: l) d = List.last (y :: l) d'). apply IH.
Qed.

Lemma last_cons_default {A} (x : A) (l : list A) d :
  List.last (x :: l) d = List.last l x.
Proof.
  revert x. induction l as [|y l IH]; intros x; [done|].
  change (List.last (y :: l) d = List.last (y :: l) x).
  apply last_cons_irrel.
Qed.

Lemma last_app_cons {A} (l : list A) x l' d :
  List.last (l ++ x :: l') d = List.last l' x.
Proof.
  induction l as [|y l IH]; cbn [app].
  - apply last_cons_default.
  - rewrite <- IH. destruct l; cbn [app]; by rewrite !last_cons_default.
Qed.

Lemma seg_app h prv r1 r2 nxt :
  seg h prv (r1 ++ r2) nxt ↔
  seg h prv r1 (List.hd nxt (r2.*1)) ∧
  seg h (List.last (r1.*1) prv) r2 nxt.
Proof.
  revert prv. induction r1 as [|[a k] r1 IH]; intros prv.
  - cbn. tauto.
  - rewrite <- app_comm_cons, fmap_cons. cbn [seg fst].
    rewrite IH, fmap_app, last_cons_default.
    assert (List.hd nxt (r1.*1 ++ r2.*1)
            = List.hd (List.hd nxt (r2.*1)) (r1.*1)) as ->
      by by destruct r1.
    tauto.
Qed.

Lemma seg_snoc h prv r z kz nxt :
  seg h prv (r ++ [(z, kz)]) nxt ↔
  seg h prv r z ∧
  h !! z = Some (obj_of (List.last (r.*1) prv) nxt kz).
Proof. rewrite seg_app. cbn. tauto. Qed.

Lemma cyc_rotate h r1 r2 : cyc h (r1 ++ r2) → cyc h (r2 ++ r1).
Proof.
  intros [Hnd Hs]. split.
  { rewrite fmap_app in *. by rewrite (Permutation_app_comm (r2.*1)). }
  destruct r1 as [|[a ka] r1]; [by rewrite app_nil_r in *|].
  destruct r2 as [|[b kb] r2]; [by rewrite app_nil_r in *|].
  change ((b, kb) :: r2 ++ (a, ka) :: r1)
    with (((b, kb) :: r2) ++ (a, ka) :: r1).
  change ((a, ka) :: r1 ++ (b, kb) :: r2)
    with (((a, ka) :: r1) ++ (b, kb) :: r2) in Hs.
  apply seg_app in Hs as [H1 H2]. apply seg_app.
  rewrite !fmap_app, !fmap_cons in *. cbn [fst List.hd] in *.
  rewrite !last_app_cons in *.
  rewrite (last_cons_default _ _ (List.last (r1.*1) a)).
  rewrite (last_cons_default _ _ (List.last (r2.*1) b)) in H2.
  done.
Qed.

Lemma seg_is_Some h prv r nxt a :
  seg h prv r nxt → a ∈ r.*1 → is_Some (h !! a).
Proof.
  revert prv. induction r as [|[b k] r IH]; intros prv; cbn.
  - by intros _ ?%elem_of_nil.
  - intros [Hb Hr] [->|Ha]%elem_of_cons; eauto.
Qed.

Lemma cyc_is_Some h r a : cyc h r → a ∈ r.*1 → is_Some (h !! a).
Proof.
  intros [_ Hs] Ha. destruct r as [|[b k] r]; [done|].
  by eapply seg_is_Some.
Qed.

Lemma cyc_head h pos kp rest :
  cyc h ((pos, kp) :: rest) →
  h !! pos = Some (obj_of (List.last (rest.*1) pos)
                          (List.hd pos (rest.*1)) kp).
Proof.
  intros [_ [Hs _]]. rewrite Hs. by rewrite fmap_cons, last_cons_default.
Qed.

Ltac lookups :=
  unfold link_prev, link_next;
  repeat first
    [ rewrite lookup_delete | rewrite lookup_alter
    | rewrite lookup_insert ];
  repeat case_decide; try congruence.

Lemma cyc_insert h pos kp rest p v :
  cyc h ((pos, kp) :: rest) → h !! p = None →
  cyc (spliced h pos p v) ((pos, kp) :: rest ++ [(p, Some v)]).
Proof.
  intros Hc Hp. pose proof (cyc_head _ _ _ _ Hc) as Hpos.
  assert (p ∉ ((pos, kp) :: rest).*1) as Hfresh.
  { intros Hin. eapply cyc_is_Some in Hin as [? ?]; [|done]. congruence. }
  destruct Hc as [Hnd Hseg]. unfold spliced, prev_of. rewrite Hpos.
  rewrite base_of_obj_of. cbn [prev].
  split.
  { rewrite app_comm_cons, fmap_app. apply NoDup_app. split; [done|].
    split; [|apply NoDup_singleton].
    intros x Hx [->|[]%elem_of_nil]%elem_of_cons. done. }
  rewrite fmap_cons in Hfresh, Hnd. cbn [fst] in *.
  apply not_elem_of_cons in Hfresh as [Hne Hfresh].
  apply NoDup_cons in Hnd as [Hpos_nin Hnd].
  assert (List.last ((pos, kp) :: rest ++ [(p, Some v)]).*1 pos = p) as ->.
  { rewrite fmap_cons, fmap_app. cbn. apply (last_cons_snoc pos pos). }
  cbn [seg]. destruct Hseg as [_ Hseg].
  destruct (decide (rest = [])) as [->|Hrest].
  - cbn in *. split; [|split; [|done]]; lookups.
    rewrite Hpos. by destruct kp.
  - destruct (exists_last Hrest) as (rest0 & [q kq] & ->).
    rewrite fmap_app in *. cbn [fmap list_fmap fst] in *.
    rewrite last_snoc in *.
    apply seg_snoc in Hseg as [Hs0 Hq].
    apply NoDup_app in Hnd as (Hnd0 & Hdisj & _).
    rewrite not_elem_of_app in Hpos_nin, Hfresh.
    destruct Hpos_nin as [Hpos0 [Hposq _]%not_elem_of_cons],
             Hfresh as [Hp0 [Hpq _]%not_elem_of_cons].
    split.
    + lookups. rewrite Hpos, <- app_assoc. cbn [app].
      assert (List.hd pos (rest0 ++ [(q, kq); (p, Some v)]).*1
              = List.hd pos (rest0.*1 ++ [q])) as -> by by destruct rest0.
      by destruct kp.
    + rewrite <- app_assoc. cbn [app]. apply seg_app. split.
      * cbn. eapply seg_frame; [|done]. intros a Ha.
        assert (a ≠ q) by (intros ->; by eapply Hdisj; [|left]).
        lookups; subst; done.
      * cbn. split; [|split; [|done]]; lookups.
        rewrite Hq. by destruct kq.
Qed.

Lemma cyc_erase h q kq rest :
  cyc h ((q, kq) :: rest) → rest ≠ [] → cyc (unlinked h q) rest.
Proof.
  intros Hc Hrest. pose proof (cyc_head _ _ _ _ Hc) as Hq.
  destruct Hc as [Hnd [_ Hseg]]. unfold unlinked, next_of, prev_of.
  rewrite Hq, base_of_obj_of. cbn [prev next].
  rewrite fmap_cons in Hnd. apply NoDup_cons in Hnd as [Hq_nin Hnd].
  split; [done|].
  destruct rest as [|[a ka] rest]; [done|]. clear Hrest.
  rewrite fmap_cons in *. cbn [fst List.hd] in *.
  apply not_elem_of_cons in Hq_nin as [Hqa Hq_nin].
  apply NoDup_cons in Hnd as [Ha_nin Hnd].
  cbn [seg] in Hseg. destruct Hseg as [Ha Hseg].
  destruct (decide (rest = [])) as [->|Hne].
  - cbn in *. split; [|done]. lookups. rewrite Ha. by destruct ka.
  - destruct (exists_last Hne) as (rest1 & [z kz] & ->).
    rewrite fmap_app in *. cbn [fmap list_fmap fst] in *.
    rewrite (last_cons_snoc q), (last_cons_snoc a).
    apply seg_snoc in Hseg as [Hs1 Hz].
    apply NoDup_app in Hnd as (Hnd1 & Hdisj & _).
    rewrite not_elem_of_app in Hq_nin, Ha_nin.
    destruct Hq_nin as [Hq1 [Hqz _]%not_elem_of_cons],
             Ha_nin as [Ha1 [Haz _]%not_elem_of_cons].
    cbn [seg]. split.
    + lookups. rewrite Ha.
      assert (List.hd q (rest1.*1 ++ [z])
              = List.hd a (rest1 ++ [(z, kz)]).*1) as -> by by destruct rest1.
      by destruct ka.
    + apply seg_snoc. split.
      * eapply seg_frame; [|done]. intros b Hb.
        assert (b ≠ z) by (intros ->; by eapply Hdisj; [|left]).
        lookups; subst; done.
      * lookups. rewrite Hz. by destruct kz.
Qed.

Lemma chain_frame h h' it ns stop :
  (∀ a, a ∈ ns.*1 → h' !! a = h !! a) →
  chain h it ns stop → chain h' it ns stop.
Proof.
  revert it. induction ns as [|[a v] ns IH]; intros it Hf; [done|].
  cbn. intros (-> & Hne & b & Hb & Hc). do 2 (split; [done|]).
  exists b. split.
  - rewrite Hf; [done|]. cbn. left.
  - apply IH; [|done]. intros c Hc'. apply Hf. cbn. by right.
Qed.

Lemma seg_chain h prv (ns : list (addr * T)) stop :
  seg h prv (map (λ n, (n.1, Some n.2)) ns) stop →
  stop ∉ ns.*1 →
  chain h (List.hd stop (ns.*1)) ns stop.
Proof.
  revert prv. induction ns as [|[a v] ns IH]; intros prv; [done|].
  cbn. intros [Ha Hs] [Hne Hnin]%not_elem_of_cons.
  do 2 (split; [done|]). eexists. split; [done|]. cbn.
  assert ((map (λ n : addr * T, (n.1, Some n.2)) ns).*1 = ns.*1) as ->.
  { clear. induction ns as [|[] ns IH]; cbn; by f_equal. }
  by eapply IH.
Qed.

Lemma chain_walk h it ns stop fuel :
  chain h it ns stop → (length ns < fuel)%nat →
  walk fuel h stop it = Some ns.
Proof.
  revert it fuel. induction ns as [|[a v] ns IH]; intros it fuel.
  - cbn. intros -> Hf. destruct fuel; [lia|]. cbn.
    by rewrite decide_True.
  - cbn. intros (-> & Hne & b & Hb & Hc) Hf. destruct fuel; [lia|]. cbn.
    rewrite decide_False by done. rewrite Hb.
    rewrite (IH _ _ Hc) by lia. done.
Qed.

Lemma length_le_size h (l : list addr) :
  NoDup l → (∀ a, a ∈ l → is_Some (h !! a)) →
  (length l ≤ stdpp.base.size h)%nat.
Proof.
  intros Hnd Hin. rewrite <- (size_dom (D := gset addr)).
  rewrite <- (size_list_to_set (C := gset addr) l) by done.
  apply subseteq_size. intros a Ha%elem_of_list_to_set.
  by apply elem_of_dom, Hin.
Qed.

Lemma ring_of_fst {H} (l : List H) (ns : list (addr * T)) :
  (ring_of l ns).*1 = data l :: ns.*1.
Proof.
  unfold ring_of. cbn. f_equal. induction ns as [|[] ns IH]; cbn; by f_equal.
Qed.

Lemma cyc_chain {H} h (l : List H) ns :
  cyc h (ring_of l ns) → chain h (next_of h (data l)) ns (data l).
Proof.
  intros Hc. pose proof (cyc_head _ _ _ _ Hc) as Hd.
  destruct Hc as [Hnd [_ Hs]]. rewrite ring_of_fst in Hnd.
  apply NoDup_cons in Hnd as [Hnin _].
  unfold next_of. rewrite Hd. cbn.
  pose proof (ring_of_fst l ns) as Hf. unfold ring_of in Hf.
  cbn in Hf. injection Hf as ->.
  by eapply seg_chain.
Qed.

Lemma ring_of_app {H} (l : List H) (ns1 ns2 : list (addr * T)) :
  ring_of l (ns1 ++ ns2)
  = ring_of l ns1 ++ map (λ n, (n.1, Some n.2)) ns2.
Proof. unfold ring_of. by rewrite map_app. Qed.

Lemma last_elem_of {A} (l : list A) d : List.last l d ∈ d :: l.
Proof.
  revert d. induction l as [|x l IH]; intros d; [left|].
  rewrite last_cons_default. right. apply IH.
Qed.

Lemma cyc_prev_is_Some h pos kp rest :
  cyc h ((pos, kp) :: rest) → is_Some (h !! List.last (rest.*1) pos).
Proof.
  intros Hc. eapply cyc_is_Some; [done|]. rewrite fmap_cons.
  apply last_elem_of.
Qed.

Lemma cyc_turned {H} h (l : List H) (l1 l2 : list (addr * T)) :
  cyc h (ring_of l (l1 ++ l2)) ↔ cyc h (turned l l1 l2).
Proof.
  unfold turned. destruct l2 as [|n l2]; [by rewrite app_nil_r|].
  rewrite ring_of_app. split; apply cyc_rotate.
Qed.

Lemma turned_head {H} (l : List H) (l1 l2 : list (addr * T)) :
  ∃ kp rest, turned l l1 l2 = (List.hd (data l) (l2.*1), kp) :: rest.
Proof. unfold turned, ring_of. destruct l2 as [|[??] ?]; cbn; eauto. Qed.

(** The object under a position of the ring and its predecessor. *)
Lemma ring_pos {H} h (l : List H) (l1 l2 : list (addr * T)) :
  cyc h (ring_of l (l1 ++ l2)) →
  ∃ o, h !! List.hd (data l) (l2.*1) = Some o ∧
       is_Some (h !! prev (base_of o)).
Proof.
  intros Hc%cyc_turned.
  destruct (turned_head l l1 l2) as (kp & rest & Heq). rewrite Heq in Hc.
  pose proof (cyc_head _ _ _ _ Hc) as Hd. eexists. split; [done|].
  rewrite base_of_obj_of. cbn [prev]. by eapply cyc_prev_is_Some.
Qed.

Lemma ring_insert {H} h (l : List H) (l1 l2 : list (addr * T)) p k :
  cyc h (ring_of l (l1 ++ l2)) → h !! p = None →
  cyc (spliced h (List.hd (data l) (l2.*1)) p k)
      (ring_of l (l1 ++ (p, k) :: l2)).
Proof.
  intros Hc%cyc_turned Hp.
  destruct (turned_head l l1 l2) as (kp & rest & Heq). rewrite Heq in Hc.
  apply (cyc_insert _ _ _ _ p k) in Hc; [|done].
  rewrite app_comm_cons, <- Heq in Hc. clear Heq.
  unfold turned in Hc. destruct l2 as [|n l2].
  - by rewrite ring_of_app.
  - rewrite <- app_assoc in Hc. apply cyc_rotate in Hc.
    rewrite ring_of_app, map_cons. by rewrite <- app_assoc in Hc.
Qed.

Lemma ring_erase {H} h (l : List H) (l1 : list (addr * T)) q vq l2 :
  cyc h (ring_of l (l1 ++ (q, vq) :: l2)) →
  cyc (unlinked h q) (ring_of l (l1 ++ l2)) ∧
  ∃ b, h !! q = Some (Node b vq) ∧
       next b = List.hd (data l) (l2.*1) ∧
       is_Some (h !! next b) ∧ is_Some (h !! prev b).
Proof.
  intros Hc%cyc_turned. unfold turned in Hc.
  rewrite map_cons in Hc. cbn [fst snd] in Hc.
  rewrite <- app_comm_cons in Hc.
  pose proof (cyc_head _ _ _ _ Hc) as Hq.
  split.
  - apply cyc_erase in Hc;
      [|by intros [_ ?]%app_eq_nil].
    rewrite ring_of_app. by apply cyc_rotate.
  - eexists. split; [done|]. cbn [next prev].
    assert (∀ d, List.hd d (map (λ n : addr * T, (n.1, Some n.2)) l2
                             ++ ring_of l l1).*1
                 = List.hd (data l) (l2.*1)) as Hhd.
    { intros d. rewrite fmap_app, ring_of_fst. by destruct l2 as [|[??] ?]. }
    split; [apply Hhd|]. split.
    + eapply cyc_is_Some; [done|]. rewrite fmap_cons. right.
      rewrite fmap_app, ring_of_fst. destruct l2 as [|[??] ?]; cbn; left.
    + by eapply cyc_prev_is_Some.
Qed.
End RingFacts.

Lemma union_difference_fresh (L : gset Z) p :
  p ∉ L → (L ∪ {[p]}) ∖ {[p]} = L.
Proof.
  intros Hp. apply set_eq. intros x.
  rewrite elem_of_difference, elem_of_union, elem_of_singleton.
  split; [tauto|]. intros Hx. split; [tauto|]. by intros ->.
Qed.

Section Operations.
Context {T E H S : Type} `{!Element T E} `{!Allocator H S}
        `{!AllocatorLaws H S}.
Implicit Types (w : world T E S) (l : List H) (ns : list (addr * T)).

Lemma load_eval w a o : heap w !! a = Some o → load a w = Ret o w.
Proof. intros Ho. unfold load. by rewrite Ho. Qed.

Lemma get_prev_eval w a o :
  heap w !! a = Some o → get_prev a w = Ret (prev (base_of o)) w.
Proof. intros Ho. unfold get_prev, bind. by rewrite (load_eval _ _ _ Ho). Qed.

Lemma get_next_eval w a o :
  heap w !! a = Some o → get_next a w = Ret (next (base_of o)) w.
Proof. intros Ho. unfold get_next, bind. by rewrite (load_eval _ _ _ Ho). Qed.

Lemma insert_as_alter (h : gmap addr (object T)) a o f :
  h !! a = Some o → <[a := f o]> h = alter f a h.
Proof.
  intros Ho. apply map_eq. intros b.
  rewrite lookup_insert, lookup_alter. case_decide; [|done].
  subst. by rewrite Ho.
Qed.

Lemma set_next_eval w a v o :
  heap w !! a = Some o →
  set_next a v w = Ret tt (set_heap (link_next a v) w).
Proof.
  intros Ho. unfold set_next, bind. rewrite (load_eval _ _ _ Ho).
  unfold store, set_heap, link_next. do 2 f_equal.
  by apply (insert_as_alter _ _ _
              (λ o, with_base o (mkBase (prev (base_of o)) v))).
Qed.

Lemma set_prev_eval w a v o :
  heap w !! a = Some o →
  set_prev a v w = Ret tt (set_heap (link_prev a v) w).
Proof.
  intros Ho. unfold set_prev, bind. rewrite (load_eval _ _ _ Ho).
  unfold store, set_heap, link_prev. do 2 f_equal.
  by apply (insert_as_alter _ _ _
              (λ o, with_base o (mkBase v (next (base_of o))))).
Qed.

Lemma link_next_is_Some (h : gmap addr (object T)) a v b :
  is_Some (link_next a v h !! b) ↔ is_Some (h !! b).
Proof. unfold link_next. apply lookup_alter_is_Some. Qed.

Lemma link_prev_is_Some (h : gmap addr (object T)) a v b :
  is_Some (link_prev a v h !! b) ↔ is_Some (h !! b).
Proof. unfold link_prev. apply lookup_alter_is_Some. Qed.

(** [insert_with] when the allocation and the construction succeed. *)
Lemma insert_with_ok ctor l pos w p s' k e' o :
  allocate_node (alloc l) (astate w) = Ok p s' →
  ctor (estate w) = (Some k, e') →
  heap w !! pos = Some o →
  is_Some (heap w !! prev (base_of o)) →
  heap w !! Blk p = None →
  insert_with ctor l pos w =
    Ret (Blk p, set_sz l (wrap (sz l + 1)))
        (mkWorld (spliced (heap w) pos (Blk p) k) s' e' (live w ∪ {[p]})).
Proof.
  intros Ha Hc Ho [oq Hq] Hp.
  assert (Blk p ≠ pos) as Hne1 by congruence.
  assert (Blk p ≠ prev (base_of o)) as Hne2 by congruence.
  unfold insert_with, bind at 1, NodeTraits_allocate. rewrite Ha.
  unfold bind at 1, try_catch, bind at 1.
  erewrite get_prev_eval by (cbn; done).
  unfold NodeTraits_construct_with. cbn [estate heap astate live]. rewrite Hc.
  unfold bind at 1. erewrite get_prev_eval
    by (cbn; rewrite lookup_insert_ne by done; done).
  unfold bind at 1.
  erewrite set_next_eval
    by (cbn; rewrite lookup_insert_ne by done; done).
  unfold bind at 1.
  assert (is_Some (link_next (prev (base_of o)) (Blk p)
            (<[Blk p := Node (mkBase (prev (base_of o)) pos) k]> (heap w))
            !! pos)) as [o' Ho'].
  { apply link_next_is_Some. rewrite lookup_insert_ne by done. eauto. }
  erewrite set_prev_eval by (cbn; done).
  unfold ret, set_heap, spliced, prev_of. cbn. by rewrite Ho.
Qed.

Lemma insert_with_alloc_fail ctor l pos w s' :
  allocate_node (alloc l) (astate w) = Throw s' →
  insert_with ctor l pos w = Raise (mkWorld (heap w) s' (estate w) (live w)).
Proof.
  intros Ha. unfold insert_with, bind at 1, NodeTraits_allocate. by rewrite Ha.
Qed.

Lemma insert_with_construct_fail ctor l pos w p s' e' o s'' :
  allocate_node (alloc l) (astate w) = Ok p s' →
  ctor (estate w) = (None, e') →
  heap w !! pos = Some o →
  deallocate_node (alloc l) p s' = Ok tt s'' →
  insert_with ctor l pos w =
    Raise (mkWorld (heap w) s'' e' ((live w ∪ {[p]}) ∖ {[p]})).
Proof.
  intros Ha Hc Ho Hd.
  unfold insert_with, bind at 1, NodeTraits_allocate. rewrite Ha.
  unfold bind at 1, try_catch, bind at 1.
  erewrite get_prev_eval by (cbn; done).
  unfold NodeTraits_construct_with. cbn [estate heap astate live]. rewrite Hc.
  unfold bind, NodeTraits_deallocate. cbn [estate heap astate live].
  rewrite decide_True by by apply elem_of_union_r, elem_of_singleton. by rewrite Hd.
Qed.

Lemma blocks_le_size (L : gset Z) (l : list addr) :
  NoDup l → (∀ a, a ∈ l → ∃ p, a = Blk p ∧ p ∈ L) →
  (length l ≤ stdpp.base.size L)%nat.
Proof.
  intros Hnd Hin.
  rewrite <- (length_fmap ptr_of l).
  rewrite <- (size_list_to_set (C := gset Z) (ptr_of <$> l)).
  - apply subseteq_size. intros p Hp%elem_of_list_to_set.
    apply list_elem_of_fmap in Hp as (a & -> & Ha).
    by destruct (Hin a Ha) as (p & -> & Hp).
  - apply NoDup_fmap_2_strong; [|done].
    intros a b Ha Hb Heq.
    destruct (Hin a Ha) as (p & -> & _), (Hin b Hb) as (p' & -> & _).
    cbn in Heq. by subst.
Qed.

Lemma is_list_length w l ns :
  wf_world w → is_list w l ns →
  Z.of_nat (length ns) < 2 ^ 64.
Proof.
  intros [Hinv _] (Hc & _ & Hblk & _).
  pose proof (alloc_inv_bound _ _ Hinv) as Hb.
  destruct Hc as [Hnd _]. rewrite ring_of_fst in Hnd.
  apply NoDup_cons in Hnd as [_ Hnd].
  pose proof (blocks_le_size (live w) (ns.*1) Hnd Hblk) as Hle.
  rewrite length_fmap in Hle. lia.
Qed.

(** The three ways [insert_with] ends on a well-formed list: with the node
    spliced in before the position, or with an exception from the
    allocator or from the element's constructor and nothing changed. *)
Lemma insert_with_cases ctor l (l1 l2 : list (addr * T)) w :
  wf_world w → is_list w l (l1 ++ l2) →
  match insert_with ctor l (List.hd (data l) (l2.*1)) w with
  | Ret r w' =>
      ∃ p k,
        r = (Blk p, set_sz l (sz l + 1)) ∧
        heap w !! Blk p = None ∧ (p ∉ live w) ∧
        ctor (estate w) = (Some k, estate w') ∧
        heap w' = spliced (heap w) (List.hd (data l) (l2.*1)) (Blk p) k ∧
        live w' = live w ∪ {[p]} ∧
        wf_world w' ∧
        is_list w' r.2 (l1 ++ (Blk p, k) :: l2)
  | Raise w' => heap w' = heap w ∧ live w' = live w ∧ wf_world w'
  | _ => False
  end.
Proof.
  intros Hwf Hl. pose proof Hwf as [Hinv Hheap].
  pose proof Hl as (Hcyc & Hsz & Hblk & Hh).
  pose proof (allocate_node_spec (alloc l) (astate w) (live w) Hh Hinv)
    as Ha.
  destruct (allocate_node (alloc l) (astate w)) as [p s'|s'|] eqn:Hal;
    [|by rewrite (insert_with_alloc_fail ctor _ _ _ _ Hal)|done].
  destruct Ha as [Hfresh Hinv'].
  assert (heap w !! Blk p = None) as Hp.
  { apply eq_None_not_Some. intros Hs. by apply Hfresh, Hheap. }
  destruct (ring_pos _ _ _ _ Hcyc) as (o & Ho & Hq).
  destruct (ctor (estate w)) as [[k|] e'] eqn:Hc.
  - rewrite (insert_with_ok ctor _ _ _ _ _ _ _ _ Hal Hc Ho Hq Hp).
    pose proof (alloc_inv_bound _ _ Hinv') as Hb.
    rewrite size_union in Hb by by apply disjoint_singleton_r.
    rewrite size_singleton in Hb.
    pose proof Hcyc as [Hnd _]. rewrite ring_of_fst in Hnd.
    apply NoDup_cons in Hnd as [_ Hnd].
    pose proof (blocks_le_size (live w) ((l1 ++ l2).*1) Hnd Hblk) as Hle.
    rewrite length_fmap in Hle.
    rewrite wrap_small by lia.
    exists p, k. cbn [heap live estate astate snd].
    do 6 (split; [done|]). split; [split|].
    + done.
    + cbn [heap live]. intros p' Hp'.
      unfold spliced in Hp'.
      apply link_prev_is_Some, link_next_is_Some in Hp'.
      rewrite lookup_insert in Hp'. case_decide; simplify_eq.
      * by apply elem_of_union_r, elem_of_singleton.
      * apply elem_of_union_l. by apply Hheap.
    + split; [by apply (ring_insert _ l)|]. cbn [sz set_sz alloc live].
      split; [|split; [|done]].
      * rewrite Hsz, !length_app. cbn [length]. lia.
      * intros a Ha. rewrite fmap_app, fmap_cons in Ha. cbn [fst] in Ha.
        assert (a = Blk p ∨ a ∈ (l1 ++ l2).*1) as [->|Ha'].
        { rewrite fmap_app, elem_of_app.
          rewrite elem_of_app, elem_of_cons in Ha. tauto. }
        -- exists p. split; [done|]. by apply elem_of_union_r, elem_of_singleton.
        -- destruct (Hblk a Ha') as (p' & -> & ?). exists p'.
           split; [done|]. by apply elem_of_union_l.
  - destruct (deallocate_node_spec (alloc l) s' _ p Hh Hinv')
      as (s'' & Hd & Hinv''); [set_solver|].
    rewrite (insert_with_construct_fail ctor _ _ _ _ _ _ _ _ Hal Hc Ho Hd).
    rewrite (union_difference_fresh _ _ Hfresh) in *. done.
Qed.

Lemma insert_ok l pos v w p s' k e' o :
  allocate_node (alloc l) (astate w) = Ok p s' →
  construct_copy v (estate w) = (Some k, e') →
  heap w !! pos = Some o →
  is_Some (heap w !! prev (base_of o)) →
  heap w !! Blk p = None →
  insert l pos v w =
    Ret (Blk p, set_sz l (wrap (sz l + 1)))
        (mkWorld (spliced (heap w) pos (Blk p) k) s' e' (live w ∪ {[p]})).
Proof. apply (insert_with_ok (construct_copy v)). Qed.

Lemma insert_construct_fail l pos v w p s' e' o s'' :
  allocate_node (alloc l) (astate w) = Ok p s' →
  construct_copy v (estate w) = (None, e') →
  heap w !! pos = Some o →
  deallocate_node (alloc l) p s' = Ok tt s'' →
  insert l pos v w =
    Raise (mkWorld (heap w) s'' e' ((live w ∪ {[p]}) ∖ {[p]})).
Proof. apply (insert_with_construct_fail (construct_copy v)). Qed.

(** The three ways [insert] ends on a well-formed list. *)
Lemma insert_cases l (l1 l2 : list (addr * T)) v w :
  wf_world w → is_list w l (l1 ++ l2) →
  match insert l (List.hd (data l) (l2.*1)) v w with
  | Ret r w' =>
      ∃ p k,
        r = (Blk p, set_sz l (sz l + 1)) ∧
        heap w !! Blk p = None ∧ (p ∉ live w) ∧
        construct_copy v (estate w) = (Some k, estate w') ∧
        heap w' = spliced (heap w) (List.hd (data l) (l2.*1)) (Blk p) k ∧
        live w' = live w ∪ {[p]} ∧
        wf_world w' ∧
        is_list w' r.2 (l1 ++ (Blk p, k) :: l2)
  | Raise w' => heap w' = heap w ∧ live w' = live w ∧ wf_world w'
  | _ => False
  end.
Proof. apply (insert_with_cases (construct_copy v)). Qed.

(** [emplace_back] is the same splice at [end()] around the default
    constructor. *)
Lemma emplace_back_insert_with l w :
  emplace_back l w = drop_iter (insert_with construct_default l (data l) w).
Proof.
  unfold emplace_back, insert_with, bind.
  unfold NodeTraits_construct_default, NodeTraits_construct_with.
  destruct (NodeTraits_allocate (alloc l) w) as [it w1| | |]; try done.
  destruct (try_catch _ _ w1) as [[] w2| | |]; try done.
  destruct (get_prev (data l) w2) as [p w3| | |]; try done.
  destruct (set_next p (Blk it) w3) as [[] w4| | |]; try done.
  destruct (set_prev (data l) (Blk it) w4) as [[] w5| | |]; reflexivity.
Qed.
End Operations.

Section Removal.
Context {T E H S : Type} `{!Element T E} `{!Allocator H S}
        `{!AllocatorLaws H S}.
Implicit Types (w : world T E S) (l : List H) (ns : list (addr * T)).

Lemma link_prev_lookup (h : gmap addr (object T)) a v b o :
  h !! b = Some o →
  ∃ o', link_prev a v h !! b = Some o' ∧
        (∀ bn k, o = Node bn k → ∃ bn', o' = Node bn' k) ∧
        next (base_of o') = next (base_of o) ∧
        prev (base_of o') = if decide (a = b) then v else prev (base_of o).
Proof.
  intros Ho. unfold link_prev. rewrite lookup_alter.
  case_decide; subst; rewrite ?Ho; cbn; eexists; (split; [done|]).
  - destruct o; cbn; (split; [|done]); intros ?? [=]; subst; eauto.
  - eauto.
Qed.

Lemma link_next_lookup (h : gmap addr (object T)) a v b o :
  h !! b = Some o →
  ∃ o', link_next a v h !! b = Some o' ∧
        (∀ bn k, o = Node bn k → ∃ bn', o' = Node bn' k) ∧
        prev (base_of o') = prev (base_of o) ∧
        next (base_of o') = if decide (a = b) then v else next (base_of o).
Proof.
  intros Ho. unfold link_next. rewrite lookup_alter.
  case_decide; subst; rewrite ?Ho; cbn; eexists; (split; [done|]).
  - destruct o; cbn; (split; [|done]); intros ?? [=]; subst; eauto.
  - eauto.
Qed.

(** [erase] of a node whose neighbours exist. *)
Lemma erase_ok l q w b vq pq s'' :
  heap w !! q = Some (Node b vq) →
  is_Some (heap w !! next b) → is_Some (heap w !! prev b) →
  q = Blk pq → pq ∈ live w →
  deallocate_node (alloc l) pq (astate w) = Ok tt s'' →
  erase l q w =
    Ret (next b, set_sz l (wrap (sz l - 1)))
        (mkWorld (unlinked (heap w) q) s'' (destruct vq (estate w))
           (live w ∖ {[pq]})).
Proof.
  intros Hq [oi Hi] [op Hp] -> Hlive Hd.
  unfold erase, bind at 1. rewrite (get_next_eval _ _ _ Hq).
  unfold bind at 1. rewrite (get_prev_eval _ _ _ Hq).
  unfold bind at 1. rewrite (set_prev_eval _ _ _ _ Hi). cbn [base_of].
  destruct (link_prev_lookup (heap w) (next b) (prev b) _ _ Hq)
    as (oq1 & Hq1 & Hk1 & Hn1 & Hp1).
  unfold bind at 1. erewrite get_prev_eval by (cbn; done).
  assert (prev (base_of oq1) = prev b) as ->.
  { rewrite Hp1. by case_decide. }
  destruct (link_prev_lookup (heap w) (next b) (prev b) _ _ Hp)
    as (op1 & Hpp1 & _).
  unfold bind at 1. erewrite set_next_eval by (cbn; done).
  destruct (link_next_lookup _ (prev b) (next b) _ _ Hq1)
    as (oq2 & Hq2 & Hk2 & _).
  destruct (Hk1 _ _ eq_refl) as [b1 ->].
  destruct (Hk2 _ _ eq_refl) as [b2 ->].
  unfold bind at 1, NodeTraits_destroy. cbn [heap set_heap]. rewrite Hq2.
  unfold bind at 1, NodeTraits_deallocate.
  cbn [heap set_heap live astate estate].
  rewrite decide_True by done. rewrite Hd.
  unfold ret, unlinked, next_of, prev_of. by rewrite Hq.
Qed.

Lemma difference_singleton_elem (L : gset Z) p q :
  q ∈ L ∖ {[p]} ↔ q ∈ L ∧ q ≠ p.
Proof. by rewrite elem_of_difference, elem_of_singleton. Qed.

Lemma unlinked_is_Some (h : gmap addr (object T)) q a :
  is_Some (unlinked h q !! a) ↔ a ≠ q ∧ is_Some (h !! a).
Proof.
  unfold unlinked. rewrite lookup_delete_is_Some.
  rewrite link_next_is_Some, link_prev_is_Some.
  split; intros [? ?]; (split; [congruence|done]).
Qed.

Lemma erase_cases l (l1 l2 : list (addr * T)) q vq w :
  wf_world w → is_list w l (l1 ++ (q, vq) :: l2) →
  ∃ w' pq,
    erase l q w
    = Ret (List.hd (data l) (l2.*1), set_sz l (sz l - 1)) w' ∧
    q = Blk pq ∧
    heap w' = unlinked (heap w) q ∧
    live w' = live w ∖ {[pq]} ∧
    estate w' = destruct vq (estate w) ∧
    wf_world w' ∧
    is_list w' (set_sz l (sz l - 1)) (l1 ++ l2).
Proof.
  intros Hwf Hl. pose proof Hwf as [Hinv Hheap].
  pose proof Hl as (Hcyc & Hsz & Hblk & Hh).
  pose proof (is_list_length _ _ _ Hwf Hl) as Hlen.
  destruct (ring_erase _ _ _ _ _ _ Hcyc) as (Hcyc' & b & Hq & Hn & Hin & Hip).
  destruct (Hblk q) as (pq & -> & Hpq).
  { rewrite fmap_app, fmap_cons, elem_of_app, elem_of_cons. cbn. tauto. }
  destruct (deallocate_node_spec (alloc l) _ _ pq Hh Hinv Hpq)
    as (s'' & Hd & Hinv').
  rewrite (erase_ok _ _ _ _ _ _ _ Hq Hin Hip eq_refl Hpq Hd).
  rewrite length_app in Hlen, Hsz. cbn [length] in Hlen, Hsz.
  rewrite Hn, wrap_small by lia.
  eexists _, pq. do 5 (split; [done|]). cbn [heap live astate estate].
  pose proof Hcyc as [Hnd _]. rewrite ring_of_fst in Hnd.
  apply NoDup_cons in Hnd as [_ Hnd].
  rewrite fmap_app, fmap_cons in Hnd. cbn [fst] in Hnd.
  apply NoDup_app in Hnd as (_ & Hq1 & [Hq2 _]%NoDup_cons).
  split; [split|split; [|split; [|split]]]; cbn [heap live astate sz set_sz alloc].
  - done.
  - intros p [Hne Hs]%unlinked_is_Some. apply difference_singleton_elem.
    split; [by apply Hheap|congruence].
  - done.
  - rewrite Hsz, length_app. lia.
  - intros a Ha. destruct (Hblk a) as (p & -> & Hp).
    { rewrite fmap_app, fmap_cons, elem_of_app, elem_of_cons.
      rewrite fmap_app, elem_of_app in Ha. tauto. }
    exists p. split; [done|]. apply difference_singleton_elem.
    split; [done|]. intros ->.
    rewrite fmap_app, elem_of_app in Ha. destruct Ha as [Ha|Ha].
    + by eapply Hq1; [|left].
    + done.
  - done.
Qed.

(** [destroy_loop] over a chain of allocated nodes: every node is destroyed
    and deallocated, and nothing else changes. *)
Lemma destroy_loop_spec l ns : ∀ it w fuel,
  chain (heap w) it ns (data l) → NoDup (ns.*1) →
  (∀ a, a ∈ ns.*1 → ∃ p, a = Blk p ∧ p ∈ live w) →
  handle_ok (alloc l) → alloc_inv (astate w) (live w) →
  (length ns < fuel)%nat →
  ∃ w',
    destroy_loop fuel l it w = Ret tt w' ∧
    (∀ a, heap w' !! a = if decide (a ∈ ns.*1) then None else heap w !! a) ∧
    (∀ p, p ∈ live w' ↔ p ∈ live w ∧ Blk p ∉ ns.*1) ∧
    alloc_inv (astate w') (live w') ∧
    estate w' = foldl (λ e n, destruct n.2 e) (estate w) ns.
Proof.
  induction ns as [|[a v] ns IH]; intros it w fuel Hc Hnd Hblk Hh Hinv Hf.
  - cbn in Hc. subst. destruct fuel; [cbn in Hf; lia|]. cbn.
    rewrite decide_True by done. eexists. split; [done|].
    split; [|split; [|done]].
    + intros a. rewrite decide_False; [done|]. apply not_elem_of_nil.
    + intros p. split; [|tauto]. split; [done|]. apply not_elem_of_nil.
  - cbn in Hc. destruct Hc as (-> & Hne & b & Hb & Hc).
    destruct fuel as [|fuel]; [cbn in Hf; lia|]. cbn [destroy_loop].
    rewrite decide_False by done.
    rewrite fmap_cons in Hnd, Hblk. cbn [fst] in Hnd, Hblk.
    apply NoDup_cons in Hnd as [Hnin Hnd].
    destruct (Hblk a) as (p & -> & Hp); [left|].
    destruct (deallocate_node_spec (alloc l) _ _ p Hh Hinv Hp)
      as (s' & Hd & Hinv').
    unfold bind at 1. rewrite (get_next_eval _ _ _ Hb).
    unfold bind at 1, NodeTraits_destroy. rewrite Hb.
    unfold bind at 1, NodeTraits_deallocate.
    cbn [heap live astate estate base_of].
    rewrite decide_True by done. rewrite Hd.
    edestruct (IH (next b)
                 (mkWorld (delete (Blk p) (heap w)) s'
                    (destruct v (estate w)) (live w ∖ {[p]})) fuel)
      as (w' & Hrun & Hheap & Hlive & Hinv'' & Hest);
      cbn [heap live astate estate]; try done.
    { eapply chain_frame; [|done]. intros c Hc'.
      apply lookup_delete_ne. by intros <-. }
    { intros c Hc'. destruct (Hblk c) as (p' & -> & Hp'); [by right|].
      exists p'. split; [done|]. apply difference_singleton_elem.
      split; [done|]. by intros ->. }
    { cbn in Hf. lia. }
    cbn [heap live astate estate] in Hheap, Hlive, Hest.
    exists w'. split; [done|]. split; [|split; [|done]].
    + intros c. rewrite Hheap, fmap_cons. cbn [fst].
      destruct (decide (c = Blk p)) as [->|Hc'].
      * rewrite (decide_False (P := Blk p ∈ ns.*1)) by done.
        rewrite lookup_delete_eq. rewrite decide_True; [done|left].
      * rewrite lookup_delete_ne by done.
        destruct (decide (c ∈ ns.*1)).
        -- rewrite decide_True; [done|by right].
        -- rewrite decide_False; [done|].
           by intros [?|?]%elem_of_cons.
    + intros q. rewrite Hlive, difference_singleton_elem, fmap_cons.
      cbn [fst]. rewrite not_elem_of_cons.
      split; [intros [[? ?] ?]|intros [? [? ?]]]; repeat split;
        try done; congruence.
Qed.

Lemma ring_fuel (h : gmap addr (object T)) l ns :
  cyc h (ring_of l ns) → (length ns < Datatypes.S (stdpp.base.size h))%nat.
Proof.
  intros Hc. pose proof Hc as [Hnd _].
  pose proof (length_le_size h _ Hnd (λ a, cyc_is_Some _ _ a Hc)) as Hle.
  rewrite ring_of_fst in Hle. cbn [length] in Hle.
  rewrite length_fmap in Hle. lia.
Qed.

(** On a well-formed list the walk from [begin()] to [end()] meets exactly
    the nodes of the list. *)
Lemma is_list_nodes w l ns : is_list w l ns → nodes w l = Some ns.
Proof.
  intros (Hc & _). unfold nodes.
  pose proof (cyc_head _ _ _ _ Hc) as Hd. rewrite Hd.
  pose proof (cyc_chain _ _ _ Hc) as Hch. unfold next_of in Hch.
  rewrite Hd in Hch. apply chain_walk; [done|]. by eapply ring_fuel.
Qed.

Lemma destroy_spec l ns w :
  wf_world w → is_list w l ns →
  ∃ w',
    destroy l w = Ret tt w' ∧
    (∀ a, heap w' !! a = if decide (a ∈ ns.*1) then None else heap w !! a) ∧
    (∀ p, p ∈ live w' ↔ p ∈ live w ∧ Blk p ∉ ns.*1) ∧
    wf_world w' ∧
    estate w' = foldl (λ e n, destruct n.2 e) (estate w) ns.
Proof.
  intros [Hinv Hheap] (Hc & _ & Hblk & Hh).
  pose proof (cyc_head _ _ _ _ Hc) as Hd.
  pose proof (cyc_chain _ _ _ Hc) as Hch. unfold next_of in Hch.
  rewrite Hd in Hch.
  pose proof Hc as [Hnd _]. rewrite ring_of_fst in Hnd.
  apply NoDup_cons in Hnd as [_ Hnd].
  unfold destroy, bind. rewrite (get_next_eval _ _ _ Hd).
  destruct (destroy_loop_spec l ns _ w (Datatypes.S (stdpp.base.size (heap w)))
              Hch Hnd Hblk Hh Hinv (ring_fuel _ _ _ Hc))
    as (w' & Hrun & Hheap' & Hlive' & Hinv' & Hest).
  exists w'. do 3 (split; [done|]). split; [|done]. split; [done|].
  intros p Hp. rewrite Hheap' in Hp. case_decide; [by destruct Hp|].
  apply Hlive'. split; [by apply Hheap|done].
Qed.

Lemma cyc_singleton (h : gmap addr (object T)) s :
  h !! s = Some (Base (mkBase s s)) → cyc h [(s, None)].
Proof.
  intros Hs. split; [apply NoDup_singleton|]. cbn. by rewrite Hs.
Qed.

Lemma clear_spec l ns w :
  wf_world w → is_list w l ns →
  ∃ w',
    clear l w = Ret (set_sz l 0) w' ∧
    (∀ p, p ∈ live w' ↔ p ∈ live w ∧ Blk p ∉ ns.*1) ∧
    wf_world w' ∧ is_list w' (set_sz l 0) [].
Proof.
  intros Hwf Hl.
  destruct (destroy_spec _ _ _ Hwf Hl) as (w1 & Hrun & Hheap & Hlive & Hwf1 & _).
  pose proof Hl as (Hc & _ & _ & Hh).
  pose proof (cyc_head _ _ _ _ Hc) as Hd.
  pose proof Hc as [Hnd _]. rewrite ring_of_fst in Hnd.
  apply NoDup_cons in Hnd as [Hnin _].
  assert (heap w1 !! data l = heap w !! data l) as Hd1.
  { rewrite Hheap. by rewrite decide_False. }
  rewrite Hd in Hd1.
  unfold clear, bind at 1. rewrite Hrun.
  unfold bind at 1. rewrite (set_next_eval _ _ _ _ Hd1).
  destruct (link_next_lookup _ (data l) (data l) _ _ Hd1)
    as (o2 & Ho2 & _ & _ & Hn2).
  unfold bind at 1. erewrite set_prev_eval by (cbn; done).
  unfold ret. eexists. split; [done|]. cbn [heap live astate set_heap].
  destruct Hwf1 as [Hinv1 Hheap1].
  split; [done|]. split; [split; [done|]|].
  - cbn [heap live]. intros p Hp.
    apply link_prev_is_Some, link_next_is_Some in Hp. by apply Hheap1.
  - split; [|by repeat split; cbn; try apply not_elem_of_nil; try done;
               intros ? []%elem_of_nil].
    apply cyc_singleton. cbn [heap set_heap data set_sz].
    unfold link_prev, link_next. rewrite !lookup_alter_eq, Hd1. done.
Qed.
End Removal.


Section Iterators.
Context {T E H S : Type} `{!Element T E} `{!Allocator H S}
        `{!AllocatorLaws H S}.
Implicit Types (w : world T E S) (ns : list (addr * T)).

Lemma is_list_ext w w' (l : List H) ns :
  heap w' = heap w → live w' = live w → is_list w l ns → is_list w' l ns.
Proof. unfold is_list. by intros -> ->. Qed.

Lemma is_list_set_sz w (l : List H) ns n m :
  is_list w (set_sz l n) ns → n = m → is_list w (set_sz l m) ns.
Proof. by intros ? ->. Qed.

Lemma map_node_fst (ns : list (addr * T)) :
  (map (λ n : addr * T, (n.1, Some n.2)) ns).*1 = ns.*1.
Proof. induction ns as [|[] ns IH]; cbn; by f_equal. Qed.

(** The link back from a position of the ring. *)
Lemma ring_prev (h : gmap addr (object T)) (l : List H) (l1 l2 : list (addr * T)) :
  cyc h (ring_of l (l1 ++ l2)) →
  prev_of h (List.hd (data l) (l2.*1)) = List.last (l1.*1) (data l).
Proof.
  intros Hc%cyc_turned. unfold turned in Hc. unfold prev_of.
  destruct l2 as [|[a v] l2]; cbn [fmap list_fmap fst List.hd].
  - unfold ring_of in Hc. rewrite (cyc_head _ _ _ _ Hc), base_of_obj_of.
    cbn. by rewrite map_node_fst.
  - cbn [map app fst snd] in Hc.
    rewrite (cyc_head _ _ _ _ Hc), base_of_obj_of.
    cbn [prev]. unfold ring_of.
    by rewrite fmap_app, fmap_cons, last_app_cons, map_node_fst.
Qed.

(** The link forward from a node of the ring, and its key. *)
Lemma ring_node (h : gmap addr (object T)) (l : List H) (l1 : list (addr * T)) q vq l2 :
  cyc h (ring_of l (l1 ++ (q, vq) :: l2)) →
  ∃ b, h !! q = Some (Node b vq) ∧ next b = List.hd (data l) (l2.*1).
Proof. intros (_ & b & ? & ? & _)%ring_erase. eauto. Qed.


Lemma push_back_insert (l : List H) v w :
  push_back l v w = drop_iter (insert l (data l) v w).
Proof. unfold push_back, bind, end_, ret, drop_iter. by case_match. Qed.

Lemma begin_eval w (l : List H) ns :
  is_list w l ns → begin l w = Ret (List.hd (data l) (ns.*1)) w.
Proof.
  intros (Hc & _). unfold begin.
  rewrite (get_next_eval _ _ _ (cyc_head _ _ _ _ Hc)), base_of_obj_of.
  cbn [next]. by rewrite map_node_fst.
Qed.

Lemma push_front_insert (l : List H) ns v w :
  is_list w l ns →
  push_front l v w = drop_iter (insert l (List.hd (data l) (ns.*1)) v w).
Proof.
  intros Hl. unfold push_front, bind at 1. rewrite (begin_eval _ _ _ Hl).
  unfold bind, ret, drop_iter. by case_match.
Qed.

(** C5: [insert] before a position of a well-formed list, once the node is
    allocated.  If the construction of the element throws, the node's
    memory is deallocated, the exception propagates, and the heap, the
    allocated blocks and the list object are as before the call; if it
    succeeds, the heap changes by the new node and the two links around it
    (see [spliced]), the list gains the node before the position, and [sz]
    grows by one.  [push_back] and [push_front] are this [insert] at
    [end()] and at [begin()]. *)
Theorem insert_atomic (l : List H) (l1 l2 : list (addr * T)) v w p s' :
  wf_world w → is_list w l (l1 ++ l2) →
  allocate_node (alloc l) (astate w) = Ok p s' →
  let pos := List.hd (data l) (l2.*1) in
  match construct_copy v (estate w) with
  | (None, e') =>
      ∃ s'', deallocate_node (alloc l) p s' = Ok tt s'' ∧
             insert l pos v w = Raise (mkWorld (heap w) s'' e' (live w)) ∧
             is_list (mkWorld (heap w) s'' e' (live w)) l (l1 ++ l2)
  | (Some k, e') =>
      let w' := mkWorld (spliced (heap w) pos (Blk p) k) s' e'
                  (live w ∪ {[p]}) in
      heap w !! Blk p = None ∧
      insert l pos v w = Ret (Blk p, set_sz l (sz l + 1)) w' ∧
      is_list w' (set_sz l (sz l + 1)) (l1 ++ (Blk p, k) :: l2)
  end ∧
  push_back l v w = drop_iter (insert l (data l) v w) ∧
  push_front l v w
  = drop_iter (insert l (List.hd (data l) ((l1 ++ l2).*1)) v w).
Proof.
  intros Hwf Hl Hal. cbv zeta. split;
    [|split; [apply push_back_insert|by apply push_front_insert]].
  pose proof (insert_cases l l1 l2 v w Hwf Hl) as Hcases.
  pose proof Hwf as [Hinv Hheap]. pose proof Hl as (Hcyc & _ & _ & Hh).
  pose proof (allocate_node_spec (alloc l) (astate w) (live w) Hh Hinv)
    as Ha. rewrite Hal in Ha. destruct Ha as [Hfresh Hinv'].
  destruct (ring_pos _ _ _ _ Hcyc) as (o & Ho & Hq).
  assert (heap w !! Blk p = None) as Hp.
  { apply eq_None_not_Some. intros Hs. by apply Hfresh, Hheap. }
  destruct (construct_copy v (estate w)) as [[k|] e'] eqn:Hc.
  - rewrite (insert_ok _ _ _ _ _ _ _ _ _ Hal Hc Ho Hq Hp) in Hcases.
    destruct Hcases as (p' & k' & [= <- Hsz] & _ & _ & [= <-] & _ & _ & _ & Hl').
    split; [done|]. cbn [snd] in Hl'.
    rewrite (insert_ok _ _ _ _ _ _ _ _ _ Hal Hc Ho Hq Hp).
    rewrite Hsz in *. done.
  - destruct (deallocate_node_spec (alloc l) s' _ p Hh Hinv')
      as (s'' & Hd & _); [by apply elem_of_union_r, elem_of_singleton|].
    exists s''. split; [done|].
    rewrite (insert_construct_fail _ _ _ _ _ _ _ _ _ Hal Hc Ho Hd).
    rewrite (union_difference_fresh _ _ Hfresh).
    split; [done|]. by eapply is_list_ext.
Qed.

(** C9: a successful [insert] returns an iterator to the node it created:
    no object was at that address before, dereferencing the iterator yields
    the element constructed from [value], incrementing it reaches the
    position, and decrementing the position reaches it. *)
Theorem insert_returns_new_node (l : List H) (l1 l2 : list (addr * T)) v w r w' :
  wf_world w → is_list w l (l1 ++ l2) →
  let pos := List.hd (data l) (l2.*1) in
  insert l pos v w = Ret r w' →
  ∃ k,
    construct_copy v (estate w) = (Some k, estate w') ∧
    heap w !! r.1 = None ∧
    iter_deref r.1 w' = Ret k w' ∧
    iter_incr r.1 w' = Ret pos w' ∧
    iter_decr pos w' = Ret r.1 w' ∧
    nodes w' r.2 = Some (l1 ++ (r.1, k) :: l2).
Proof.
  intros Hwf Hl pos Hrun. subst pos.
  pose proof (insert_cases l l1 l2 v w Hwf Hl) as Hcases.
  rewrite Hrun in Hcases.
  destruct Hcases as (p & k & -> & Hp & _ & Hc & _ & _ & _ & Hl').
  cbn [fst snd] in *. exists k. do 2 (split; [done|]).
  pose proof Hl' as (Hcyc' & _).
  destruct (ring_node _ _ _ _ _ _ Hcyc') as (b & Hb & Hn).
  pose proof (ring_prev (heap w') (set_sz l (sz l + 1))
                (l1 ++ [(Blk p, k)]) l2) as Hprev.
  rewrite <- app_assoc in Hprev. specialize (Hprev Hcyc').
  rewrite fmap_app in Hprev.
  change ([(Blk p, k)].*1) with [Blk p] in Hprev.
  rewrite last_snoc in Hprev. cbn [data set_sz] in Hprev, Hn.
  destruct (ring_pos _ _ _ _ Hcyc') as (o & Ho & _).
  cbn [fmap list_fmap List.hd fst] in Ho.
  split; [|split; [|split]].
  - unfold iter_deref, get_key, bind. by rewrite (load_eval _ _ _ Hb).
  - unfold iter_incr. rewrite (get_next_eval _ _ _ Hb). by rewrite <- Hn.
  - unfold iter_decr. unfold prev_of in Hprev.
    destruct (heap w' !! List.hd (data l) (l2.*1)) as [opos|] eqn:Hpos.
    + rewrite (get_prev_eval _ _ _ Hpos). by rewrite Hprev.
    + exfalso. destruct (ring_pos (heap w') (set_sz l (sz l + 1))
                           (l1 ++ [(Blk p, k)]) l2) as (o' & Ho' & _).
      { by rewrite <- app_assoc. }
      cbn [data set_sz] in Ho'. congruence.
  - by apply is_list_nodes.
Qed.

Lemma bind_drop_iter (m : M (addr * List H)) w :
  bind m (λ r, ret r.2) w = drop_iter (m w).
Proof. unfold bind, ret, drop_iter. by case_match. Qed.

Lemma elem_of_fst_split ns (a : addr) :
  a ∈ ns.*1 → ∃ l1 v l2, ns = l1 ++ (a, v) :: l2.
Proof.
  intros ([a' v] & -> & Hin)%list_elem_of_fmap.
  apply list_elem_of_split in Hin as (l1 & l2 & ->). eauto.
Qed.

Lemma insert_preserves (l : List H) (l1 l2 : list (addr * T)) v w :
  wf_world w → is_list w l (l1 ++ l2) →
  match drop_iter (insert l (List.hd (data l) (l2.*1)) v w) with
  | Ret l' w' => wf_world w' ∧ ∃ ns', is_list w' l' ns'
  | Raise w' => wf_world w' ∧ is_list w' l (l1 ++ l2)
  | _ => False
  end.
Proof.
  intros Hwf Hl. pose proof (insert_cases l l1 l2 v w Hwf Hl) as Hcases.
  destruct (insert l _ v w) as [r w'|w'| |]; cbn; try done.
  - destruct Hcases as (p & k & _ & _ & _ & _ & _ & _ & ? & ?). eauto.
  - destruct Hcases as (? & ? & ?). split; [done|]. by eapply is_list_ext.
Qed.

Lemma pop_back_eval (l : List H) ns q vq w :
  wf_world w → is_list w l (ns ++ [(q, vq)]) →
  pop_back l w = drop_iter (erase l q w).
Proof.
  intros Hwf Hl. pose proof Hl as (Hc & _).
  pose proof (ring_prev (heap w) l (ns ++ [(q, vq)]) []) as Hprev.
  rewrite app_nil_r in Hprev. specialize (Hprev Hc).
  rewrite fmap_app in Hprev. change ([(q, vq)].*1) with [q] in Hprev.
  rewrite last_snoc in Hprev. cbn in Hprev. unfold prev_of in Hprev.
  pose proof (cyc_head _ _ _ _ Hc) as Hd. rewrite Hd in Hprev.
  unfold pop_back, bind at 1, end_, ret, bind at 1, iter_decr.
  rewrite (get_prev_eval _ _ _ Hd), Hprev. apply bind_drop_iter.
Qed.

Lemma pop_front_eval (l : List H) ns q vq w :
  is_list w l ((q, vq) :: ns) →
  pop_front l w = drop_iter (erase l q w).
Proof.
  intros Hl. unfold pop_front, bind at 1. rewrite (begin_eval _ _ _ Hl).
  apply bind_drop_iter.
Qed.

(** Every operation applied within its precondition to a well-formed list
    returns a well-formed list or throws and leaves the list as it was. *)
Lemma step_preserves (o : op) (l : List H) ns w :
  wf_world w → is_list w l ns → pre w l o →
  match step o l w with
  | Ret l' w' => wf_world w' ∧ ∃ ns', is_list w' l' ns'
  | Raise w' => wf_world w' ∧ is_list w' l ns
  | _ => False
  end.
Proof.
  intros Hwf Hl Hpre. pose proof (is_list_nodes _ _ _ Hl) as Hn.
  destruct o as [v|v|iter v| | |iter|]; cbn [step pre] in *.
  - rewrite push_back_insert.
    pose proof (insert_preserves l ns [] v w Hwf) as Hi.
    rewrite app_nil_r in Hi. by apply Hi.
  - rewrite (push_front_insert _ _ _ _ Hl).
    by apply (insert_preserves l [] ns v w Hwf).
  - rewrite bind_drop_iter.
    destruct Hpre as (ns' & Hn' & Hiter). rewrite Hn in Hn'.
    injection Hn' as <-. destruct Hiter as [->|Hin].
    + pose proof (insert_preserves l ns [] v w Hwf) as Hi.
      rewrite app_nil_r in Hi. by apply Hi.
    + apply elem_of_fst_split in Hin as (l1 & v' & l2 & ->).
      by apply (insert_preserves l l1 ((iter, v') :: l2) v w Hwf).
  - destruct Hpre as (n & ns' & Hn'). rewrite Hn in Hn'. injection Hn' as ->.
    destruct (exists_last (l := n :: ns')) as (ns0 & [q vq] & Heq); [done|].
    rewrite Heq in Hl. rewrite (pop_back_eval _ _ _ _ _ Hwf Hl).
    pose proof (erase_cases l ns0 [] q vq w Hwf Hl)
      as (w' & pq & -> & _ & _ & _ & _ & ? & ?). cbn. eauto.
  - destruct Hpre as ([q vq] & ns' & Hn'). rewrite Hn in Hn'.
    injection Hn' as ->. rewrite (pop_front_eval _ _ _ _ _ Hl).
    pose proof (erase_cases l [] ns' q vq w Hwf Hl)
      as (w' & pq & -> & _ & _ & _ & _ & ? & ?). cbn. eauto.
  - rewrite bind_drop_iter.
    destruct Hpre as (ns' & Hn' & Hin). rewrite Hn in Hn'.
    injection Hn' as <-.
    apply elem_of_fst_split in Hin as (l1 & v' & l2 & ->).
    pose proof (erase_cases l l1 l2 iter v' w Hwf Hl)
      as (w' & pq & -> & _ & _ & _ & _ & ? & ?). cbn. eauto.
  - destruct (clear_spec _ _ _ Hwf Hl) as (w' & -> & _ & ? & ?). eauto.
Qed.

(** C7: along any sequence of [push_back], [push_front], [insert],
    [pop_back], [pop_front], [erase] and [clear], each applied within its
    precondition to a list that starts well-formed, the walk from [begin()]
    along [next] comes back to the sentinel, and [size()] is the number of
    nodes it meets. *)
Theorem size_counts_nodes w0 (l0 : List H) ns0 w (l : List H) :
  wf_world w0 → is_list w0 l0 ns0 → reachable w0 l0 w l →
  ∃ ns, nodes w l = Some ns ∧ size l = Z.of_nat (length ns).
Proof.
  intros Hwf0 Hl0 Hreach.
  cut (wf_world w ∧ ∃ ns, is_list w l ns).
  { intros (_ & ns & Hl). exists ns. split; [by apply is_list_nodes|].
    by destruct Hl as (_ & ? & _). }
  induction Hreach as [|w l o l' w' _ IH Hpre Hstep|w l o w' _ IH Hpre Hstep].
  - eauto.
  - destruct IH as (Hwf & ns & Hl).
    pose proof (step_preserves o l ns w Hwf Hl Hpre) as Hs.
    by rewrite Hstep in Hs.
  - destruct IH as (Hwf & ns & Hl).
    pose proof (step_preserves o l ns w Hwf Hl Hpre) as Hs.
    rewrite Hstep in Hs. destruct Hs. eauto.
Qed.
End Iterators.


Section Construction.
Context {T E H S : Type} `{!Element T E} `{!Allocator H S}
        `{!AllocatorLaws H S}.
Implicit Types (w : world T E S) (ns : list (addr * T)).

Lemma destroy_loop_same_obj fuel (l l' : List H) it w :
  same_obj l l' → destroy_loop fuel l' it w = destroy_loop fuel l it w.
Proof.
  intros [Ha Hd]. revert it w.
  induction fuel as [|fuel IH]; intros it w; [done|].
  cbn [destroy_loop]. rewrite Hd, Ha. case_decide; [done|].
  unfold bind. destruct (get_next it w) as [tmp w1| | |]; try done.
  destruct (NodeTraits_destroy it w1) as [[] w2| | |]; try done.
  destruct (NodeTraits_deallocate (alloc l) it w2) as [[] w3| | |]; try done.
Qed.

Lemma destroy_same_obj (l l' : List H) w :
  same_obj l l' → destroy l' w = destroy l w.
Proof.
  intros Hs. pose proof Hs as [Ha Hd]. unfold destroy, bind. rewrite Hd.
  destruct (get_next (data l) w) as [it w1| | |]; try done.
  by apply destroy_loop_same_obj.
Qed.

(** The rollback of a constructor: [destroy()] on the object under
    construction, then the end of the object, restore the heap and the
    allocated blocks from before the construction. *)
Lemma rollback_spec {R} h0 L0 w (l this : List H) ns :
  building h0 L0 w l ns → same_obj this l →
  ∃ w',
    bind (destroy this)
      (λ _, bind (release (data this)) (λ _, throw (R := R))) w
    = Raise w' ∧
    heap w' = h0 ∧ live w' = L0 ∧ alloc_inv (astate w') (live w').
Proof.
  intros (Hwf & Hl & Hfree & Hframe & Hlive & Hold) Hs.
  assert (same_obj l this) as Hs' by (destruct Hs; by split).
  destruct (destroy_spec _ _ _ Hwf Hl)
    as (w1 & Hrun & Hheap & Hlive1 & [Hinv1 _] & _).
  rewrite <- (destroy_same_obj _ _ _ Hs') in Hrun.
  unfold bind at 1. rewrite Hrun. unfold bind, release, throw.
  eexists. split; [done|]. cbn [heap live astate set_heap].
  destruct Hs as [_ Hd].
  split; [|split; [|done]].
  - apply map_eq. intros a. rewrite lookup_delete, <- Hd.
    case_decide as Ha.
    + subst. symmetry. apply Hfree. left.
    + rewrite Hheap. case_decide as Hin.
      * symmetry. apply Hfree. by right.
      * apply Hframe. by intros [?|?]%elem_of_cons.
  - apply set_eq. intros p. rewrite Hlive1, Hlive.
    split; [intros [[?|?] ?]; done|]. intros Hp.
    split; [by left|by apply Hold].
Qed.

Lemma spliced_frame (h : gmap addr (object T)) pos p k a :
  a ≠ p → a ≠ pos → a ≠ prev_of h pos → spliced h pos p k !! a = h !! a.
Proof.
  intros ???. unfold spliced, link_prev, link_next.
  rewrite lookup_alter_ne, lookup_alter_ne, lookup_insert_ne; done.
Qed.

(** The object under construction at [self], right after its members are
    initialised. *)
Lemma List_init_building w self (allocator : H) n :
  wf_world w → heap w !! self = None → self = Obj n →
  handle_ok allocator →
  ∃ w', List_init self allocator w = Ret (mkList allocator self 0) w' ∧
        building (heap w) (live w) w' (mkList allocator self 0) [] ∧
        estate w' = estate w.
Proof.
  intros [Hinv Hheap] Hself -> Hh. unfold List_init, bind, store, ret.
  eexists. split; [done|]. split; [|done].
  split; [split; [done|]|split; [|split; [|split; [|split]]]];
    cbn [heap live set_heap data fmap list_fmap].
  - intros p. rewrite lookup_insert_ne by done. apply Hheap.
  - split; [|repeat split; try done; by intros ? []%elem_of_nil].
    apply cyc_singleton. cbn. by rewrite lookup_insert_eq.
  - by intros a [->|[]%elem_of_nil]%elem_of_cons.
  - intros a [Ha _]%not_elem_of_cons. by rewrite lookup_insert_ne.
  - intros p. split; [by left|]. by intros [?|[]%elem_of_nil].
  - intros p _. apply not_elem_of_nil.
Qed.

Lemma building_append ctor h0 L0 w (l : List H) ns :
  building h0 L0 w l ns →
  match drop_iter (insert_with ctor l (data l) w) with
  | Ret l' w' =>
      ∃ p k, building h0 L0 w' l' (ns ++ [(Blk p, k)]) ∧ same_obj l l' ∧
             ctor (estate w) = (Some k, estate w')
  | Raise w' => building h0 L0 w' l ns
  | _ => False
  end.
Proof.
  intros (Hwf & Hl & Hfree & Hframe & Hlive & Hold).
  pose proof (insert_with_cases ctor l ns [] w Hwf) as Hcases.
  rewrite app_nil_r in Hcases. specialize (Hcases Hl).
  cbn [fmap list_fmap List.hd] in Hcases.
  destruct (insert_with ctor l (data l) w) as [r w'|w'| |]; cbn; try done.
  - destruct Hcases as (p & k & -> & Hp & Hfresh & Hc & Hheap & Hlive' & Hwf' & Hl').
    cbn [snd] in *. exists p, k. split; [|done].
    pose proof Hl as (Hcyc & _).
    assert (prev_of (heap w) (data l) ∈ data l :: ns.*1) as Hprev.
    { pose proof (ring_prev (heap w) l ns []) as Hpr.
      rewrite app_nil_r in Hpr. specialize (Hpr Hcyc). cbn in Hpr.
      rewrite Hpr. apply last_elem_of. }
    assert (Blk p ∉ data l :: ns.*1) as Hpnin.
    { intros Hin. rewrite <- ring_of_fst in Hin.
      eapply cyc_is_Some in Hin as [? ?]; [|done]. congruence. }
    unfold building. rewrite fmap_app. change ([(Blk p, k)].*1) with [Blk p].
    split; [done|]. split; [done|]. cbn [data set_sz].
    split; [|split; [|split]].
    + intros a Ha. rewrite app_comm_cons, elem_of_app in Ha.
      destruct Ha as [Ha|[->|[]%elem_of_nil]%elem_of_cons]; [by apply Hfree|].
      by rewrite <- Hframe.
    + intros a Ha. rewrite app_comm_cons, not_elem_of_app in Ha.
      destruct Ha as [Ha [Hap _]%not_elem_of_cons].
      rewrite Hheap, spliced_frame; [by apply Hframe|done| |].
      * intros ->. apply Ha. left.
      * by intros ->.
    + intros q. rewrite Hlive', elem_of_union, elem_of_singleton, Hlive.
      rewrite elem_of_app, elem_of_cons.
      split; [intros [[?|?]| ->]|intros [?|[?|[[= ->]|[]%elem_of_nil]]]];
        tauto.
    + intros q Hq. rewrite not_elem_of_app, not_elem_of_cons.
      split; [by apply Hold|]. split; [|apply not_elem_of_nil].
      intros [= ->]. apply Hfresh, Hlive. by left.
  - destruct Hcases as (Hheap & Hlive' & Hwf').
    split; [done|]. split; [by eapply is_list_ext|].
    rewrite Hheap. split; [done|]. split; [done|].
    split; [|done]. intros p. by rewrite Hlive'.
Qed.

Lemma same_obj_refl (l : List H) : same_obj l l.
Proof. by split. Qed.

Lemma same_obj_trans (l l' l'' : List H) :
  same_obj l l' → same_obj l' l'' → same_obj l l''.
Proof. intros [??] [??]. split; congruence. Qed.

Lemma push_back_n_built n : ∀ h0 L0 w (l : List H) ns v,
  building h0 L0 w l ns → built h0 L0 l (push_back_n n l v w).
Proof.
  induction n as [|n IH]; intros h0 L0 w l ns v Hb; cbn [push_back_n].
  - unfold ret. cbn. eauto using same_obj_refl.
  - unfold bind. rewrite push_back_insert.
    change (insert l (data l) v w)
      with (insert_with (construct_copy v) l (data l) w).
    pose proof (building_append (construct_copy v) _ _ _ _ _ Hb) as Hstep.
    destruct (drop_iter _) as [l' w'|w'| |]; try done.
    + destruct Hstep as (p & k & Hb' & Hs & _).
      specialize (IH h0 L0 w' l' _ v Hb').
      destruct (push_back_n n l' v w') as [l'' w''|w''| |]; cbn in *;
        try done.
      * destruct IH as (ns' & ? & ?). eauto using same_obj_trans.
      * destruct IH as (l'' & ns' & ? & ?). eauto using same_obj_trans.
    + cbn. eauto using same_obj_refl.
Qed.


(** A constructor body that keeps the list under construction well-formed
    ends all-or-nothing. *)
Lemma constructing_spec w0 w (this : List H) (body : M (List H)) :
  wf_world w0 →
  built (heap w0) (live w0) this (body w) →
  all_or_nothing w0 (constructing this body w).
Proof.
  intros Hwf0 Hb. unfold constructing, try_catch.
  destruct (body w) as [l' w'|w'| |]; cbn in Hb |- *; try done.
  - destruct Hb as (ns' & (? & ? & _) & _). eauto.
  - destruct Hb as (l' & ns' & Hb & Hs).
    assert (same_obj this l') as Hs' by done.
    destruct (rollback_spec (R := List H) _ _ _ _ this _ Hb)
      as (w'' & -> & Hheap & Hlive & Hinv).
    { destruct Hs. by split. }
    cbn. split; [done|]. split; [done|]. split; [done|].
    intros p. rewrite Hheap, Hlive. by apply Hwf0.
Qed.

Lemma building_outside h0 L0 w (l : List H) ns a :
  building h0 L0 w l ns → is_Some (h0 !! a) → heap w !! a = h0 !! a.
Proof.
  intros (_ & _ & Hfree & Hframe & _) [o Ho]. apply Hframe.
  intros Hin. apply Hfree in Hin. congruence.
Qed.

(** The loop of the copy constructor over the nodes of [copy], which were
    there before the construction began. *)
Lemma copy_loop_built h0 L0 (copy : List H) rest : ∀ fuel it w (l : List H) ns,
  building h0 L0 w l ns →
  chain h0 it rest (data copy) → (length rest < fuel)%nat →
  built h0 L0 l (copy_loop fuel l copy it w).
Proof.
  induction rest as [|[a v] rest IH]; intros fuel it w l ns Hb Hc Hf;
    (destruct fuel as [|fuel]; [cbn in Hf; lia|]); cbn [copy_loop].
  - cbn in Hc. rewrite decide_True by done. cbn. eauto using same_obj_refl.
  - cbn in Hc. destruct Hc as (-> & Hne & b & Ha & Hc).
    rewrite decide_False by done.
    pose proof (building_outside _ _ _ _ _ a Hb (mk_is_Some _ _ Ha)) as Hw.
    rewrite Ha in Hw.
    unfold bind at 1, iter_deref, get_key, bind at 1.
    rewrite (load_eval _ _ _ Hw). unfold ret at 1.
    unfold bind at 1. rewrite push_back_insert.
    change (insert l (data l) v w)
      with (insert_with (construct_copy v) l (data l) w).
    pose proof (building_append (construct_copy v) _ _ _ _ _ Hb) as Hstep.
    destruct (drop_iter _) as [l' w'|w'| |]; try done.
    + destruct Hstep as (p & k & Hb' & Hs & _).
      pose proof (building_outside _ _ _ _ _ a Hb' (mk_is_Some _ _ Ha))
        as Hw'.
      rewrite Ha in Hw'.
      unfold bind, iter_incr. rewrite (get_next_eval _ _ _ Hw').
      cbn [base_of].
      specialize (IH fuel (next b) w' l' _ Hb' Hc).
      destruct (copy_loop fuel l' copy (next b) w') as [l'' w''|w''| |];
        cbn in *; try (apply IH; lia).
      * destruct IH as (ns' & ? & ?); [lia|]. eauto using same_obj_trans.
      * destruct IH as (l'' & ns' & ? & ?); [lia|].
        eauto using same_obj_trans.
    + cbn. eauto using same_obj_refl.
Qed.

Lemma List_count_value_all_or_nothing w self n count v (allocator : H) :
  wf_world w → heap w !! self = None → self = Obj n →
  handle_ok allocator →
  all_or_nothing w (List_count_value self count v allocator w).
Proof.
  intros Hwf Hself Hn Hh.
  destruct (List_init_building _ _ _ _ Hwf Hself Hn Hh) as (w1 & Hi & Hb & _).
  unfold List_count_value, bind. rewrite Hi.
  apply constructing_spec; [done|]. by eapply push_back_n_built.
Qed.


Lemma List_copy_alloc_all_or_nothing w self n (copy : List H) nsB
    (allocator : H) :
  wf_world w → heap w !! self = None → self = Obj n →
  handle_ok allocator → is_list w copy nsB →
  all_or_nothing w (List_copy_alloc self copy allocator w).
Proof.
  intros Hwf Hself Hn Hh Hcopy.
  destruct (List_init_building _ _ _ _ Hwf Hself Hn Hh) as (w1 & Hi & Hb & _).
  unfold List_copy_alloc, bind at 1. rewrite Hi.
  apply constructing_spec; [done|].
  pose proof Hcopy as (Hc & _).
  pose proof (cyc_head _ _ _ _ Hc) as Hd.
  pose proof (cyc_chain _ _ _ Hc) as Hch. unfold next_of in Hch.
  rewrite Hd in Hch.
  pose proof (building_outside _ _ _ _ _ (data copy) Hb (mk_is_Some _ _ Hd))
    as Hd1.
  rewrite Hd in Hd1.
  unfold bind, begin. rewrite (get_next_eval _ _ _ Hd1).
  eapply copy_loop_built; [done|done|].
  pose proof (ring_fuel _ _ _ Hc) as Hfuel.
  assert (heap w1 = <[self := Base (mkBase self self)]> (heap w)) as ->.
  { unfold List_init, bind, store, ret in Hi. by injection Hi as <-. }
  rewrite map_size_insert_None by done. lia.
Qed.


(** C3: if building the temporary copy in [operator=] throws, [operator=]
    throws with the same state, and in that state the heap and the
    allocated blocks are those from before the call; the target, whose
    object the call did not touch, is the same well-formed list with the
    same nodes. *)
Theorem assign_failure_leaves_target w (this copy : List H) nsA nsB
    res_addr n w1 :
  wf_world w → is_list w this nsA → is_list w copy nsB →
  heap w !! res_addr = None → res_addr = Obj n →
  List_copy_alloc res_addr copy
    (if propagate_on_container_copy_assignment
     then alloc copy else alloc this) w = Raise w1 →
  operator_assign this copy res_addr w = Raise w1 ∧
  heap w1 = heap w ∧ live w1 = live w ∧
  is_list w1 this nsA ∧ nodes w1 this = Some nsA ∧
  size this = Z.of_nat (length nsA).
Proof.
  intros Hwf HA HB Hres Hn Hfail.
  pose proof (List_copy_alloc_all_or_nothing w res_addr n copy nsB
                (if propagate_on_container_copy_assignment
                 then alloc copy else alloc this) Hwf Hres Hn) as Hall.
  rewrite Hfail in Hall. destruct Hall as (Hheap & Hlive & _); [|done|].
  { destruct HA as (_ & _ & _ & ?), HB as (_ & _ & _ & ?).
    by destruct propagate_on_container_copy_assignment. }
  split.
  { unfold operator_assign, bind at 1, assign_body, bind at 1.
    by rewrite Hfail. }
  do 2 (split; [done|]).
  assert (is_list w1 this nsA) as HA1 by by eapply is_list_ext.
  split; [done|]. split; [by apply is_list_nodes|].
  by destruct HA as (_ & ? & _).
Qed.
End Construction.

(** *** Removal, round trips and failure of the allocator *)

Lemma exists_last_or_nil {A} (l : list A) :
  l = [] ∨ ∃ l' x, l = l' ++ [x].
Proof.
  destruct l as [|a l]; [by left|right].
  destruct (exists_last (l := a :: l)) as (l' & x & ->); [done|eauto].
Qed.

Section MoreOperations.
Context {T E H S : Type} `{!Element T E} `{!Allocator H S}
        `{!AllocatorLaws H S}.
Implicit Types (w : world T E S) (ns : list (addr * T)).

(** X10: [erase] of a node of a well-formed list returns the iterator to
    the element after it ([end()] for the last one) and leaves the list
    well-formed without that node, the other nodes where they were; the
    size is one less, the destructor of the element ran once, the node is
    no longer an object and its block is deallocated. *)
Theorem erase_unlinks_and_frees (l : List H) (l1 l2 : list (addr * T)) q vq w :
  wf_world w → is_list w l (l1 ++ (q, vq) :: l2) →
  ∃ w' pq l',
    erase l q w = Ret (List.hd (data l) (l2.*1), l') w' ∧
    q = Blk pq ∧
    size l' = size l - 1 ∧
    nodes w' l' = Some (l1 ++ l2) ∧
    heap w' !! q = None ∧
    live w' = live w ∖ {[pq]} ∧
    estate w' = destruct vq (estate w) ∧
    wf_world w' ∧ is_list w' l' (l1 ++ l2).
Proof.
  intros Hwf Hl.
  destruct (erase_cases l l1 l2 q vq w Hwf Hl)
    as (w' & pq & Hrun & Hq & Hheap & Hlive & Hest & Hwf' & Hl').
  exists w', pq, (set_sz l (sz l - 1)). split; [done|]. split; [done|].
  split; [done|]. split; [by apply is_list_nodes|].
  split; [|done]. rewrite Hheap. unfold unlinked. apply lookup_delete_eq.
Qed.

(** X11: on a list that is not empty, [pop_back] removes the last node and
    [pop_front] the first one; the other nodes stay where they were, the
    size is one less, the element is destroyed and its block
    deallocated. *)
Theorem pop_removes_an_end (l : List H) ns q vq w :
  wf_world w →
  (is_list w l (ns ++ [(q, vq)]) →
   ∃ w' pq l',
     pop_back l w = Ret l' w' ∧ q = Blk pq ∧
     size l' = size l - 1 ∧ nodes w' l' = Some ns ∧
     live w' = live w ∖ {[pq]} ∧ estate w' = destruct vq (estate w) ∧
     wf_world w' ∧ is_list w' l' ns) ∧
  (is_list w l ((q, vq) :: ns) →
   ∃ w' pq l',
     pop_front l w = Ret l' w' ∧ q = Blk pq ∧
     size l' = size l - 1 ∧ nodes w' l' = Some ns ∧
     live w' = live w ∖ {[pq]} ∧ estate w' = destruct vq (estate w) ∧
     wf_world w' ∧ is_list w' l' ns).
Proof.
  intros Hwf. split; intros Hl.
  - rewrite (pop_back_eval _ _ _ _ _ Hwf Hl).
    destruct (erase_cases l ns [] q vq w Hwf Hl)
      as (w' & pq & -> & Hq & _ & Hlive & Hest & Hwf' & Hl').
    rewrite app_nil_r in Hl'.
    exists w', pq, (set_sz l (sz l - 1)). cbn [drop_iter snd].
    do 3 (split; [done|]). split; [by apply is_list_nodes|]. done.
  - rewrite (pop_front_eval _ _ _ _ _ Hl).
    destruct (erase_cases l [] ns q vq w Hwf Hl)
      as (w' & pq & -> & Hq & _ & Hlive & Hest & Hwf' & Hl').
    exists w', pq, (set_sz l (sz l - 1)). cbn [drop_iter snd].
    do 3 (split; [done|]). split; [by apply is_list_nodes|]. done.
Qed.

Lemma link_prev_base (h : gmap addr (object T)) a v c b :
  h !! c = Some (Base b) → ∃ b', link_prev a v h !! c = Some (Base b').
Proof.
  intros Hc. unfold link_prev. rewrite lookup_alter.
  case_decide; subst; rewrite Hc; cbn; eauto.
Qed.

Lemma link_next_base (h : gmap addr (object T)) a v c b :
  h !! c = Some (Base b) → ∃ b', link_next a v h !! c = Some (Base b').
Proof.
  intros Hc. unfold link_next. rewrite lookup_alter.
  case_decide; subst; rewrite Hc; cbn; eauto.
Qed.

(** [erase] on an object that is not a node. *)
Lemma erase_not_node (l : List H) it w b :
  heap w !! it = Some (Base b) →
  is_Some (heap w !! next b) → is_Some (heap w !! prev b) →
  erase l it w = UB.
Proof.
  intros Hit [oi Hi] [op Hp].
  unfold erase, bind at 1. rewrite (get_next_eval _ _ _ Hit).
  unfold bind at 1. rewrite (get_prev_eval _ _ _ Hit).
  unfold bind at 1. rewrite (set_prev_eval _ _ _ _ Hi). cbn [base_of].
  destruct (link_prev_lookup (heap w) (next b) (prev b) _ _ Hit)
    as (o1 & Ho1 & _ & _ & Hp1).
  unfold bind at 1. erewrite get_prev_eval by (cbn; done).
  assert (prev (base_of o1) = prev b) as ->.
  { rewrite Hp1. by case_decide. }
  destruct (link_prev_lookup (heap w) (next b) (prev b) _ _ Hp)
    as (op1 & Hpp1 & _).
  unfold bind at 1. erewrite set_next_eval by (cbn; done).
  destruct (link_prev_base (heap w) (next b) (prev b) _ _ Hit) as [b1 Hb1].
  destruct (link_next_base _ (prev b) (next b) _ _ Hb1) as [b2 Hb2].
  unfold bind at 1, NodeTraits_destroy. cbn [heap set_heap]. by rewrite Hb2.
Qed.

(** The sentinel of a well-formed list links to its first and last
    node. *)
Lemma sentinel_links (l : List H) ns w :
  is_list w l ns →
  ∃ b, heap w !! data l = Some (Base b) ∧
       next b = List.hd (data l) (ns.*1) ∧
       prev b = List.last (ns.*1) (data l) ∧
       is_Some (heap w !! next b) ∧ is_Some (heap w !! prev b).
Proof.
  intros (Hc & _). pose proof (cyc_head _ _ _ _ Hc) as Hd.
  cbn [obj_of] in Hd. rewrite !map_node_fst in Hd.
  eexists. split; [exact Hd|]. cbn [next prev]. do 2 (split; [done|]).
  split; eapply cyc_is_Some; try done; rewrite ring_of_fst.
  - destruct ns as [|[]]; cbn; [left|right; left].
  - apply last_elem_of.
Qed.

(** X12: [erase] does not check that its iterator designates a node:
    [erase(end())] runs the destructor of a [Node] on the sentinel, which is
    undefined behaviour; so are [pop_back] and [pop_front] on an empty
    list, which erase the sentinel. *)
Theorem erase_end_and_pop_on_empty_undefined (l : List H) ns w :
  is_list w l ns →
  erase l (data l) w = UB ∧
  (ns = [] → pop_back l w = UB ∧ pop_front l w = UB).
Proof.
  intros Hl. destruct (sentinel_links _ _ _ Hl) as (b & Hd & Hn & Hp & Hin & Hip).
  pose proof (erase_not_node l _ _ _ Hd Hin Hip) as Herase.
  split; [done|]. intros ->. cbn in Hn, Hp. split.
  - unfold pop_back, bind at 1, end_, ret, bind at 1, iter_decr.
    rewrite (get_prev_eval _ _ _ Hd). cbn [base_of]. rewrite Hp.
    unfold bind. by rewrite Herase.
  - unfold pop_front, bind at 1, begin.
    rewrite (get_next_eval _ _ _ Hd). cbn [base_of]. rewrite Hn.
    unfold bind. by rewrite Herase.
Qed.

(** X13: [clear] of a well-formed list returns and leaves the same list
    object empty and well-formed: [size()] is 0 and [begin()] is [end()];
    every node is destroyed, in iteration order, and its block is
    deallocated, and no other object changes. *)
Theorem clear_empties_and_frees (l : List H) ns w :
  wf_world w → is_list w l ns →
  ∃ w' l',
    clear l w = Ret l' w' ∧
    size l' = 0 ∧ alloc l' = alloc l ∧ data l' = data l ∧
    begin l' w' = Ret (data l') w' ∧
    (∀ a, a ≠ data l →
          heap w' !! a = if decide (a ∈ ns.*1) then None else heap w !! a) ∧
    (∀ p, p ∈ live w' ↔ p ∈ live w ∧ Blk p ∉ ns.*1) ∧
    estate w' = foldl (λ e n, destruct n.2 e) (estate w) ns ∧
    wf_world w' ∧ is_list w' l' [].
Proof.
  intros Hwf Hl.
  destruct (destroy_spec _ _ _ Hwf Hl)
    as (w1 & Hrun & Hheap & Hlive & Hwf1 & Hest).
  pose proof Hl as (Hc & _ & _ & Hh).
  pose proof (cyc_head _ _ _ _ Hc) as Hd.
  pose proof Hc as [Hnd _]. rewrite ring_of_fst in Hnd.
  apply NoDup_cons in Hnd as [Hnin _].
  assert (heap w1 !! data l = heap w !! data l) as Hd1.
  { rewrite Hheap. by rewrite decide_False. }
  rewrite Hd in Hd1.
  unfold clear, bind at 1. rewrite Hrun.
  unfold bind at 1. rewrite (set_next_eval _ _ _ _ Hd1).
  destruct (link_next_lookup _ (data l) (data l) _ _ Hd1)
    as (o2 & Ho2 & _ & _ & Hn2).
  unfold bind at 1. erewrite set_prev_eval by (cbn; done).
  unfold ret. eexists _, _. split; [done|].
  cbn [heap live astate estate set_heap size sz set_sz alloc data].
  destruct Hwf1 as [Hinv1 Hheap1].
  assert (cyc (link_prev (data l) (data l)
                 (link_next (data l) (data l) (heap w1)))
            (ring_of (set_sz l 0) [])) as Hcyc.
  { apply cyc_singleton. cbn [heap set_heap data set_sz].
    unfold link_prev, link_next. rewrite !lookup_alter_eq, Hd1. done. }
  do 3 (split; [done|]). split; [|split; [|split; [done|split; [done|]]]].
  - unfold begin. cbn [data set_sz].
    rewrite (get_next_eval _ _ (Base (mkBase (data l) (data l)))); [done|].
    cbn [heap set_heap]. unfold link_prev, link_next.
    rewrite !lookup_alter_eq, Hd1. done.
  - intros a Ha. unfold link_prev, link_next.
    rewrite !lookup_alter_ne by done. apply Hheap.
  - split; [split; [done|]|].
    + cbn [heap live]. intros p Hp.
      apply link_prev_is_Some, link_next_is_Some in Hp. by apply Hheap1.
    + split; [done|]. repeat split; cbn; try done.
      by intros ? []%elem_of_nil.
Qed.

(** X14: the destructor of a well-formed list returns; afterwards the
    sentinel and every node are no longer objects, every block of the list
    is deallocated and nothing else, every element was destroyed once, in
    iteration order, and the rest of the heap is as before. *)
Theorem destructor_frees_every_node (l : List H) ns w :
  wf_world w → is_list w l ns →
  ∃ w',
    List_destructor l w = Ret tt w' ∧
    (∀ a, heap w' !! a
          = if decide (a ∈ data l :: ns.*1) then None else heap w !! a) ∧
    (∀ p, p ∈ live w' ↔ p ∈ live w ∧ Blk p ∉ ns.*1) ∧
    estate w' = foldl (λ e n, destruct n.2 e) (estate w) ns ∧
    wf_world w'.
Proof.
  intros Hwf Hl.
  destruct (destroy_spec _ _ _ Hwf Hl)
    as (w1 & Hrun & Hheap & Hlive & [Hinv1 Hheap1] & Hest).
  unfold List_destructor, bind. rewrite Hrun. unfold release.
  eexists. split; [done|]. unfold set_heap. cbn [heap live astate estate].
  split; [|split; [done|split; [done|split; [done|]]]].
  - intros a. rewrite lookup_delete. case_decide as Ha.
    + subst. rewrite decide_True; [done|left].
    + rewrite Hheap. destruct (decide (a ∈ ns.*1)).
      * rewrite decide_True; [done|by right].
      * rewrite decide_False; [done|]. intros [?|?]%elem_of_cons; congruence.
  - cbn [heap live]. intros p [o Hp]. apply lookup_delete_Some in Hp as [_ Hp].
    apply Hheap1. eauto.
Qed.

(** In a ring the node before a position links forward to it. *)
Lemma ring_prev_next (h : gmap addr (object T)) (l : List H)
    (l1 l2 : list (addr * T)) :
  cyc h (ring_of l (l1 ++ l2)) →
  next_of h (List.last (l1.*1) (data l)) = List.hd (data l) (l2.*1).
Proof.
  intros Hc. unfold next_of.
  destruct (exists_last_or_nil l1) as [->|(l1' & [q vq] & ->)].
  - cbn. rewrite (cyc_head _ _ _ _ Hc), base_of_obj_of. cbn.
    by rewrite map_node_fst.
  - rewrite fmap_app. change ([(q, vq)].*1) with [q]. rewrite last_snoc.
    rewrite <- app_assoc in Hc. cbn in Hc.
    destruct (ring_node _ _ _ _ _ _ Hc) as (b & -> & Hn). done.
Qed.

Lemma with_base_id (o : object T) p n :
  prev (base_of o) = p → next (base_of o) = n →
  with_base o (mkBase p n) = o.
Proof. by destruct o as [[]|[]]; cbn; intros -> ->. Qed.

Lemma link_next_at (h : gmap addr (object T)) a v c :
  link_next a v h !! c
  = if decide (a = c)
    then (λ o, with_base o (mkBase (prev (base_of o)) v)) <$> h !! c
    else h !! c.
Proof. unfold link_next. rewrite lookup_alter. by case_decide; subst. Qed.

Lemma link_prev_at (h : gmap addr (object T)) a v c :
  link_prev a v h !! c
  = if decide (a = c)
    then (λ o, with_base o (mkBase v (next (base_of o)))) <$> h !! c
    else h !! c.
Proof. unfold link_prev. rewrite lookup_alter. by case_decide; subst. Qed.

(** Unlinking the node that was just spliced in gives the heap back. *)
Lemma unlinked_spliced (h : gmap addr (object T)) pos p k o oq :
  h !! p = None → h !! pos = Some o →
  h !! prev (base_of o) = Some oq → next (base_of oq) = pos →
  unlinked (spliced h pos p k) p = h.
Proof.
  intros Hp Ho Hq Hn.
  assert (p ≠ pos) as Hne1 by congruence.
  assert (p ≠ prev (base_of o)) as Hne2 by congruence.
  unfold unlinked, next_of, prev_of, spliced, prev_of. rewrite Ho.
  remember (prev (base_of o)) as q eqn:Hq0.
  rewrite !link_prev_at, !link_next_at, !(decide_False (P := _ = p)) by done.
  rewrite lookup_insert_eq. cbn [base_of next prev].
  apply map_eq. intros a. destruct (decide (a = p)) as [->|Ha].
  { by rewrite lookup_delete_eq. }
  rewrite lookup_delete_ne by done.
  rewrite link_next_at, link_prev_at, link_prev_at, link_next_at.
  rewrite lookup_insert_ne by done.
  repeat case_decide; simplify_eq; rewrite ?Ho, ?Hq; cbn; try done; f_equal.
  all: repeat match goal with o : object T |- _ => destruct o as [[]|[]] end;
    cbn in *; by simplify_eq.
Qed.

(** X15: [insert] followed by [erase] of the iterator it returned brings
    back the heap and the allocated blocks exactly; [erase] returns the
    position the element was inserted before and the list object is the one
    from before the [insert].  What remains is the trace of the element: its
    constructor and its destructor ran. *)
Theorem insert_then_erase_restores (l : List H) (l1 l2 : list (addr * T))
    v w it l' w' :
  wf_world w → is_list w l (l1 ++ l2) →
  let pos := List.hd (data l) (l2.*1) in
  insert l pos v w = Ret (it, l') w' →
  ∃ w'' k,
    construct_copy v (estate w) = (Some k, estate w') ∧
    erase l' it w' = Ret (pos, l) w'' ∧
    heap w'' = heap w ∧ live w'' = live w ∧
    estate w'' = destruct k (estate w').
Proof.
  intros Hwf Hl pos Hrun. subst pos.
  pose proof (insert_cases l l1 l2 v w Hwf Hl) as Hcases.
  rewrite Hrun in Hcases.
  destruct Hcases as (p & k & [= -> ->] & Hp & Hfresh & Hc & Hheap & Hlive
                      & Hwf' & Hl').
  cbn [snd] in Hl'.
  destruct (erase_cases _ l1 l2 (Blk p) k w' Hwf' Hl')
    as (w'' & pq & Herase & [= <-] & Hheap' & Hlive' & Hest & _).
  exists w'', k. split; [done|]. cbn [data sz set_sz] in Herase.
  split; [|split; [|split; [|done]]].
  - rewrite Herase. do 2 f_equal. destruct l; cbn. f_equal. lia.
  - rewrite Hheap', Hheap. pose proof Hl as (Hcyc & _).
    destruct (ring_pos _ _ _ _ Hcyc) as (o & Ho & [oq Hq]).
    apply (unlinked_spliced _ _ _ _ o oq); try done.
    pose proof (ring_prev _ _ _ _ Hcyc) as Hprev.
    pose proof (ring_prev_next _ _ _ _ Hcyc) as Hnext.
    unfold prev_of in Hprev. rewrite Ho in Hprev.
    unfold next_of in Hnext. rewrite <- Hprev, Hq in Hnext. done.
  - rewrite Hlive', Hlive. by apply union_difference_fresh.
Qed.

(** X16: a returning [push_back] puts a copy of the value behind the last
    element and a returning [push_front] puts it before the first; the
    nodes that were there keep their addresses, their keys and their
    order, and [size()] grows by one. *)
Theorem push_back_appends_push_front_prepends (l : List H) ns v w l' w' :
  wf_world w → is_list w l ns →
  (push_back l v w = Ret l' w' →
   ∃ p k, construct_copy v (estate w) = (Some k, estate w') ∧
          nodes w' l' = Some (ns ++ [(Blk p, k)]) ∧
          elements_of w' l' = Some (ns.*2 ++ [k]) ∧
          size l' = size l + 1) ∧
  (push_front l v w = Ret l' w' →
   ∃ p k, construct_copy v (estate w) = (Some k, estate w') ∧
          nodes w' l' = Some ((Blk p, k) :: ns) ∧
          elements_of w' l' = Some (k :: ns.*2) ∧
          size l' = size l + 1).
Proof.
  intros Hwf Hl. split; intros Hrun.
  - rewrite push_back_insert in Hrun.
    pose proof (insert_cases l ns [] v w Hwf) as Hcases.
    rewrite app_nil_r in Hcases. specialize (Hcases Hl).
    cbn [fmap list_fmap List.hd] in Hcases.
    destruct (insert l (data l) v w) as [r w1| | |]; try done.
    cbn in Hrun. injection Hrun as <- <-.
    destruct Hcases as (p & k & -> & _ & _ & Hc & _ & _ & _ & Hl').
    exists p, k. split; [done|]. cbn [snd] in *.
    pose proof (is_list_nodes _ _ _ Hl') as Hn.
    split; [done|]. split; [|done].
    unfold elements_of. rewrite Hn. cbn. by rewrite map_app.
  - rewrite (push_front_insert _ _ _ _ Hl) in Hrun.
    pose proof (insert_cases l [] ns v w Hwf Hl) as Hcases.
    destruct (insert l _ v w) as [r w1| | |]; try done.
    cbn in Hrun. injection Hrun as <- <-.
    destruct Hcases as (p & k & -> & _ & _ & Hc & _ & _ & _ & Hl').
    exists p, k. split; [done|]. cbn [snd app] in *.
    pose proof (is_list_nodes _ _ _ Hl') as Hn.
    split; [done|]. split; [|done].
    unfold elements_of. by rewrite Hn.
Qed.

(** X17: when the allocator throws, [insert], [push_back], [push_front]
    and [emplace_back] throw before anything else happens: no constructor of
    the element ran, the heap and the allocated blocks are as before, and
    the list is the same well-formed list. *)
Theorem allocation_failure_leaves_list (l : List H) (l1 l2 : list (addr * T))
    v w s' :
  wf_world w → is_list w l (l1 ++ l2) →
  allocate_node (alloc l) (astate w) = Throw s' →
  let w' := mkWorld (heap w) s' (estate w) (live w) in
  insert l (List.hd (data l) (l2.*1)) v w = Raise w' ∧
  push_back l v w = Raise w' ∧
  push_front l v w = Raise w' ∧
  emplace_back l w = Raise w' ∧
  wf_world w' ∧ is_list w' l (l1 ++ l2) ∧ nodes w' l = Some (l1 ++ l2).
Proof.
  intros Hwf Hl Hal w'.
  assert (∀ pos, insert l pos v w = Raise w') as Hins.
  { intros pos. apply (insert_with_alloc_fail (construct_copy v)), Hal. }
  assert (is_list w' l (l1 ++ l2)) as Hl' by by eapply is_list_ext.
  split; [done|]. split; [by rewrite push_back_insert, Hins|].
  split; [by rewrite (push_front_insert _ _ _ _ Hl), Hins|].
  split.
  { rewrite emplace_back_insert_with.
    by rewrite (insert_with_alloc_fail construct_default _ _ _ _ Hal). }
  split; [|split; [done|by apply is_list_nodes]].
  destruct Hwf as [Hinv Hheap]. destruct Hl as (_ & _ & _ & Hh).
  pose proof (allocate_node_spec (alloc l) (astate w) (live w) Hh Hinv) as Ha.
  rewrite Hal in Ha. by split.
Qed.
End MoreOperations.

(** *** What the constructors build *)

Section MoreConstruction.
Context {T E H S : Type} `{!Element T E} `{!Allocator H S}
        `{!AllocatorLaws H S}.
Implicit Types (w : world T E S) (ns : list (addr * T)).

(** A constructor that returns did so from its body. *)
Lemma constructing_ret (this l : List H) (body : M (List H)) w w' :
  constructing this body w = Ret l w' → body w = Ret l w'.
Proof.
  unfold constructing, try_catch.
  destruct (body w) as [l1 w1|w1| |]; try done.
  unfold bind, release, throw.
  destruct (destroy this w1) as [[] w2| | |]; done.
Qed.

Lemma push_back_n_ret n : ∀ h0 L0 w (l : List H) ns v l' w',
  building h0 L0 w l ns → push_back_n n l v w = Ret l' w' →
  ∃ ns', building h0 L0 w' l' (ns ++ ns') ∧ same_obj l l' ∧
         length ns' = n ∧ Forall (copy_of v) (ns'.*2).
Proof.
  induction n as [|n IH]; intros h0 L0 w l ns v l' w' Hb; cbn [push_back_n].
  - intros [= <- <-]. exists []. rewrite app_nil_r.
    split; [done|]. split; [apply same_obj_refl|]. by split.
  - unfold bind. rewrite push_back_insert.
    change (insert l (data l) v w)
      with (insert_with (construct_copy v) l (data l) w).
    pose proof (building_append (construct_copy v) _ _ _ _ _ Hb) as Hstep.
    destruct (drop_iter _) as [l1 w1|w1| |]; try done.
    destruct Hstep as (p & k & Hb' & Hs & Hk). intros Hrun.
    destruct (IH _ _ _ _ _ _ _ _ Hb' Hrun) as (ns' & Hb'' & Hs' & Hlen & Hall).
    exists ((Blk p, k) :: ns'). rewrite <- app_assoc in Hb''.
    split; [done|]. split; [by eapply same_obj_trans|].
    split; [cbn; by rewrite Hlen|]. cbn. apply Forall_cons. split; [|done].
    by eexists _, _.
Qed.

Lemma emplace_back_n_ret n : ∀ h0 L0 w (l : List H) ns l' w',
  building h0 L0 w l ns → emplace_back_n n l w = Ret l' w' →
  ∃ ns', building h0 L0 w' l' (ns ++ ns') ∧ same_obj l l' ∧
         length ns' = n ∧ Forall default_value (ns'.*2).
Proof.
  induction n as [|n IH]; intros h0 L0 w l ns l' w' Hb; cbn [emplace_back_n].
  - intros [= <- <-]. exists []. rewrite app_nil_r.
    split; [done|]. split; [apply same_obj_refl|]. by split.
  - unfold bind. rewrite emplace_back_insert_with.
    pose proof (building_append construct_default _ _ _ _ _ Hb) as Hstep.
    destruct (drop_iter _) as [l1 w1|w1| |]; try done.
    destruct Hstep as (p & k & Hb' & Hs & Hk). intros Hrun.
    destruct (IH _ _ _ _ _ _ _ Hb' Hrun) as (ns' & Hb'' & Hs' & Hlen & Hall).
    exists ((Blk p, k) :: ns'). rewrite <- app_assoc in Hb''.
    split; [done|]. split; [by eapply same_obj_trans|].
    split; [cbn; by rewrite Hlen|]. cbn. apply Forall_cons. split; [|done].
    by eexists _, _.
Qed.

Lemma copy_loop_ret h0 L0 (copy : List H) rest :
  ∀ fuel it w (l : List H) ns l' w',
  building h0 L0 w l ns →
  chain h0 it rest (data copy) →
  copy_loop fuel l copy it w = Ret l' w' →
  ∃ ns', building h0 L0 w' l' (ns ++ ns') ∧ same_obj l l' ∧
         Forall2 (λ k v, copy_of v k) (ns'.*2) (rest.*2).
Proof.
  induction rest as [|[a v] rest IH]; intros fuel it w l ns l' w' Hb Hc;
    (destruct fuel as [|fuel]; [done|]); cbn [copy_loop].
  - cbn in Hc. rewrite decide_True by done. intros [= <- <-].
    exists []. rewrite app_nil_r. split; [done|].
    split; [apply same_obj_refl|]. constructor.
  - cbn in Hc. destruct Hc as (-> & Hne & b & Ha & Hc).
    rewrite decide_False by done.
    pose proof (building_outside _ _ _ _ _ a Hb (mk_is_Some _ _ Ha)) as Hw.
    rewrite Ha in Hw.
    unfold bind at 1, iter_deref, get_key, bind at 1.
    rewrite (load_eval _ _ _ Hw). unfold ret at 1.
    unfold bind at 1. rewrite push_back_insert.
    change (insert l (data l) v w)
      with (insert_with (construct_copy v) l (data l) w).
    pose proof (building_append (construct_copy v) _ _ _ _ _ Hb) as Hstep.
    destruct (drop_iter _) as [l1 w1|w1| |]; try done.
    destruct Hstep as (p & k & Hb' & Hs & Hk).
    pose proof (building_outside _ _ _ _ _ a Hb' (mk_is_Some _ _ Ha))
      as Hw'.
    rewrite Ha in Hw'.
    unfold bind, iter_incr. rewrite (get_next_eval _ _ _ Hw').
    cbn [base_of]. intros Hrun.
    destruct (IH _ _ _ _ _ _ _ Hb' Hc Hrun) as (ns' & Hb'' & Hs' & Hall).
    exists ((Blk p, k) :: ns'). rewrite <- app_assoc in Hb''.
    split; [done|]. split; [by eapply same_obj_trans|].
    cbn. constructor; [|done]. by eexists _, _.
Qed.

Lemma List_init_eval w self (allocator : H) :
  List_init self allocator w
  = Ret (mkList allocator self 0)
      (set_heap (λ h, <[self := Base (mkBase self self)]> h) w).
Proof. done. Qed.

Lemma List_count_value_ret w self n count v (allocator : H) l w' :
  wf_world w → heap w !! self = None → self = Obj n →
  handle_ok allocator →
  List_count_value self count v allocator w = Ret l w' →
  ∃ ns, building (heap w) (live w) w' l ns ∧
        data l = self ∧ alloc l = allocator ∧
        length ns = Z.to_nat count ∧ Forall (copy_of v) (ns.*2).
Proof.
  intros Hwf Hself Hn Hh.
  destruct (List_init_building _ _ _ _ Hwf Hself Hn Hh) as (w1 & Hi & Hb & _).
  unfold List_count_value, bind. rewrite Hi. intros Hrun%constructing_ret.
  destruct (push_back_n_ret _ _ _ _ _ _ _ _ _ Hb Hrun)
    as (ns & Hb' & [Ha Hd] & Hlen & Hall).
  exists ns. cbn in Hb', Ha, Hd. done.
Qed.

Lemma List_count_ret w self n count (allocator : H) l w' :
  wf_world w → heap w !! self = None → self = Obj n →
  handle_ok allocator →
  List_count self count allocator w = Ret l w' →
  ∃ ns, building (heap w) (live w) w' l ns ∧
        data l = self ∧ alloc l = allocator ∧
        length ns = Z.to_nat count ∧ Forall default_value (ns.*2).
Proof.
  intros Hwf Hself Hn Hh.
  destruct (List_init_building _ _ _ _ Hwf Hself Hn Hh) as (w1 & Hi & Hb & _).
  unfold List_count, bind. rewrite Hi. intros Hrun%constructing_ret.
  destruct (emplace_back_n_ret _ _ _ _ _ _ _ _ Hb Hrun)
    as (ns & Hb' & [Ha Hd] & Hlen & Hall).
  exists ns. cbn in Hb', Ha, Hd. done.
Qed.

Lemma List_copy_alloc_ret w self n (copy : List H) nsB (allocator : H) l w' :
  wf_world w → heap w !! self = None → self = Obj n →
  handle_ok allocator → is_list w copy nsB →
  List_copy_alloc self copy allocator w = Ret l w' →
  ∃ ns, building (heap w) (live w) w' l ns ∧
        data l = self ∧ alloc l = allocator ∧
        Forall2 (λ k v, copy_of v k) (ns.*2) (nsB.*2).
Proof.
  intros Hwf Hself Hn Hh Hcopy.
  destruct (List_init_building _ _ _ _ Hwf Hself Hn Hh) as (w1 & Hi & Hb & _).
  unfold List_copy_alloc, bind at 1. rewrite Hi. intros Hrun%constructing_ret.
  pose proof Hcopy as (Hc & _).
  pose proof (cyc_head _ _ _ _ Hc) as Hd.
  pose proof (cyc_chain _ _ _ Hc) as Hch. unfold next_of in Hch.
  rewrite Hd in Hch.
  pose proof (building_outside _ _ _ _ _ (data copy) Hb (mk_is_Some _ _ Hd))
    as Hd1.
  rewrite Hd in Hd1.
  unfold bind, begin in Hrun. rewrite (get_next_eval _ _ _ Hd1) in Hrun.
  destruct (copy_loop_ret _ _ _ _ _ _ _ _ _ _ _ Hb Hch Hrun)
    as (ns & Hb' & [Ha Hdt] & Hall).
  exists ns. cbn in Hb', Ha, Hdt. done.
Qed.

(** A list whose objects and blocks were not touched is the same
    list. *)
Lemma is_list_frame w w' (l : List H) ns :
  is_list w l ns →
  (∀ a, a ∈ data l :: ns.*1 → heap w' !! a = heap w !! a) →
  (∀ p, Blk p ∈ ns.*1 → p ∈ live w → p ∈ live w') →
  is_list w' l ns.
Proof.
  intros ([Hnd Hseg] & Hsz & Hblk & Hh) Hheap Hlive.
  split; [|split; [done|split; [|done]]].
  - split; [done|]. cbn [ring_of] in *.
    eapply seg_frame; [|done]. intros a Ha. apply Hheap.
    by rewrite <- ring_of_fst.
  - intros a Ha. destruct (Hblk a Ha) as (p & -> & Hp). eauto.
Qed.

(** A construction leaves the lists that were there as they were, and
    builds at other addresses. *)
Lemma building_keeps w w' (l l0 : List H) ns ns0 :
  building (heap w) (live w) w' l ns → is_list w l0 ns0 →
  is_list w' l0 ns0 ∧ (∀ a, a ∈ data l :: ns.*1 → a ∉ data l0 :: ns0.*1).
Proof.
  intros Hb Hl0. pose proof Hb as (_ & _ & Hfree & _ & Hlive & _).
  pose proof Hl0 as (Hc & _).
  split.
  - eapply is_list_frame; [done| |].
    + intros a Ha. eapply building_outside; [done|].
      eapply cyc_is_Some; [done|]. by rewrite ring_of_fst.
    + intros p _ Hp. apply Hlive. by left.
  - intros a Ha Hin. apply Hfree in Ha.
    rewrite <- ring_of_fst in Hin.
    eapply cyc_is_Some in Hin as [? ?]; [|done]. congruence.
Qed.

Lemma building_size w0 w (l : List H) ns :
  building (heap w0) (live w0) w l ns → size l = Z.of_nat (length ns).
Proof. by intros (_ & (_ & ? & _) & _). Qed.

Lemma building_elements h0 L0 w (l : List H) ns :
  building h0 L0 w l ns → elements_of w l = Some (ns.*2).
Proof.
  intros (_ & Hl & _). unfold elements_of.
  by rewrite (is_list_nodes _ _ _ Hl).
Qed.

(** X18: when [List(count, value)] returns, the list holds [count]
    elements, each made by the copy constructor from [value], and
    [size()] is [count]; when [List(count)] returns, it holds [count]
    elements made by the default constructor.  Either list uses the
    allocator it was given, and the objects that were there before are
    untouched. *)
Theorem count_constructors_fill w self n count v (allocator : H) l w' :
  wf_world w → heap w !! self = None → self = Obj n →
  handle_ok allocator → 0 ≤ count →
  (List_count_value self count v allocator w = Ret l w' →
   ∃ ks, elements_of w' l = Some ks ∧ Forall (copy_of v) ks ∧
         size l = count ∧ Z.of_nat (length ks) = count ∧
         get_allocator l = allocator ∧
         wf_world w' ∧ (∃ ns, is_list w' l ns) ∧
         ∀ a, is_Some (heap w !! a) → heap w' !! a = heap w !! a) ∧
  (List_count self count allocator w = Ret l w' →
   ∃ ks, elements_of w' l = Some ks ∧ Forall default_value ks ∧
         size l = count ∧ Z.of_nat (length ks) = count ∧
         get_allocator l = allocator ∧
         wf_world w' ∧ (∃ ns, is_list w' l ns) ∧
         ∀ a, is_Some (heap w !! a) → heap w' !! a = heap w !! a).
Proof.
  intros Hwf Hself Hn Hh Hcount. split; intros Hrun.
  - destruct (List_count_value_ret _ _ _ _ _ _ _ _ Hwf Hself Hn Hh Hrun)
      as (ns & Hb & Hd & Ha & Hlen & Hall).
    exists (ns.*2). split; [by eapply building_elements|]. split; [done|].
    rewrite (building_size _ _ _ _ Hb), length_fmap, Hlen.
    do 2 (split; [lia|]). split; [done|].
    pose proof Hb as (Hwf' & Hl' & _). split; [done|]. split; [eauto|].
    intros a Hs. by eapply building_outside.
  - destruct (List_count_ret _ _ _ _ _ _ _ Hwf Hself Hn Hh Hrun)
      as (ns & Hb & Hd & Ha & Hlen & Hall).
    exists (ns.*2). split; [by eapply building_elements|]. split; [done|].
    rewrite (building_size _ _ _ _ Hb), length_fmap, Hlen.
    do 2 (split; [lia|]). split; [done|].
    pose proof Hb as (Hwf' & Hl' & _). split; [done|]. split; [eauto|].
    intros a Hs. by eapply building_outside.
Qed.

(** X28: the default constructor and [List(allocator)] at a free address
    return a well-formed empty list that uses the given allocator:
    [size()] is 0 and [begin()] is [end()].  They construct no element and
    ask nothing of the allocator: the allocation state, the allocated
    blocks and the state of the element type are as before, and so is every
    object that was there. *)
Theorem default_constructor_builds_empty_list w self n (allocator : H) :
  wf_world w → heap w !! self = None → self = Obj n →
  handle_ok allocator →
  ∃ l w',
    List_new self allocator w = Ret l w' ∧
    size l = 0 ∧ get_allocator l = allocator ∧ data l = self ∧
    begin l w' = Ret (data l) w' ∧ nodes w' l = Some [] ∧
    astate w' = astate w ∧ live w' = live w ∧ estate w' = estate w ∧
    (∀ a, a ≠ self → heap w' !! a = heap w !! a) ∧
    wf_world w' ∧ is_list w' l [].
Proof.
  intros Hwf Hself Hn Hh.
  destruct (List_init_building _ _ _ _ Hwf Hself Hn Hh)
    as (w' & Hi & (Hwf' & Hl' & _) & He).
  unfold List_new. rewrite Hi. rewrite List_init_eval in Hi.
  injection Hi as <-. eexists _, _. split; [reflexivity|].
  do 3 (split; [done|]).
  split; [by rewrite (begin_eval _ _ _ Hl')|].
  split; [by apply is_list_nodes|]. do 3 (split; [done|]).
  split; [|done]. intros a Ha. unfold set_heap. cbn [heap].
  by rewrite lookup_insert_ne.
Qed.

Lemma Forall2_length_fmap_snd (ns nsB : list (addr * T)) (R : T → T → Prop) :
  Forall2 R (ns.*2) (nsB.*2) → length ns = length nsB.
Proof. intros Hl%Forall2_length. by rewrite !length_fmap in Hl. Qed.

(** X19: when a copy constructor returns, the new list holds, in the same
    order, one element made by the copy constructor from each element of
    the source, and has the size of the source; its sentinel and nodes are
    at addresses the source does not use, and the source is the same list
    as before.  [List(copy, alloc)] uses [alloc], and [List(copy)] the
    allocator [select_on_container_copy_construction] gives for the one of
    the source. *)
Theorem copy_constructor_copies w self n (copy : List H) nsB
    (allocator : H) l w' :
  wf_world w → heap w !! self = None → self = Obj n →
  handle_ok allocator → is_list w copy nsB →
  List_copy_alloc self copy allocator w = Ret l w' ∨
  (allocator = select_on_container_copy_construction (alloc copy) ∧
   List_copy self copy w = Ret l w') →
  ∃ ns,
    nodes w' l = Some ns ∧
    Forall2 (λ k v, copy_of v k) (ns.*2) (nsB.*2) ∧
    size l = size copy ∧
    get_allocator l = allocator ∧
    (∀ a, a ∈ data l :: ns.*1 → a ∉ data copy :: nsB.*1) ∧
    nodes w' copy = Some nsB ∧
    wf_world w' ∧ is_list w' l ns ∧ is_list w' copy nsB.
Proof.
  intros Hwf Hself Hn Hh Hcopy Hrun.
  assert (List_copy_alloc self copy allocator w = Ret l w') as Hrun'.
  { destruct Hrun as [?|[-> ?]]; done. }
  destruct (List_copy_alloc_ret _ _ _ _ _ _ _ _ Hwf Hself Hn Hh Hcopy Hrun')
    as (ns & Hb & Hd & Ha & Hall).
  pose proof Hb as (Hwf' & Hl' & _).
  destruct (building_keeps _ _ _ _ _ _ Hb Hcopy) as [Hcopy' Hdisj].
  exists ns. split; [by apply is_list_nodes|]. split; [done|].
  split.
  { rewrite (building_size _ _ _ _ Hb).
    destruct Hcopy as (_ & Hsz & _). unfold size. rewrite Hsz.
    by rewrite (Forall2_length_fmap_snd _ _ _ Hall). }
  split; [done|]. split; [done|]. split; [by apply is_list_nodes|]. done.
Qed.

(** The destructor of a list that was built at a free address undoes the
    construction. *)
Lemma teardown_spec h0 L0 w (l : List H) ns :
  building h0 L0 w l ns →
  ∃ w', List_destructor l w = Ret tt w' ∧ heap w' = h0 ∧ live w' = L0 ∧
        alloc_inv (astate w') (live w').
Proof.
  intros (Hwf & Hl & Hfree & Hframe & Hlive & Hold).
  destruct (destroy_spec _ _ _ Hwf Hl)
    as (w1 & Hrun & Hheap & Hlive1 & [Hinv1 _] & _).
  unfold List_destructor, bind. rewrite Hrun. unfold release.
  eexists. split; [done|]. unfold set_heap. cbn [heap live astate].
  split; [|split; [|done]].
  - apply map_eq. intros a. rewrite lookup_delete.
    case_decide as Ha.
    + subst. symmetry. apply Hfree. left.
    + rewrite Hheap. case_decide as Hin.
      * symmetry. apply Hfree. by right.
      * apply Hframe. intros [?|?]%elem_of_cons; congruence.
  - apply set_eq. intros p. rewrite Hlive1, Hlive.
    split; [intros [[?|?] ?]; done|]. intros Hp.
    split; [by left|by apply Hold].
Qed.

(** X20: the destructor undoes a construction: after a bulk constructor
    returned a list at a free address, the destructor of that list returns
    and the heap and the set of allocated blocks are those from before the
    construction. *)
Theorem constructed_then_destroyed_restores w self n count v
    (copy : List H) nsB (allocator : H) l w1 :
  wf_world w → heap w !! self = None → self = Obj n →
  handle_ok allocator → is_list w copy nsB →
  List_count self count allocator w = Ret l w1 ∨
  List_count_value self count v allocator w = Ret l w1 ∨
  List_copy_alloc self copy allocator w = Ret l w1 →
  ∃ w2, List_destructor l w1 = Ret tt w2 ∧
        heap w2 = heap w ∧ live w2 = live w ∧ wf_world w2.
Proof.
  intros Hwf Hself Hn Hh Hcopy Hrun.
  assert (∃ ns, building (heap w) (live w) w1 l ns) as [ns Hb].
  { destruct Hrun as [Hrun|[Hrun|Hrun]].
    - destruct (List_count_ret _ _ _ _ _ _ _ Hwf Hself Hn Hh Hrun)
        as (ns & ? & _). eauto.
    - destruct (List_count_value_ret _ _ _ _ _ _ _ _ Hwf Hself Hn Hh Hrun)
        as (ns & ? & _). eauto.
    - destruct (List_copy_alloc_ret _ _ _ _ _ _ _ _ Hwf Hself Hn Hh Hcopy
                  Hrun) as (ns & ? & _). eauto. }
  destruct (teardown_spec _ _ _ _ _ Hb) as (w2 & Hd & Hheap & Hlive & Hinv).
  exists w2. do 3 (split; [done|]). split; [done|].
  intros p. rewrite Hheap, Hlive. by apply Hwf.
Qed.
End MoreConstruction.

(** *** Copy assignment *)

Section Assignment.
Context {T E H S : Type} `{!Element T E} `{!Allocator H S}
        `{!AllocatorLaws H S}.
Implicit Types (w : world T E S) (ns : list (addr * T)).

Lemma set_next_ok w a v :
  is_Some (heap w !! a) → set_next a v w = Ret tt (set_heap (link_next a v) w).
Proof. intros [o Ho]. by eapply set_next_eval. Qed.

Lemma set_prev_ok w a v :
  is_Some (heap w !! a) → set_prev a v w = Ret tt (set_heap (link_prev a v) w).
Proof. intros [o Ho]. by eapply set_prev_eval. Qed.

Lemma swap_base_eval w a b x y :
  heap w !! a = Some x → heap w !! b = Some y →
  swap_base a b w
  = Ret tt (set_heap (λ h, <[b := with_base y (base_of x)]>
                             (<[a := with_base x (base_of y)]> h)) w).
Proof.
  intros Ha Hb. unfold swap_base, bind at 1. rewrite (load_eval _ _ _ Ha).
  unfold bind at 1. rewrite (load_eval _ _ _ Hb). done.
Qed.

(** The heap [operator=] leaves when its temporary was built: the two
    sentinels exchanged, the ends of the new nodes linked to the sentinel of
    the target, and the last old node linked to the sentinel of the
    temporary. *)
Lemma assign_body_eval (this copy res : List H) res_addr w w1
    lastA firstA lastR firstR :
  List_copy_alloc res_addr copy
    (if propagate_on_container_copy_assignment
     then alloc copy else alloc this) w = Ret res w1 →
  heap w1 !! data this = Some (Base (mkBase lastA firstA)) →
  heap w1 !! data res = Some (Base (mkBase lastR firstR)) →
  data this ≠ data res →
  firstR ≠ data this → firstR ≠ data res → is_Some (heap w1 !! firstR) →
  lastR ≠ data this → lastR ≠ data res → is_Some (heap w1 !! lastR) →
  lastA ≠ data this → lastA ≠ data res → is_Some (heap w1 !! lastA) →
  assign_body this copy res_addr w
  = Ret (mkList (alloc res) (data this) (sz res),
         mkList (alloc this) (data res) (sz res))
      (set_heap (λ h,
         link_next lastA (data res)
           (link_next lastR (data this)
              (link_prev firstR (data this)
                 (<[data res := Base (mkBase lastA firstA)]>
                    (<[data this := Base (mkBase lastR firstR)]> h))))) w1).
Proof.
  intros Hcopy HA HR Hne HfA HfR [oF HF] HlA HlR [oL HL] HaA HaR [oA HoA].
  unfold assign_body, bind at 1. rewrite Hcopy. cbn [data sz alloc set_sz].
  unfold bind at 1. rewrite (swap_base_eval _ _ _ _ _ HA HR).
  cbn [with_base base_of].
  set (h2 := <[data res := Base (mkBase lastA firstA)]>
               (<[data this := Base (mkBase lastR firstR)]> (heap w1))).
  assert (h2 !! data this = Some (Base (mkBase lastR firstR))) as HA2.
  { subst h2. rewrite lookup_insert_ne by done. apply lookup_insert_eq. }
  assert (h2 !! data res = Some (Base (mkBase lastA firstA))) as HR2.
  { subst h2. apply lookup_insert_eq. }
  assert (∀ a, a ≠ data this → a ≠ data res → h2 !! a = heap w1 !! a) as Hfr.
  { intros a ??. subst h2. by rewrite !lookup_insert_ne. }
  unfold bind at 1. erewrite get_next_eval by (cbn; exact HA2).
  cbn [base_of next].
  unfold bind at 1. rewrite set_prev_ok
    by (unfold set_heap; cbn [heap]; fold h2; rewrite Hfr by done; eauto).
  unfold bind at 1. erewrite get_prev_eval.
  2:{ unfold set_heap; cbn [heap]; fold h2. rewrite link_prev_at.
      rewrite decide_False by done. exact HA2. }
  cbn [base_of prev].
  unfold bind at 1. rewrite set_next_ok.
  2:{ unfold set_heap; cbn [heap]; fold h2.
      apply link_prev_is_Some. rewrite Hfr by done. eauto. }
  unfold bind at 1. erewrite get_prev_eval.
  2:{ unfold set_heap; cbn [heap]; fold h2.
      rewrite link_next_at, link_prev_at, !decide_False by done. exact HR2. }
  cbn [base_of prev].
  unfold bind at 1. rewrite set_next_ok.
  2:{ unfold set_heap; cbn [heap]; fold h2.
      apply link_next_is_Some, link_prev_is_Some. rewrite Hfr by done.
      eauto. }
  unfold ret, set_heap. cbn [heap astate estate live]. done.
Qed.

Lemma seg_set_prev (h : gmap addr (object T)) prv prv' a k r' nxt :
  seg h prv ((a, k) :: r') nxt → a ∉ r'.*1 →
  seg (link_prev a prv' h) prv' ((a, k) :: r') nxt.
Proof.
  cbn. intros [Ha Hr] Hnin. split.
  - rewrite link_prev_at, decide_True, Ha by done. cbn.
    by rewrite base_of_obj_of, with_base_obj_of.
  - eapply seg_frame; [|done]. intros b Hb.
    rewrite link_prev_at, decide_False; [done|]. by intros ->.
Qed.

Lemma seg_set_next (h : gmap addr (object T)) prv r z kz nxt nxt' :
  seg h prv (r ++ [(z, kz)]) nxt → z ∉ r.*1 →
  seg (link_next z nxt' h) prv (r ++ [(z, kz)]) nxt'.
Proof.
  rewrite !seg_snoc. intros [Hr Hz] Hnin. split.
  - eapply seg_frame; [|done]. intros b Hb.
    rewrite link_next_at, decide_False; [done|]. by intros ->.
  - rewrite link_next_at, decide_True, Hz by done. cbn.
    by rewrite base_of_obj_of, with_base_obj_of.
Qed.

Lemma hd_elem_of {A} (l : list A) d : l ≠ [] → List.hd d l ∈ l.
Proof. destruct l; [done|]. intros _. left. Qed.

Lemma last_elem_of_ne {A} (l : list A) d : l ≠ [] → List.last l d ∈ l.
Proof.
  intros Hl. destruct (exists_last Hl) as (l' & x & ->).
  rewrite last_snoc. apply elem_of_app. right. left.
Qed.

(** Relinking both ends of a non-empty run of nodes. *)
Lemma seg_relink (h : gmap addr (object T)) prv nxt prv' nxt'
    (ns : list (addr * T)) :
  ns ≠ [] → NoDup (ns.*1) →
  seg h prv (map (λ n, (n.1, Some n.2)) ns) nxt →
  seg (link_next (List.last (ns.*1) nxt') nxt'
         (link_prev (List.hd prv' (ns.*1)) prv' h))
    prv' (map (λ n, (n.1, Some n.2)) ns) nxt'.
Proof.
  intros Hne Hnd Hseg.
  destruct (exists_last Hne) as (ns0 & [z kz] & ->).
  rewrite fmap_app. change ([(z, kz)].*1) with [z]. rewrite last_snoc.
  rewrite fmap_app in Hnd. apply NoDup_app in Hnd as (Hnd0 & Hz & _).
  rewrite map_app in Hseg |- *. cbn [map fst snd] in Hseg |- *.
  apply (seg_set_next _ _ _ _ _ nxt).
  2:{ rewrite map_node_fst. intros Hin. eapply Hz; [done|left]. }
  destruct ns0 as [|[a k] ns0]; cbn [map app fmap list_fmap List.hd fst snd].
  - apply (seg_set_prev _ prv); [done|apply not_elem_of_nil].
  - apply (seg_set_prev _ prv); [done|].
    rewrite fmap_app, map_node_fst. cbn.
    cbn in Hnd0. apply NoDup_cons in Hnd0 as [Ha _].
    intros [?|[->|[]%elem_of_nil]%elem_of_cons]%elem_of_app; [done|].
    eapply Hz; [left|left].
Qed.

Lemma seg_relink_next (h : gmap addr (object T)) prv nxt nxt' d
    (ns : list (addr * T)) :
  ns ≠ [] → NoDup (ns.*1) →
  seg h prv (map (λ n, (n.1, Some n.2)) ns) nxt →
  seg (link_next (List.last (ns.*1) d) nxt' h)
    prv (map (λ n, (n.1, Some n.2)) ns) nxt'.
Proof.
  intros Hne Hnd Hseg.
  destruct (exists_last Hne) as (ns0 & [z kz] & ->).
  rewrite fmap_app. change ([(z, kz)].*1) with [z]. rewrite last_snoc.
  rewrite fmap_app in Hnd. apply NoDup_app in Hnd as (Hnd0 & Hz & _).
  rewrite map_app in Hseg |- *. cbn [map fst snd] in Hseg |- *.
  apply (seg_set_next _ _ _ _ _ nxt); [done|].
  rewrite map_node_fst. intros Hin. eapply Hz; [done|left].
Qed.

Lemma hd_default {A} (l : list A) d d' : l ≠ [] → List.hd d l = List.hd d' l.
Proof. by destruct l. Qed.

Lemma last_default {A} (l : list A) d d' :
  l ≠ [] → List.last l d = List.last l d'.
Proof.
  intros Hl. destruct (exists_last Hl) as (l' & x & ->).
  by rewrite !last_snoc.
Qed.

Lemma cyc_intro (h : gmap addr (object T)) (l : List H) ns :
  NoDup (data l :: ns.*1) →
  h !! data l
  = Some (Base (mkBase (List.last (ns.*1) (data l))
                       (List.hd (data l) (ns.*1)))) →
  seg h (data l) (map (λ n, (n.1, Some n.2)) ns) (data l) →
  cyc h (ring_of l ns).
Proof.
  intros Hnd Hs Hseg. split; [by rewrite ring_of_fst|].
  unfold ring_of. cbn [seg]. split; [|done].
  rewrite fmap_cons, last_cons_default, map_node_fst. done.
Qed.

Lemma cyc_seg (h : gmap addr (object T)) (l : List H) ns :
  cyc h (ring_of l ns) →
  NoDup (data l :: ns.*1) ∧
  seg h (data l) (map (λ n, (n.1, Some n.2)) ns) (data l).
Proof.
  intros [Hnd Hseg]. rewrite ring_of_fst in Hnd. split; [done|].
  unfold ring_of in Hseg. cbn [seg] in Hseg. by destruct Hseg.
Qed.

(** X21: [operator=] between lists that are not empty, the target and the
    source being different lists or the same one.  Once the temporary copy
    is built, [operator=] returns; the target keeps its sentinel, becomes a
    well-formed list of the new nodes, which hold copies of the elements of
    the source in order, has the size of the source and the allocator
    chosen by [propagate_on_container_copy_assignment]; its old nodes are
    destroyed and deallocated through its old allocator, and the temporary
    is gone.  A source that shares nothing with the target is the same list
    as before. *)
Theorem assign_copies_between_nonempty_lists w (this copy : List H)
    nsA nsB res_addr n res w1 :
  wf_world w → is_list w this nsA → is_list w copy nsB →
  nsA ≠ [] → nsB ≠ [] →
  heap w !! res_addr = None → res_addr = Obj n →
  let chosen := if propagate_on_container_copy_assignment
                then alloc copy else alloc this in
  List_copy_alloc res_addr copy chosen w = Ret res w1 →
  ∃ this' w' ns,
    operator_assign this copy res_addr w = Ret this' w' ∧
    nodes w' this' = Some ns ∧
    Forall2 (λ k v, copy_of v k) (ns.*2) (nsB.*2) ∧
    size this' = size copy ∧ data this' = data this ∧
    get_allocator this' = chosen ∧
    (∀ a, a ∈ res_addr :: nsA.*1 → heap w' !! a = None) ∧
    (∀ p, p ∈ live w' ↔ (p ∈ live w ∧ Blk p ∉ nsA.*1) ∨ Blk p ∈ ns.*1) ∧
    wf_world w' ∧ is_list w' this' ns ∧
    ((∀ a, a ∈ data copy :: nsB.*1 → a ∉ data this :: nsA.*1) →
     is_list w' copy nsB).
Proof.
  intros Hwf HA HB HneA HneB Hres Hn chosen Hcopy.
  assert (handle_ok chosen ∧ handle_ok (alloc this)) as [Hh HhA].
  { destruct HA as (_ & _ & _ & ?), HB as (_ & _ & _ & ?). subst chosen.
    by destruct propagate_on_container_copy_assignment. }
  destruct (List_copy_alloc_ret _ _ _ _ _ _ _ _ Hwf Hres Hn Hh HB Hcopy)
    as (nsR & Hb & Hd & Hal & Hall).
  assert (nsR ≠ []) as HneR.
  { intros ->. apply Forall2_length in Hall. rewrite !length_fmap in Hall.
    by destruct nsB. }
  destruct (building_keeps _ _ _ _ _ _ Hb HA) as [HA1 HdisjA].
  destruct (building_keeps _ _ _ _ _ _ Hb HB) as [HB1 HdisjB].
  pose proof Hb as ([Hinv1 Hheap1] & HR1 & Hfree & Hframe & Hlive & Hold).
  destruct (sentinel_links _ _ _ HA1) as ([pA nA] & HsA & HnA & HpA & _ & _).
  destruct (sentinel_links _ _ _ HR1) as ([pR nR] & HsR & HnR & HpR & _ & _).
  cbn [next prev] in HnA, HpA, HnR, HpR. subst pA nA pR nR.
  pose proof HA1 as (HcA & HszA & HblkA & _).
  pose proof HR1 as (HcR & HszR & HblkR & _).
  destruct (cyc_seg _ _ _ HcA) as [HndA HsegA].
  destruct (cyc_seg _ _ _ HcR) as [HndR HsegR].
  apply NoDup_cons in HndA as [HsA_nin HndA].
  apply NoDup_cons in HndR as [HsR_nin HndR].
  set (sA := data this) in *. set (sR := data res) in *.
  set (firstR := List.hd sR (nsR.*1)) in *.
  set (lastR := List.last (nsR.*1) sR) in *.
  set (firstA := List.hd sA (nsA.*1)) in *.
  set (lastA := List.last (nsA.*1) sA) in *.
  assert (nsA.*1 ≠ []) as HneA1 by by destruct nsA.
  assert (nsR.*1 ≠ []) as HneR1 by by destruct nsR.
  assert (firstR ∈ nsR.*1) as HfR by by apply hd_elem_of.
  assert (lastR ∈ nsR.*1) as HlR by by apply last_elem_of_ne.
  assert (lastA ∈ nsA.*1) as HlA by by apply last_elem_of_ne.
  assert (∀ a, a ∈ nsR.*1 → a ≠ sA ∧ a ≠ sR ∧ (a ∉ nsA.*1)
                            ∧ is_Some (heap w1 !! a)) as HinR.
  { intros a Ha. split; [|split; [|split]].
    - intros ->. eapply HdisjA; [by right|left].
    - by intros ->.
    - intros Hin. eapply HdisjA; [by right|by right].
    - eapply cyc_is_Some; [exact HcR|]. rewrite ring_of_fst. by right. }
  assert (∀ a, a ∈ nsA.*1 → a ≠ sA ∧ a ≠ sR ∧ (a ∉ nsR.*1)
                            ∧ is_Some (heap w1 !! a)) as HinA.
  { intros a Ha. split; [|split; [|split]].
    - by intros ->.
    - intros ->. eapply HdisjA; [left|by right].
    - intros Hin. by eapply HinR.
    - eapply cyc_is_Some; [exact HcA|]. rewrite ring_of_fst. by right. }
  assert (sA ≠ sR) as Hne.
  { intros Heq. eapply HdisjA; [left|]. fold sR. rewrite <- Heq. left. }
  destruct (HinR _ HfR) as (HfR1 & HfR2 & HfR3 & HfR4).
  destruct (HinR _ HlR) as (HlR1 & HlR2 & HlR3 & HlR4).
  destruct (HinA _ HlA) as (HlA1 & HlA2 & HlA3 & HlA4).
  unfold operator_assign, bind at 1.
  rewrite (assign_body_eval this copy res res_addr w w1 lastA firstA
             lastR firstR Hcopy HsA HsR) by done.
  cbn [fst snd]. fold sA sR.
  set (h2 := <[sR := Base (mkBase lastA firstA)]>
               (<[sA := Base (mkBase lastR firstR)]> (heap w1))).
  set (h3 := link_next lastA sR
               (link_next lastR sA (link_prev firstR sA h2))).
  assert (∀ a, a ≠ sA → a ≠ sR → h2 !! a = heap w1 !! a) as Hfr2.
  { intros a ??. subst h2. by rewrite !lookup_insert_ne. }
  assert (∀ a, is_Some (h3 !! a) ↔ is_Some (heap w1 !! a)) as Hdom.
  { intros a. subst h3 h2.
    rewrite !link_next_is_Some, link_prev_is_Some.
    rewrite !lookup_insert_is_Some'.
    split; [intros [->|[->|?]]; eauto|by auto]. }
  assert (h3 !! sA = Some (Base (mkBase lastR firstR))) as HsA3.
  { subst h3. rewrite !link_next_at, link_prev_at, !decide_False by done.
    subst h2. rewrite lookup_insert_ne by done. apply lookup_insert_eq. }
  assert (h3 !! sR = Some (Base (mkBase lastA firstA))) as HsR3.
  { subst h3. rewrite !link_next_at, link_prev_at, !decide_False by done.
    subst h2. apply lookup_insert_eq. }
  assert (seg h3 sA (map (λ n, (n.1, Some n.2)) nsR) sA) as HsegR3.
  { subst h3. eapply seg_frame.
    { intros a Ha. rewrite map_node_fst in Ha.
      rewrite link_next_at, decide_False; [done|].
      intros <-. by eapply HinR. }
    replace firstR with (List.hd sA (nsR.*1)) by by apply hd_default.
    replace lastR with (List.last (nsR.*1) sA) by by apply last_default.
    apply (seg_relink _ sR sR); [done|done|].
    eapply seg_frame; [|exact HsegR]. intros a Ha.
    rewrite map_node_fst in Ha. apply Hfr2; by eapply HinR. }
  assert (chain h3 firstA nsA sR) as HchA.
  { replace firstA with (List.hd sR (nsA.*1)) by by apply hd_default.
    apply (seg_chain _ sA);
      [|intros Hin; by destruct (HinA _ Hin) as (_ & ? & _)].
    subst h3. apply (seg_relink_next _ _ sA); [done|done|].
    eapply seg_frame; [|exact HsegA]. intros a Ha.
    rewrite map_node_fst in Ha. destruct (HinA _ Ha) as (? & ? & ? & _).
    rewrite link_next_at, link_prev_at, !decide_False;
      [by apply Hfr2| |]; by intros <-. }
  set (w3 := set_heap _ w1).
  assert (heap w3 = h3) as Hw3 by done.
  unfold bind at 1, List_destructor, bind at 1, destroy, bind at 1.
  cbn [data].
  rewrite (get_next_eval w3 sR (Base (mkBase lastA firstA)))
    by by rewrite Hw3.
  cbn [base_of next data].
  destruct (destroy_loop_spec (mkList (alloc this) sR (sz res)) nsA firstA w3
              (Datatypes.S (stdpp.base.size (heap w3))))
    as (w4 & Hrun & Hheap4 & Hlive4 & Hinv4 & _); try done.
  { rewrite <- (length_fmap fst), Hw3.
    pose proof (length_le_size h3 (nsA.*1) HndA) as Hle.
    apply Nat.lt_succ_r, Hle. intros a Ha. apply Hdom. by eapply HinA. }
  rewrite Hrun. unfold release, ret.
  rewrite Hw3 in Hheap4. change (live w3) with (live w1) in Hlive4.
  eexists _, _, nsR. split; [reflexivity|].
  unfold set_heap. cbn [heap live astate estate data sz alloc size
                        get_allocator].
  assert (∀ a, a ∈ sA :: nsR.*1 →
               delete sR (heap w4) !! a = h3 !! a) as Hkeep.
  { intros a Ha. assert (a ≠ sR ∧ a ∉ nsA.*1) as [??].
    { apply elem_of_cons in Ha as [->|Ha]; [done|].
      by destruct (HinR _ Ha) as (_ & ? & ? & _). }
    rewrite lookup_delete_ne, Hheap4, decide_False by done. done. }
  assert (is_list (mkWorld (delete sR (heap w4)) (astate w4) (estate w4)
                     (live w4))
            (mkList (alloc res) sA (sz res)) nsR) as Hnew.
  { split; [|split; [done|split; [|by rewrite Hal]]].
    - apply cyc_intro; cbn [data heap].
      + apply NoDup_cons. split; [|done]. intros Hin.
        by destruct (HinR _ Hin) as (? & _).
      + rewrite Hkeep by left.
        replace (List.last (nsR.*1) sA) with lastR by by apply last_default.
        replace (List.hd sA (nsR.*1)) with firstR by by apply hd_default.
        done.
      + eapply seg_frame; [|exact HsegR3]. intros a Ha.
        rewrite map_node_fst in Ha. apply Hkeep. by right.
    - intros a Ha. destruct (HblkR a Ha) as (p & -> & Hp).
      exists p. split; [done|]. cbn [live]. apply Hlive4.
      split; [done|]. by destruct (HinR _ Ha) as (_ & _ & ? & _). }
  split; [by apply is_list_nodes|]. split; [done|].
  split.
  { destruct HB as (_ & HszB & _). unfold size. rewrite HszB, HszR.
    apply Forall2_length in Hall. rewrite !length_fmap in Hall. lia. }
  split; [done|]. split; [done|]. split.
  { intros a [->|Ha]%elem_of_cons.
    - rewrite <- Hd. apply lookup_delete_eq.
    - rewrite lookup_delete_ne
        by (intros <-; by destruct (HinA _ Ha) as (_ & ? & _)).
      by rewrite Hheap4, decide_True. }
  split.
  { intros p. rewrite Hlive4, Hlive. split.
    - intros [[?|?] ?]; [by left|by right].
    - intros [[? ?]|Hin]; [split; [by left|done]|].
      split; [by right|]. by destruct (HinR _ Hin) as (_ & _ & ? & _). }
  split.
  { split; [done|]. cbn [heap live]. intros p [o Hp].
    apply lookup_delete_Some in Hp as [_ Hp]. rewrite Hheap4 in Hp.
    case_decide as Hin; [done|]. apply Hlive4. split; [|done].
    apply Hheap1, Hdom. eauto. }
  split; [done|]. intros HdisjAB.
  eapply is_list_frame; [exact HB1| |].
  - intros a Ha. cbn [heap].
    assert (a ≠ sA ∧ a ∉ nsA.*1) as [HaA HaA'].
    { apply HdisjAB in Ha. by apply not_elem_of_cons in Ha. }
    assert (a ≠ sR ∧ a ∉ nsR.*1) as [HaR HaR'].
    { split; [intros ->|intros Hin]; (eapply HdisjB; [|exact Ha]);
        [left|by right]. }
    rewrite lookup_delete_ne, Hheap4, decide_False by done.
    subst h3. rewrite !link_next_at, link_prev_at, !decide_False;
      [by apply Hfr2| | |]; by intros <-.
  - intros p Hin Hp. cbn [live]. apply Hlive4. split; [done|].
    intros Hin'. eapply (HdisjAB (Blk p)); by right.
Qed.
End Assignment.

(** *** Iterators *)

Section MoreIterators.
Context {T E H S : Type} `{!Element T E} `{!Allocator H S}
        `{!AllocatorLaws H S}.
Implicit Types (w : world T E S) (ns : list (addr * T)).

(** The links around a position of a well-formed list. *)
Lemma position_links (l : List H) (l1 l2 : list (addr * T)) w :
  is_list w l (l1 ++ l2) →
  let pos := List.hd (data l) (l2.*1) in
  let before := List.last (l1.*1) (data l) in
  iter_decr pos w = Ret before w ∧ iter_incr before w = Ret pos w.
Proof.
  intros (Hc & _) pos before.
  pose proof (ring_prev _ _ _ _ Hc) as Hprev.
  pose proof (ring_prev_next _ _ _ _ Hc) as Hnext.
  destruct (ring_pos _ _ _ _ Hc) as (o & Ho & [oq Hq]).
  unfold prev_of in Hprev. rewrite Ho in Hprev.
  unfold next_of in Hnext. rewrite <- Hprev, Hq in Hnext.
  unfold iter_decr, iter_incr. subst pos before.
  rewrite (get_prev_eval _ _ _ Ho), Hprev. split; [done|].
  rewrite <- Hprev, (get_next_eval _ _ _ Hq), Hnext. done.
Qed.

(** X22: on every iterator of a well-formed list, [end()] included, [++]
    and [--] are defined and undo each other, and both stay among the
    iterators of the list: the ring has no end to fall off.  The postfix
    forms return the iterator as it was and step like the prefix ones. *)
Theorem increment_and_decrement_are_inverse (l : List H) ns it w :
  is_list w l ns → it ∈ data l :: ns.*1 →
  ∃ nx pv,
    nx ∈ data l :: ns.*1 ∧ pv ∈ data l :: ns.*1 ∧
    iter_incr it w = Ret nx w ∧ iter_decr nx w = Ret it w ∧
    iter_decr it w = Ret pv w ∧ iter_incr pv w = Ret it w ∧
    iter_post_incr it w = Ret (it, nx) w ∧
    iter_post_decr it w = Ret (it, pv) w.
Proof.
  intros Hl Hit.
  assert (∃ l1 l2, ns = l1 ++ l2 ∧ it = List.hd (data l) (l2.*1))
    as (l1 & l2 & -> & ->).
  { apply elem_of_cons in Hit as [->|Hin].
    - exists ns, []. by rewrite app_nil_r.
    - apply elem_of_fst_split in Hin as (l1 & v & l2 & ->).
      by exists l1, ((it, v) :: l2). }
  destruct (position_links _ _ _ _ Hl) as [Hdec Hinc].
  assert (∃ l1' l2', l1 ++ l2 = l1' ++ l2' ∧
            List.last (l1'.*1) (data l) = List.hd (data l) (l2.*1) ∧
            List.hd (data l) (l2'.*1) ∈ data l :: (l1 ++ l2).*1)
    as (l1' & l2' & Heq & Hlast & Hin').
  { destruct l2 as [|[a v] l2].
    - exists [], l1. rewrite app_nil_r. split; [done|]. split; [done|].
      destruct l1 as [|[]]; cbn; [left|right; left].
    - exists (l1 ++ [(a, v)]), l2. rewrite <- app_assoc. split; [done|].
      rewrite fmap_app. change ([(a, v)].*1) with [a]. rewrite last_snoc.
      split; [done|]. rewrite !fmap_app, fmap_cons.
      destruct l2 as [|[]]; cbn; [left|].
      right. apply elem_of_app. right. right. left. }
  pose proof Hl as Hl'. rewrite Heq in Hl'.
  destruct (position_links _ _ _ _ Hl') as [Hdec' Hinc'].
  rewrite Hlast in Hdec', Hinc'.
  exists (List.hd (data l) (l2'.*1)), (List.last (l1.*1) (data l)).
  split; [done|]. split.
  { rewrite fmap_app.
    destruct (exists_last_or_nil l1) as [->|(l0 & [q vq] & ->)].
    - left.
    - rewrite fmap_app. change ([(q, vq)].*1) with [q]. rewrite last_snoc.
      right. apply elem_of_app. left. apply elem_of_app. right. left. }
  do 4 (split; [done|]).
  split; [by unfold iter_post_incr, bind; rewrite Hinc'|].
  by unfold iter_post_decr, bind; rewrite Hdec.
Qed.

(** X23: [begin()] and [cbegin()] give the first node, or [end()] when
    there is none; [++end()] is [begin()] and [--end()] is the last node;
    [begin() == end()] holds exactly when [size()] is 0, which is exactly
    when the list has no node. *)
Theorem begin_is_end_iff_empty (l : List H) ns w :
  is_list w l ns →
  let b := List.hd (data l) (ns.*1) in
  begin l w = Ret b w ∧ cbegin l w = Ret b w ∧
  end_ l w = Ret (data l) w ∧ cend l w = Ret (data l) w ∧
  iter_incr (data l) w = Ret b w ∧
  iter_decr (data l) w = Ret (List.last (ns.*1) (data l)) w ∧
  (iter_eq b (data l) = true ↔ size l = 0) ∧
  (size l = 0 ↔ ns = []).
Proof.
  intros Hl b. pose proof (begin_eval _ _ _ Hl) as Hb.
  destruct (position_links l ns [] w) as [Hdec _].
  { by rewrite app_nil_r. }
  do 5 (split; [done|]). split; [done|].
  pose proof Hl as ([Hnd _] & Hsz & _). rewrite ring_of_fst in Hnd.
  apply NoDup_cons in Hnd as [Hnin _]. unfold size. rewrite Hsz.
  unfold iter_eq. rewrite bool_decide_eq_true. subst b.
  destruct ns as [|[a v] ns]; cbn in *.
  - done.
  - split; split; try done; try lia. intros ->. destruct Hnin. left.
Qed.

(** The key of a node and the link forward from it. *)
Lemma node_of_position (l : List H) (l1 : list (addr * T)) q vq l2 w :
  is_list w l (l1 ++ (q, vq) :: l2) →
  q ≠ data l ∧ iter_deref q w = Ret vq w ∧
  iter_incr q w = Ret (List.hd (data l) (l2.*1)) w.
Proof.
  intros (Hc & _). destruct (ring_node _ _ _ _ _ _ Hc) as (b & Hb & Hn).
  pose proof Hc as [Hnd _]. rewrite ring_of_fst in Hnd.
  apply NoDup_cons in Hnd as [Hnin _]. split.
  { intros ->. apply Hnin. rewrite fmap_app, fmap_cons.
    apply elem_of_app. right. left. }
  unfold iter_deref, get_key, bind, iter_incr.
  rewrite (load_eval _ _ _ Hb), (get_next_eval _ _ _ Hb). by rewrite <- Hn.
Qed.

Lemma traverse_forward (l : List H) w (l2 : list (addr * T)) :
  ∀ (l1 : list (addr * T)) fuel,
  is_list w l (l1 ++ l2) → (length l2 < fuel)%nat →
  traverse iter_deref iter_incr fuel (List.hd (data l) (l2.*1)) (data l) w
  = Ret (l2.*2) w.
Proof.
  induction l2 as [|[q vq] l2 IH]; intros l1 fuel Hl Hf;
    (destruct fuel as [|fuel]; [cbn in Hf; lia|]); cbn [traverse].
  - cbn. unfold iter_eq. by rewrite bool_decide_eq_true_2.
  - cbn [fmap list_fmap List.hd fst].
    destruct (node_of_position _ _ _ _ _ _ Hl) as (Hne & Hd & Hi).
    unfold iter_eq. rewrite bool_decide_eq_false_2 by done.
    unfold bind at 1. rewrite Hd. unfold bind at 1. rewrite Hi.
    unfold bind. rewrite (IH (l1 ++ [(q, vq)]));
      [done|by rewrite <- app_assoc|cbn in Hf; lia].
Qed.

Lemma riter_deref_eval w current tmp v :
  iter_decr current w = Ret tmp w → iter_deref tmp w = Ret v w →
  riter_deref current w = Ret v w.
Proof. intros Hd Hv. unfold riter_deref, bind. by rewrite Hd. Qed.

Lemma riter_incr_eval w current tmp :
  iter_decr current w = Ret tmp w → riter_incr current w = Ret tmp w.
Proof. done. Qed.

Lemma traverse_reverse (l : List H) w (l1 : list (addr * T)) :
  ∀ (l2 : list (addr * T)) fuel,
  is_list w l (l1 ++ l2) → (length l1 < fuel)%nat →
  traverse riter_deref riter_incr fuel (List.hd (data l) (l2.*1))
    (List.hd (data l) ((l1 ++ l2).*1)) w
  = Ret (reverse (l1.*2)) w.
Proof.
  induction l1 as [|[q vq] l1 IH] using rev_ind; intros l2 fuel Hl Hf;
    (destruct fuel as [|fuel]; [cbn in Hf; lia|]); cbn [traverse].
  - cbn. unfold iter_eq. by rewrite bool_decide_eq_true_2.
  - rewrite length_app in Hf. cbn in Hf.
    destruct (position_links _ _ _ _ Hl) as [Hdec _].
    rewrite fmap_app in Hdec. change ([(q, vq)].*1) with [q] in Hdec.
    rewrite last_snoc in Hdec.
    pose proof Hl as Hl'. rewrite <- app_assoc in Hl'. cbn in Hl'.
    destruct (node_of_position _ _ _ _ _ _ Hl') as (Hne & Hd & _).
    assert (List.hd (data l) (l2.*1)
            ≠ List.hd (data l) (((l1 ++ [(q, vq)]) ++ l2).*1)) as Hneq.
    { pose proof Hl as ([Hnd _] & _). rewrite ring_of_fst in Hnd.
      rewrite <- app_assoc, fmap_app in Hnd |- *. cbn in Hnd |- *.
      set (r := l1.*1 ++ q :: l2.*1) in *.
      assert (∃ a r', r = a :: r' ∧ List.hd (data l) (l2.*1) ∈ data l :: r'
                      ∧ (a ∈ r' → False)) as (a & r' & Hr & Hin & Ha).
      { subst r. apply NoDup_cons in Hnd as [_ Hnd].
        destruct l1 as [|[a1 v1] l1]; cbn in *.
        - apply NoDup_cons in Hnd as [? _]. eexists _, _. split; [done|].
          split; [|done]. destruct l2 as [|[]]; cbn; [left|right; left].
        - apply NoDup_cons in Hnd as [? _]. eexists _, _. split; [done|].
          split; [|done]. destruct l2 as [|[]]; cbn; [left|].
          right. apply elem_of_app. right. right. left. }
      rewrite Hr in Hnd |- *. cbn. intros Heq. rewrite Heq in Hin.
      apply NoDup_cons in Hnd as [Hd0 Hnd].
      apply elem_of_cons in Hin as [->|Hin]; [|done].
      apply Hd0. left. }
    unfold iter_eq. rewrite bool_decide_eq_false_2 by done.
    unfold bind at 1. rewrite (riter_deref_eval _ _ _ _ Hdec Hd).
    unfold bind at 1. rewrite (riter_incr_eval _ _ _ Hdec).
    rewrite <- app_assoc. cbn [app].
    specialize (IH ((q, vq) :: l2) fuel Hl' ltac:(lia)).
    cbn [fmap list_fmap List.hd fst] in IH. unfold bind. rewrite IH.
    unfold ret. do 2 f_equal. rewrite fmap_app, reverse_app. done.
Qed.

(** X24: the loop from [begin()] to [end()] reads the elements of a
    well-formed list in order and stops, and the loop from [rbegin()] to
    [rend()] reads them in the reverse order and stops; neither needs more
    steps than the list has elements. *)
Theorem traversals_visit_in_order (l : List H) ns w fuel :
  is_list w l ns → (length ns < fuel)%nat →
  ∃ b e,
    begin l w = Ret b w ∧ end_ l w = Ret e w ∧
    rbegin l w = Ret e w ∧ rend l w = Ret b w ∧
    traverse iter_deref iter_incr fuel b e w = Ret (ns.*2) w ∧
    traverse riter_deref riter_incr fuel e b w = Ret (reverse (ns.*2)) w.
Proof.
  intros Hl Hf. pose proof (begin_eval _ _ _ Hl) as Hb.
  exists (List.hd (data l) (ns.*1)), (data l).
  do 4 (split; [done|]). split.
  - by apply (traverse_forward l w ns []).
  - pose proof (traverse_reverse l w ns [] fuel) as Hr.
    rewrite app_nil_r in Hr. by apply Hr.
Qed.
End MoreIterators.

(** *** The element types of the tests: Counted and Explosive *)

Section ElementState.
Context {T E H S : Type} `{!Element T E} `{!Allocator H S}
        `{!AllocatorLaws H S}.
Implicit Types (w : world T E S) (ns : list (addr * T)).

(** The element state when [insert_with] throws: untouched if the
    allocation failed, and otherwise what the failed constructor left. *)
Lemma insert_with_raise_estate ctor (l : List H) pos w w' :
  insert_with ctor l pos w = Raise w' →
  estate w' = estate w ∨ ctor (estate w) = (None, estate w').
Proof.
  unfold insert_with, bind at 1, NodeTraits_allocate.
  destruct (allocate_node (alloc l) (astate w)) as [p s|s|]; [| |done].
  2:{ intros [= <-]. by left. }
  unfold bind at 1, try_catch, bind at 1, get_prev, bind at 1, load.
  cbn [heap estate astate live].
  destruct (heap w !! pos) as [o|]; [|done]. unfold ret at 1.
  unfold NodeTraits_construct_with. cbn [heap estate astate live].
  destruct (ctor (estate w)) as [[k|] e] eqn:Hc.
  - unfold bind at 1, get_prev, bind at 1, load. cbn [heap].
    destruct (_ !! pos); [|done]. unfold ret at 1.
    unfold bind at 1, set_next, bind at 1, load. cbn [heap].
    destruct (_ !! prev _); [|done]. unfold store. cbn [heap set_heap].
    unfold bind at 1, set_prev, bind at 1, load. cbn [heap set_heap].
    destruct (_ !! pos); done.
  - unfold bind at 1, NodeTraits_deallocate. cbn [live astate].
    case_decide; [|done].
    destruct (deallocate_node _ _ _) as [[] s'| |]; try done.
    unfold throw. intros [= <-]. by right.
Qed.
End ElementState.

Section CountedFacts.
Context {H S : Type} `{!Allocator H S} `{!AllocatorLaws H S}.
Variable WhenThrow : Z.
#[local] Instance counted_element : Element unit Z := Counted WhenThrow.
Implicit Types (w : world unit Z S) (ns : list (addr * unit)).

Lemma counted_ctor (counter : Z) :
  let ctor := @construct_default _ _ counted_element in
  (ctor counter = (None, counter) ∧ counter + 1 = WhenThrow) ∨
  (ctor counter = (Some tt, counter + 1) ∧ counter + 1 ≠ WhenThrow).
Proof.
  cbn. destruct (Z.eqb_spec (counter + 1) WhenThrow); [left|right].
  - split; [f_equal; lia|done].
  - done.
Qed.

Lemma counted_destroy ns (counter : Z) :
  foldl (λ e (n : addr * unit), @destruct _ _ counted_element n.2 e) counter ns
  = counter - Z.of_nat (length ns).
Proof.
  revert counter. induction ns as [|n ns IH]; intros counter; cbn [foldl length].
  - lia.
  - rewrite IH. cbn. lia.
Qed.

Lemma counted_copy_ctor (v : unit) :
  @construct_copy _ _ counted_element v
  = @construct_default _ _ counted_element.
Proof. done. Qed.

Lemma counted_step (l : List H) h0 L0 w ns :
  building h0 L0 w l ns →
  match drop_iter (insert_with construct_default l (data l) w) with
  | Ret l' w' =>
      ∃ ns', building h0 L0 w' l' ns' ∧ same_obj l l' ∧
             length ns' = Datatypes.S (length ns) ∧
             estate w' = estate w + 1 ∧ estate w + 1 ≠ WhenThrow
  | Raise w' => building h0 L0 w' l ns ∧ estate w' = estate w
  | _ => False
  end.
Proof.
  intros Hb.
  pose proof (building_append construct_default _ _ _ _ _ Hb) as Hstep.
  pose proof (insert_with_raise_estate construct_default l (data l) w)
    as Hraise.
  destruct (insert_with _ l (data l) w) as [r w'|w'| |]; cbn in *; try done.
  - destruct Hstep as (p & k & Hb' & Hs & Hk).
    eexists. split; [done|]. split; [done|].
    split; [rewrite length_app; cbn; lia|].
    destruct (counted_ctor (estate w)) as [[Hc _]|[Hc ?]];
      cbn in Hc, Hk; rewrite Hc in Hk; [done|].
    by injection Hk as _ <-.
  - split; [done|]. destruct (Hraise _ eq_refl) as [?|Hk]; [done|].
    destruct (counted_ctor (estate w)) as [[Hc _]|[Hc ?]];
      cbn in Hc, Hk; rewrite Hc in Hk; [|done].
    by injection Hk as <-.
Qed.

Lemma counted_emplace_back_n n : ∀ h0 L0 w (l : List H) ns,
  building h0 L0 w l ns →
  match emplace_back_n n l w with
  | Ret l' w' =>
      ∃ ns', building h0 L0 w' l' ns' ∧ same_obj l l' ∧
             estate w' = estate w + Z.of_nat n ∧
             length ns' = (length ns + n)%nat ∧
             (∀ i, 0 < i ≤ Z.of_nat n → estate w + i ≠ WhenThrow)
  | Raise w' =>
      ∃ l' ns', building h0 L0 w' l' ns' ∧ same_obj l l' ∧
                estate w' - Z.of_nat (length ns')
                = estate w - Z.of_nat (length ns)
  | _ => False
  end.
Proof.
  induction n as [|n IH]; intros h0 L0 w l ns Hb; cbn [emplace_back_n].
  - unfold ret. exists ns. split; [done|]. split; [apply same_obj_refl|].
    repeat split; lia.
  - unfold bind. rewrite emplace_back_insert_with.
    pose proof (counted_step _ _ _ _ _ Hb) as Hstep.
    destruct (drop_iter _) as [l1 w1|w1| |]; try done.
    + destruct Hstep as (ns1 & Hb1 & Hs1 & Hlen & He & Hne).
      specialize (IH _ _ _ _ _ Hb1).
      destruct (emplace_back_n n l1 w1) as [l2 w2|w2| |]; try done.
      * destruct IH as (ns2 & Hb2 & Hs2 & He2 & Hlen2 & Hne2).
        exists ns2. split; [done|]. split; [by eapply same_obj_trans|].
        do 2 (split; [lia|]). intros i Hi.
        destruct (decide (i = 1)) as [->|]; [done|].
        replace (estate w + i) with (estate w1 + (i - 1)) by lia.
        apply Hne2. lia.
      * destruct IH as (l2 & ns2 & Hb2 & Hs2 & He2).
        exists l2, ns2. split; [done|]. split; [by eapply same_obj_trans|].
        lia.
    + destruct Hstep as [Hb1 He]. exists l, ns.
      split; [done|]. split; [apply same_obj_refl|]. lia.
Qed.

Lemma counted_push_back_n n : ∀ h0 L0 w (l : List H) ns v,
  building h0 L0 w l ns →
  match push_back_n n l v w with
  | Ret l' w' =>
      ∃ ns', building h0 L0 w' l' ns' ∧ same_obj l l' ∧
             estate w' = estate w + Z.of_nat n ∧
             length ns' = (length ns + n)%nat ∧
             (∀ i, 0 < i ≤ Z.of_nat n → estate w + i ≠ WhenThrow)
  | Raise w' =>
      ∃ l' ns', building h0 L0 w' l' ns' ∧ same_obj l l' ∧
                estate w' - Z.of_nat (length ns')
                = estate w - Z.of_nat (length ns)
  | _ => False
  end.
Proof.
  induction n as [|n IH]; intros h0 L0 w l ns v Hb; cbn [push_back_n].
  - unfold ret. exists ns. split; [done|]. split; [apply same_obj_refl|].
    repeat split; lia.
  - unfold bind. rewrite push_back_insert.
    change (insert l (data l) v w)
      with (insert_with construct_default l (data l) w).
    pose proof (counted_step _ _ _ _ _ Hb) as Hstep.
    destruct (drop_iter _) as [l1 w1|w1| |]; try done.
    + destruct Hstep as (ns1 & Hb1 & Hs1 & Hlen & He & Hne).
      specialize (IH _ _ _ _ _ v Hb1).
      destruct (push_back_n n l1 v w1) as [l2 w2|w2| |]; try done.
      * destruct IH as (ns2 & Hb2 & Hs2 & He2 & Hlen2 & Hne2).
        exists ns2. split; [done|]. split; [by eapply same_obj_trans|].
        do 2 (split; [lia|]). intros i Hi.
        destruct (decide (i = 1)) as [->|]; [done|].
        replace (estate w + i) with (estate w1 + (i - 1)) by lia.
        apply Hne2. lia.
      * destruct IH as (l2 & ns2 & Hb2 & Hs2 & He2).
        exists l2, ns2. split; [done|]. split; [by eapply same_obj_trans|].
        lia.
    + destruct Hstep as [Hb1 He]. exists l, ns.
      split; [done|]. split; [apply same_obj_refl|]. lia.
Qed.

(** What a bulk constructor of a list of [Counted] does to the counter. *)
Lemma counted_constructing w0 w (this : List H) (body : M (List H)) k :
  (match body w with
   | Ret l' w' =>
       ∃ ns', building (heap w0) (live w0) w' l' ns' ∧ same_obj this l' ∧
              estate w' = estate w0 + Z.of_nat k ∧ length ns' = k ∧
              (∀ i, 0 < i ≤ Z.of_nat k → estate w0 + i ≠ WhenThrow)
   | Raise w' =>
       ∃ l' ns', building (heap w0) (live w0) w' l' ns' ∧ same_obj this l' ∧
                 estate w' - Z.of_nat (length ns') = estate w0
   | _ => False
   end) →
  match constructing this body w with
  | Ret l w' =>
      estate w' = estate w0 + Z.of_nat k ∧
      (∀ i, 0 < i ≤ Z.of_nat k → estate w0 + i ≠ WhenThrow) ∧
      ∃ w'', List_destructor l w' = Ret tt w'' ∧ estate w'' = estate w0
  | Raise w' => estate w' = estate w0
  | _ => False
  end.
Proof.
  unfold constructing, try_catch.
  destruct (body w) as [l' w'|w'| |]; try done.
  - intros (ns' & Hb & Hs & He & Hlen & Hne). do 2 (split; [done|]).
    pose proof Hb as (Hwf' & Hl' & _).
    destruct (destroy_spec _ _ _ Hwf' Hl') as (w1 & Hrun & _ & _ & _ & Hest).
    unfold List_destructor, bind. rewrite Hrun. unfold release.
    eexists. split; [done|]. unfold set_heap. cbn [estate].
    rewrite Hest, counted_destroy. lia.
  - intros (l' & ns' & Hb & Hs & He).
    pose proof Hb as (Hwf' & Hl' & _).
    destruct (destroy_spec _ _ _ Hwf' Hl') as (w1 & Hrun & _ & _ & _ & Hest).
    assert (same_obj l' this) as Hs' by (destruct Hs; by split).
    rewrite <- (destroy_same_obj _ _ _ Hs') in Hrun.
    unfold bind at 1. rewrite Hrun. unfold bind, release, throw.
    unfold set_heap. cbn [estate]. rewrite Hest, counted_destroy. lia.
Qed.

(** X25: for a list of [Counted<WhenThrow>], the static counter follows the
    live objects through [List(count)] and [List(count, value)]: when the
    constructor returns, the counter grew by [count], it never met
    [WhenThrow] on the way, and the destructor of the list brings it back;
    when the constructor throws, the counter is what it was before the
    call. *)
Theorem counted_counter_counts_live_objects w self n count v
    (allocator : H) :
  wf_world w → heap w !! self = None → self = Obj n →
  handle_ok allocator →
  let k := Z.of_nat (Z.to_nat count) in
  match List_count self count allocator w with
  | Ret l w' =>
      estate w' = estate w + k ∧
      (∀ i, 0 < i ≤ k → estate w + i ≠ WhenThrow) ∧
      ∃ w'', List_destructor l w' = Ret tt w'' ∧ estate w'' = estate w
  | Raise w' => estate w' = estate w
  | _ => False
  end ∧
  match List_count_value self count v allocator w with
  | Ret l w' =>
      estate w' = estate w + k ∧
      (∀ i, 0 < i ≤ k → estate w + i ≠ WhenThrow) ∧
      ∃ w'', List_destructor l w' = Ret tt w'' ∧ estate w'' = estate w
  | Raise w' => estate w' = estate w
  | _ => False
  end.
Proof.
  intros Hwf Hself Hn Hh k.
  destruct (List_init_building _ _ _ _ Hwf Hself Hn Hh)
    as (w1 & Hi & Hb & He1).
  split.
  - unfold List_count, bind. rewrite Hi.
    apply (counted_constructing w w1 _ _ (Z.to_nat count)).
    pose proof (counted_emplace_back_n (Z.to_nat count) _ _ _ _ _ Hb) as Hloop.
    destruct (emplace_back_n _ _ _) as [l' w'|w'| |]; try done.
    + destruct Hloop as (ns' & ? & ? & ? & ? & Hne).
      exists ns'. rewrite <- He1. done.
    + destruct Hloop as (l' & ns' & ? & ? & Hinv).
      exists l', ns'. do 2 (split; [done|]).
      rewrite Hinv, He1. cbn. lia.
  - unfold List_count_value, bind. rewrite Hi.
    apply (counted_constructing w w1 _ _ (Z.to_nat count)).
    pose proof (counted_push_back_n (Z.to_nat count) _ _ _ _ _ v Hb) as Hloop.
    destruct (push_back_n _ _ _ _) as [l' w'|w'| |]; try done.
    + destruct Hloop as (ns' & ? & ? & ? & ? & Hne).
      exists ns'. rewrite <- He1. done.
    + destruct Hloop as (l' & ns' & ? & ? & Hinv).
      exists l', ns'. do 2 (split; [done|]).
      rewrite Hinv, He1. cbn. lia.
Qed.
End CountedFacts.

Section ExplosiveFacts.
Context {H S : Type} `{!Allocator H S} `{!AllocatorLaws H S}.
#[local] Existing Instance Explosive.
Implicit Types (w : world bool bool S) (ns : list (addr * bool)).

(** X26: [Explosive] never explodes through the list.  [List(count)] with
    [count > 0] throws and leaves the heap, the blocks and the flag
    [exploded] as they were; the default constructor of the list builds no
    element and asks nothing of the allocator; [push_back] throws and
    leaves the list and the flag as they were.  No destructor runs on an
    element whose constructor threw. *)
Theorem explosive_never_explodes w self n count (allocator : H)
    (l : List H) ns safe :
  wf_world w → heap w !! self = None → self = Obj n →
  handle_ok allocator → is_list w l ns →
  (0 < count →
   ∃ w', List_count self count allocator w = Raise w' ∧
         estate w' = estate w ∧ heap w' = heap w ∧ live w' = live w) ∧
  (∃ w', List_new self allocator w = Ret (mkList allocator self 0) w' ∧
         estate w' = estate w ∧ astate w' = astate w ∧ live w' = live w) ∧
  (∃ w', push_back l safe w = Raise w' ∧
         estate w' = estate w ∧ heap w' = heap w ∧ live w' = live w ∧
         nodes w' l = Some ns).
Proof.
  intros Hwf Hself Hn Hh Hl. split; [|split].
  - intros Hcount.
    destruct (List_init_building _ _ _ _ Hwf Hself Hn Hh)
      as (w1 & Hi & Hb & He1).
    unfold List_count, bind. rewrite Hi.
    destruct (Z.to_nat count) as [|k] eqn:Hk; [lia|].
    cbn [emplace_back_n]. unfold constructing, try_catch, bind at 1.
    rewrite emplace_back_insert_with.
    pose proof (building_append construct_default _ _ _ _ _ Hb) as Hstep.
    pose proof (insert_with_raise_estate construct_default
                  (mkList allocator self 0) self w1) as Hraise.
    cbn [data] in *.
    destruct (insert_with _ _ self w1) as [r w2|w2| |]; cbn in Hstep |- *;
      try done.
    { by destruct Hstep as (? & ? & _ & _ & ?). }
    pose proof Hstep as (Hwf2 & Hl2 & _).
    destruct (rollback_spec (R := List H) _ _ _ _ (mkList allocator self 0)
                _ Hstep (same_obj_refl _)) as (w3 & Hroll & Hheap & Hlive & _).
    destruct (destroy_spec _ _ _ Hwf2 Hl2) as (w2' & Hrun & _ & _ & _ & Hest).
    unfold bind at 1 in Hroll. unfold bind at 1.
    rewrite Hrun in Hroll |- *.
    unfold bind, release, throw in Hroll |- *. injection Hroll as <-.
    eexists. split; [done|]. split; [|done].
    unfold set_heap. cbn [estate]. rewrite Hest. cbn.
    destruct (Hraise _ eq_refl) as [->|[= <-]]; done.
  - eexists. split; [reflexivity|done].
  - rewrite push_back_insert.
    pose proof (insert_cases l ns [] safe w Hwf) as Hcases.
    rewrite app_nil_r in Hcases. specialize (Hcases Hl).
    cbn [fmap list_fmap List.hd] in Hcases.
    pose proof (insert_with_raise_estate (construct_copy safe) l (data l) w)
      as Hraise.
    change (insert_with (construct_copy safe) l (data l) w)
      with (insert l (data l) safe w) in Hraise.
    destruct (insert l (data l) safe w) as [r w'|w'| |]; cbn; try done.
    { by destruct Hcases as (? & ? & _ & _ & _ & ? & _). }
    destruct Hcases as (Hheap & Hlive & _).
    exists w'. split; [done|]. split.
    { destruct (Hraise _ eq_refl) as [->|[= <-]]; done. }
    do 2 (split; [done|]). apply is_list_nodes. by eapply is_list_ext.
Qed.
End ExplosiveFacts.


(** *** StackAllocator as the allocator of a list *)

Section StackLaws.
Variables (N sizeofNode alignofNode base : Z).
Hypothesis align_pos : 0 < alignofNode.
Hypothesis size_pos : 0 < sizeofNode.
Hypothesis base_nonneg : 0 ≤ base.
Hypothesis fits : base + N + alignofNode + sizeofNode ≤ 2 ^ 64.

#[local] Existing Instance stack_allocator.
Abbreviation inv := (stack_inv N sizeofNode base).

Lemma stack_allocate_spec (a : Arena.StackAllocator) m L :
  Arena.st a = base → inv m L →
  match Arena.allocate N sizeofNode alignofNode a 1 m with
  | Ok p m' => (p ∉ L) ∧ inv m' (L ∪ {[p]})
  | Throw m' => inv m' L
  | Undefined => False
  end.
Proof.
  intros Ha (s & Hs & Hu & Hin & Hdis).
  pose proof (ArenaFacts.padding_of_range alignofNode align_pos (Arena.size s))
    as Hp.
  rewrite (ArenaFacts.allocate_in_range N sizeofNode alignofNode align_pos
             ltac:(lia) ltac:(lia) a 1 m s) by (rewrite ?Ha; (done || lia)).
  case_decide as Hfit; [by exists s|].
  set (pad := Arena.padding_of alignofNode (Arena.size s)) in *.
  rewrite Ha. split.
  - intros Hel. apply Hin in Hel. lia.
  - eexists. split; [apply lookup_insert_eq|]. cbn [Arena.size].
    split; [lia|]. split.
    + intros p [Hp'| ->%elem_of_singleton]%elem_of_union; [|lia].
      apply Hin in Hp'. lia.
    + intros p q [Hp'| ->%elem_of_singleton]%elem_of_union
                 [Hq'| ->%elem_of_singleton]%elem_of_union Hne.
      * by apply Hdis.
      * apply Hin in Hp'. lia.
      * apply Hin in Hq'. lia.
      * done.
Qed.

Lemma stack_deallocate_spec (a : Arena.StackAllocator) m L p :
  Arena.st a = base → inv m L → p ∈ L →
  ∃ m', Arena.deallocate sizeofNode a p 1 m = Ok tt m' ∧
        inv m' (L ∖ {[p]}).
Proof.
  intros Ha (s & Hs & Hu & Hin & Hdis) Hp.
  pose proof (Hin p Hp) as Hpr.
  unfold Arena.deallocate. rewrite Ha, Hs, Z.mul_1_l.
  rewrite (wrap_small (p + _)), (wrap_small (base + _)) by lia.
  destruct (Z.eqb_spec (p + sizeofNode) (base + Arena.size s)) as [Htail|_].
  - rewrite (wrap_small sizeofNode), (wrap_small (Arena.size s - _)) by lia.
    eexists. split; [done|].
    eexists. split; [apply lookup_insert_eq|]. cbn [Arena.size].
    split; [lia|]. split.
    + intros q [Hq Hne]%difference_singleton_elem.
      pose proof (Hin q Hq). destruct (Hdis p q Hp Hq) as [?|?]; [done|lia|lia].
    + intros q r [Hq _]%difference_singleton_elem
                 [Hr _]%difference_singleton_elem. by apply Hdis.
  - eexists. split; [done|].
    exists s. split; [done|]. split; [done|]. split.
    + intros q [Hq _]%difference_singleton_elem. by apply Hin.
    + intros q r [Hq _]%difference_singleton_elem
                 [Hr _]%difference_singleton_elem. by apply Hdis.
Qed.

Lemma stack_inv_bound m L :
  inv m L → Z.of_nat (stdpp.base.size L) < 2 ^ 64.
Proof.
  intros (s & _ & Hu & Hin & _).
  assert (L ⊆ list_to_set (seqZ base N)) as Hsub.
  { intros p Hp. apply elem_of_list_to_set, elem_of_seqZ.
    apply Hin in Hp. lia. }
  apply subseteq_size in Hsub.
  rewrite size_list_to_set in Hsub by apply NoDup_seqZ.
  rewrite length_seqZ in Hsub. lia.
Qed.

(** [StackAllocator] handles on the storage at [base] are a lawful
    allocator for the list. *)
Definition stack_allocator_laws
    : @AllocatorLaws Arena.StackAllocator (gmap Z Arena.StackStorage)
        (stack_allocator N sizeofNode alignofNode).
Proof.
  refine {| handle_ok := λ a, Arena.st a = base;
            alloc_inv := stack_inv N sizeofNode base |}.
  - exact stack_allocate_spec.
  - exact stack_deallocate_spec.
  - exact stack_inv_bound.
  - intros a Ha. exact Ha.
Defined.
End StackLaws.

(** *** Lists over the arena *)

Section AllocatorCalls.
Context {T E H S : Type} `{!Element T E} `{!Allocator H S}
        `{!AllocatorLaws H S}.
Implicit Types (w : world T E S) (ns : list (addr * T)).


End AllocatorCalls.

Section StackLists.
Variables (N sizeofNode alignofNode base : Z).
Hypothesis align_pos : 0 < alignofNode.
Hypothesis size_pos : 0 < sizeofNode.
Hypothesis base_nonneg : 0 ≤ base.
Hypothesis fits : base + N + alignofNode + sizeofNode ≤ 2 ^ 64.

#[local] Instance node_allocator
    : Allocator Arena.StackAllocator (gmap Z Arena.StackStorage) :=
  stack_allocator N sizeofNode alignofNode.
#[local] Instance node_allocator_laws
    : @AllocatorLaws Arena.StackAllocator (gmap Z Arena.StackStorage)
        node_allocator :=
  stack_allocator_laws N sizeofNode alignofNode base align_pos size_pos
    base_nonneg fits.

(** X8: a [StackAllocator] serving nodes keeps them apart.  Under the
    invariant of the arena, [allocate(1)] either throws and changes nothing
    or returns a block inside the buffer that lies above every allocated
    block; [deallocate] of an allocated block returns; and both keep the
    invariant: the allocated blocks lie below the cursor and do not
    overlap. *)
Theorem stack_allocator_keeps_blocks_apart (a : Arena.StackAllocator) m L :
  Arena.st a = base → stack_inv N sizeofNode base m L →
  match Arena.allocate N sizeofNode alignofNode a 1 m with
  | Ok p m' =>
      base ≤ p ∧ p + sizeofNode ≤ base + N ∧
      (∀ q, q ∈ L → q + sizeofNode ≤ p) ∧
      stack_inv N sizeofNode base m' (L ∪ {[p]})
  | Throw m' => m' = m ∧ stack_inv N sizeofNode base m L
  | Undefined => False
  end ∧
  ∀ q, q ∈ L →
    ∃ m', Arena.deallocate sizeofNode a q 1 m = Ok tt m' ∧
          stack_inv N sizeofNode base m' (L ∖ {[q]}).
Proof.
  intros Ha Hinv. split;
    [|intros q Hq;
      by apply (stack_deallocate_spec N sizeofNode alignofNode base)].
  pose proof (stack_allocate_spec N sizeofNode alignofNode base align_pos
                size_pos base_nonneg fits a m L Ha Hinv) as Hspec.
  destruct Hinv as (s & Hs & Hu & Hin & Hdis).
  pose proof (ArenaFacts.padding_of_range alignofNode align_pos
                (Arena.size s)) as Hp.
  rewrite (ArenaFacts.allocate_in_range N sizeofNode alignofNode align_pos
             ltac:(lia) ltac:(lia) a 1 m s) in Hspec |- *
    by (rewrite ?Ha; (done || lia)).
  case_decide as Hfit.
  - split; [done|]. by exists s.
  - destruct Hspec as [_ Hinv'].
    split; [lia|]. split; [lia|]. split; [|done].
    intros q Hq. apply Hin in Hq. lia.
Qed.

Section Elements.
Context {T E : Type} `{!Element T E}.
Implicit Types (w : world T E (gmap Z Arena.StackStorage)).

End Elements.
End StackLists.

End ListFacts.

(** ** ExceptionalAllocator *)

Module ExceptionalFacts.
Import Exceptional.

Section Actual.
Context {S : Type}.
Variable actual_allocate : Z → S → result S Z.

(** What a returning [allocate] does to the time left. *)
Lemma allocate_spends a n s ptr a' s' :
  0 ≤ m_time_to_exception a < 2 ^ 64 → 0 ≤ n →
  allocate actual_allocate a n s = Allocated ptr (a', s') →
  0 < m_time_to_exception a ∧
  m_time_to_exception a' = Z.max 0 (m_time_to_exception a - n).
Proof.
  intros Ht Hn. unfold allocate.
  destruct (Z.eqb_spec (m_time_to_exception a) 0); [done|].
  destruct (actual_allocate n s); try done. intros [= _ <- _].
  split; [lia|].
  destruct (Z.ltb_spec (m_time_to_exception a) n); cbn; [lia|].
  rewrite wrap_small by lia. lia.
Qed.

(** X27: an allocator made with [time] serves at most [time] allocations: if a
    sequence of requests of at least one element each all return, there
    are at most [time] of them, and the time left is what the requests did
    not use up; once it is zero, every [allocate] throws
    [CustomAllocatorException] and changes nothing. *)
Theorem exceptional_allocator_budget a ns : ∀ s ptrs a' s',
  0 ≤ m_time_to_exception a < 2 ^ 64 →
  Forall (λ n, 1 ≤ n) ns →
  allocate_all actual_allocate a ns s = Some (ptrs, (a', s')) →
  Z.of_nat (length ns) ≤ m_time_to_exception a ∧
  length ptrs = length ns ∧
  m_time_to_exception a'
  = Z.max 0 (m_time_to_exception a - foldr Z.add 0 ns) ∧
  (m_time_to_exception a' = 0 →
   ∀ n s'', allocate actual_allocate a' n s''
            = CustomAllocatorException (a', s'')).
Proof.
  revert a. induction ns as [|n ns IH]; intros a s ptrs a' s' Ht Hns;
    cbn [allocate_all].
  - intros [= <- <- <-]. cbn. split; [lia|]. split; [done|]. split; [lia|].
    intros H0 n s''. unfold allocate. by rewrite H0.
  - apply Forall_cons in Hns as [Hn Hns].
    destruct (allocate actual_allocate a n s) as [ptr [a1 s1]| | |] eqn:Ha;
      try done.
    assert (0 ≤ n) as Hn0 by lia.
    destruct (allocate_spends _ _ _ _ _ _ Ht Hn0 Ha) as [Hpos Ht1].
    destruct (allocate_all actual_allocate a1 ns s1) as [[ptrs1 r]|] eqn:Hr;
      [|done].
    intros [= <- ->].
    assert (0 ≤ m_time_to_exception a1 < 2 ^ 64) as Ht' by lia.
    destruct (IH _ _ _ _ _ Ht' Hns Hr) as (Hlen & Hl & Hleft & Hzero).
    split; [cbn [length]; lia|]. split; [cbn; by rewrite Hl|].
    split; [|done]. rewrite Hleft, Ht1. cbn [foldr].
    assert (0 ≤ foldr Z.add 0 ns).
    { clear -Hns. induction Hns; cbn; lia. }
    lia.
Qed.
End Actual.

(** An allocator made with time 2 serves two single allocations, and then
    throws. *)
Lemma exceptional_allocator_budget_witness :
  let a := ExceptionalAllocator_new 2 in
  allocate_all bump a [1; 1] 0 = Some ([0; 1], (mkExceptional 0, 2)) ∧
  Z.of_nat (length [1; 1]) ≤ 2 ∧
  allocate bump (mkExceptional 0) 1 2
  = CustomAllocatorException (mkExceptional 0, 2).
Proof.
  intros a.
  assert (allocate_all bump a [1; 1] 0 = Some ([0; 1], (mkExceptional 0, 2)))
    as Hrun by reflexivity.
  split; [exact Hrun|].
  destruct (exceptional_allocator_budget bump a [1; 1] 0 [0; 1]
              (mkExceptional 0) 2 ltac:(cbn; lia)
              ltac:(repeat constructor; lia) Hrun)
    as (Hlen & _ & _ & Hzero).
  split; [exact Hlen|]. apply Hzero. reflexivity.
Defined.
End ExceptionalFacts.

(** ** Examples *)

Module DemoFacts.
Import ListModel ListFacts Demo.

(** The arena of the examples is a lawful allocator. *)
Definition arena_laws (N : Z) (HN : 4096 + N + 8 + 24 ≤ 2 ^ 64)
    : @AllocatorLaws Arena.StackAllocator (gmap Z Arena.StackStorage)
        (int_list_allocator N) :=
  stack_allocator_laws N 24 8 4096 ltac:(lia) ltac:(lia) ltac:(lia) HN.

Lemma fits_1024 : 4096 + 1024 + 8 + 24 ≤ 2 ^ 64.
Proof. lia. Qed.

Lemma fits_24 : 4096 + 24 + 8 + 24 ≤ 2 ^ 64.
Proof. lia. Qed.

Section Start.
Context {T E : Type} `{!Element T E} (N : Z) (HN : 4096 + N + 8 + 24 ≤ 2 ^ 64).
Hypothesis N_nonneg : 0 ≤ N.
#[local] Existing Instance int_list_allocator.
#[local] Existing Instance arena_laws.

Lemma start_wf (e : E) :
  wf_world (AllocatorLaws0 := arena_laws N HN) (start (T := T) N e).
Proof.
  split; [|by intros p [? Hp]; cbn in Hp; rewrite lookup_empty in Hp].
  eexists. split; [apply lookup_singleton_eq|]. cbn.
  split; [lia|]. split; [by intros ? ?%not_elem_of_empty|].
  by intros ? ? ?%not_elem_of_empty.
Qed.

Lemma with_fresh_list_wf (e : E) :
  wf_world (AllocatorLaws0 := arena_laws N HN) (with_fresh_list (T := T) N e) ∧
  is_list (AllocatorLaws0 := arena_laws N HN)
    (with_fresh_list (T := T) N e) fresh_list [].
Proof.
  destruct (List_init_building (AllocatorLaws0 := arena_laws N HN)
              (start (T := T) N e) (Obj 0) handle 0 (start_wf e))
    as (w' & Hi & (Hwf & Hl & _) & _); try done.
  unfold List_init, bind, store, ret in Hi. injection Hi as <-. done.
Qed.
End Start.

Section Witnesses.
#[local] Existing Instance int_element.
#[local] Existing Instance arena_1024.
#[local] Instance arena_1024_laws : @AllocatorLaws _ _ arena_1024 :=
  arena_laws 1024 fits_1024.

Abbreviation w1 := (with_fresh_list (T := Z) 1024 tt).

(** Pushing 5 on the fresh list: the node is the first block of the
    arena. *)
Lemma insert_atomic_witness :
  wf_world w1 ∧ is_list w1 fresh_list ([] ++ []) ∧
  ∃ w2, push_back fresh_list 5 w1 = Ret (set_sz fresh_list 1) w2 ∧
        is_list w2 (set_sz fresh_list 1) [(Blk 4096, 5)].
Proof.
  pose proof (with_fresh_list_wf (T := Z) 1024 fits_1024 ltac:(lia) tt)
    as [Hwf Hl].
  change (wf_world w1) in Hwf. change (is_list w1 fresh_list []) in Hl.
  split; [exact Hwf|]. split; [exact Hl|].
  destruct (insert_atomic fresh_list [] [] 5 w1 4096
              {[ 4096 := Arena.mkStorage (replicate 1024 0) 24 ]}
              Hwf Hl eq_refl) as [(_ & Hrun & Hl') [Hpb _]].
  eexists. split; [|exact Hl'].
  cbn [List.hd fmap list_fmap] in Hrun.
  rewrite Hpb, Hrun. reflexivity.
Defined.


Lemma push_5_eval :
  insert fresh_list (Obj 0) 5 w1
  = Ret (Blk 4096, set_sz fresh_list 1) pushed_5.
Proof. vm_compute. reflexivity. Qed.

(** The iterator returned for the pushed 5 designates its node. *)
Lemma insert_returns_new_node_witness :
  wf_world w1 ∧ is_list w1 fresh_list ([] ++ []) ∧
  insert fresh_list (Obj 0) 5 w1
  = Ret (Blk 4096, set_sz fresh_list 1) pushed_5 ∧
  iter_deref (Blk 4096) pushed_5 = Ret 5 pushed_5 ∧
  iter_incr (Blk 4096) pushed_5 = Ret (Obj 0) pushed_5 ∧
  iter_decr (Obj 0) pushed_5 = Ret (Blk 4096) pushed_5.
Proof.
  pose proof (with_fresh_list_wf (T := Z) 1024 fits_1024 ltac:(lia) tt)
    as [Hwf Hl].
  change (wf_world w1) in Hwf. change (is_list w1 fresh_list []) in Hl.
  split; [exact Hwf|]. split; [exact Hl|]. split; [exact push_5_eval|].
  destruct (insert_returns_new_node fresh_list [] [] 5 w1 _ _ Hwf Hl
              push_5_eval) as (k & Hk & _ & Hd & Hi & Hp & _).
  injection Hk as <-. auto.
Defined.

(** After the push the walk meets one node and [size()] is 1. *)
Lemma size_counts_nodes_witness :
  wf_world w1 ∧ is_list w1 fresh_list [] ∧
  reachable w1 fresh_list pushed_5 (set_sz fresh_list 1) ∧
  ∃ ns, nodes pushed_5 (set_sz fresh_list 1) = Some ns ∧
        size (set_sz fresh_list 1) = Z.of_nat (length ns).
Proof.
  pose proof (with_fresh_list_wf (T := Z) 1024 fits_1024 ltac:(lia) tt)
    as [Hwf Hl].
  change (wf_world w1) in Hwf. change (is_list w1 fresh_list []) in Hl.
  assert (reachable w1 fresh_list pushed_5 (set_sz fresh_list 1)) as Hr.
  { eapply (reach_return _ _ _ _ (PushBack 5)); [apply reach_start|exact I|].
    vm_compute. reflexivity. }
  do 3 (split; [assumption|]).
  exact (size_counts_nodes w1 fresh_list [] pushed_5 _ Hwf Hl Hr).
Defined.

Lemma built_nodes (w : world Z unit (gmap Z Arena.StackStorage))
    (l : List Arena.StackAllocator) ns0 :
  (∃ ns, is_list w l ns) → nodes w l = Some ns0 → is_list w l ns0.
Proof.
  intros [ns Hl] Hn. rewrite (is_list_nodes _ _ _ Hl) in Hn.
  by injection Hn as <-.
Qed.

Lemma start_1024_wf : wf_world (start (T := Z) 1024 tt).
Proof. exact (start_wf 1024 fits_1024 ltac:(lia) tt). Qed.

Lemma sevens_world_wf :
  wf_world sevens_world ∧ is_list sevens_world sevens_list [(Blk 4096, 7); (Blk 4120, 7)].
Proof.
  pose proof (List_count_value_all_or_nothing (start 1024 tt) (Obj 0) 0 2 7
                handle start_1024_wf eq_refl eq_refl eq_refl) as Hall.
  assert (List_count_value (Obj 0) 2 7 handle (start 1024 tt)
          = Ret sevens_list sevens_world) as Hrun by (vm_compute; reflexivity).
  rewrite Hrun in Hall. destruct Hall as [Hwf Hl]. split; [done|].
  apply built_nodes; [done|]. vm_compute. reflexivity.
Qed.

Lemma three_world_wf :
  wf_world three_world ∧ is_list three_world three_list three_nodes.
Proof.
  destruct sevens_world_wf as [Hwf Hl].
  pose proof (step_preserves (PushBack 9) sevens_list _ sevens_world Hwf Hl I)
    as Hstep.
  assert (push_back sevens_list 9 sevens_world = Ret three_list three_world)
    as Hrun by (vm_compute; reflexivity).
  cbn [step] in Hstep. rewrite Hrun in Hstep.
  destruct Hstep as [Hwf' Hl']. split; [done|].
  apply built_nodes; [done|]. vm_compute. reflexivity.
Qed.

Lemma w1_wf : wf_world w1 ∧ is_list w1 fresh_list [].
Proof. exact (with_fresh_list_wf (T := Z) 1024 fits_1024 ltac:(lia) tt). Qed.

(** Erasing the middle one of 7, 7, 9. *)
Lemma erase_unlinks_and_frees_witness :
  wf_world three_world ∧
  is_list three_world three_list
    ([(Blk 4096, 7)] ++ (Blk 4120, 7) :: [(Blk 4144, 9)]) ∧
  ∃ w' l',
    erase three_list (Blk 4120) three_world = Ret (Blk 4144, l') w' ∧
    size l' = 2 ∧
    nodes w' l' = Some [(Blk 4096, 7); (Blk 4144, 9)] ∧
    heap w' !! Blk 4120 = None.
Proof.
  destruct three_world_wf as [Hwf Hl]. do 2 (split; [assumption|]).
  destruct (erase_unlinks_and_frees three_list [(Blk 4096, 7)]
              [(Blk 4144, 9)] (Blk 4120) 7 three_world Hwf Hl)
    as (w' & pq & l' & Hrun & _ & Hsz & Hn & Hq & _).
  exists w', l'. auto.
Defined.

(** [pop_back] on 7, 7, 9 leaves 7, 7. *)
Lemma pop_removes_an_end_witness :
  wf_world three_world ∧
  is_list three_world three_list
    ([(Blk 4096, 7); (Blk 4120, 7)] ++ [(Blk 4144, 9)]) ∧
  ∃ w' l',
    pop_back three_list three_world = Ret l' w' ∧
    size l' = 2 ∧
    nodes w' l' = Some [(Blk 4096, 7); (Blk 4120, 7)].
Proof.
  destruct three_world_wf as [Hwf Hl]. do 2 (split; [assumption|]).
  destruct (pop_removes_an_end three_list [(Blk 4096, 7); (Blk 4120, 7)]
              (Blk 4144) 9 three_world Hwf) as [Hback _].
  destruct (Hback Hl) as (w' & pq & l' & Hrun & _ & Hsz & Hn & _).
  exists w', l'. auto.
Defined.

(** On the empty list [erase(end())], [pop_back] and [pop_front] are
    undefined. *)
Lemma erase_end_and_pop_on_empty_undefined_witness :
  is_list w1 fresh_list [] ∧
  erase fresh_list (Obj 0) w1 = UB ∧
  pop_back fresh_list w1 = UB ∧ pop_front fresh_list w1 = UB.
Proof.
  destruct w1_wf as [Hwf Hl]. split; [assumption|].
  destruct (erase_end_and_pop_on_empty_undefined fresh_list [] w1 Hl)
    as [He Hp].
  destruct (Hp eq_refl) as [Hb Hf]. auto.
Defined.

(** [clear] on 7, 7, 9. *)
Lemma clear_empties_and_frees_witness :
  wf_world three_world ∧ is_list three_world three_list three_nodes ∧
  ∃ w' l',
    clear three_list three_world = Ret l' w' ∧
    size l' = 0 ∧ begin l' w' = Ret (data l') w' ∧ is_list w' l' [].
Proof.
  destruct three_world_wf as [Hwf Hl]. do 2 (split; [assumption|]).
  destruct (clear_empties_and_frees three_list three_nodes three_world
              Hwf Hl)
    as (w' & l' & Hrun & Hsz & _ & _ & Hb & _ & _ & _ & _ & Hl').
  exists w', l'. auto.
Defined.

(** The destructor of 7, 7, 9 leaves no object of the list. *)
Lemma destructor_frees_every_node_witness :
  wf_world three_world ∧ is_list three_world three_list three_nodes ∧
  ∃ w',
    List_destructor three_list three_world = Ret tt w' ∧
    heap w' !! Obj 0 = None ∧ heap w' !! Blk 4120 = None.
Proof.
  destruct three_world_wf as [Hwf Hl]. do 2 (split; [assumption|]).
  destruct (destructor_frees_every_node three_list three_nodes three_world
              Hwf Hl) as (w' & Hrun & Hheap & _).
  exists w'. split; [assumption|]. split.
  - rewrite (Hheap (Obj 0)). reflexivity.
  - rewrite (Hheap (Blk 4120)). reflexivity.
Defined.

(** Inserting 5 into the empty list and erasing it again. *)
Lemma insert_then_erase_restores_witness :
  wf_world w1 ∧ is_list w1 fresh_list ([] ++ []) ∧
  insert fresh_list (Obj 0) 5 w1
  = Ret (Blk 4096, set_sz fresh_list 1) pushed_5 ∧
  ∃ w'',
    erase (set_sz fresh_list 1) (Blk 4096) pushed_5
    = Ret (Obj 0, fresh_list) w'' ∧
    heap w'' = heap w1 ∧ live w'' = live w1.
Proof.
  destruct w1_wf as [Hwf Hl]. do 2 (split; [assumption|]).
  split; [exact push_5_eval|].
  destruct (insert_then_erase_restores fresh_list [] [] 5 w1 (Blk 4096)
              (set_sz fresh_list 1) pushed_5 Hwf Hl push_5_eval)
    as (w'' & k & _ & Hrun & Hheap & Hlive & _).
  exists w''. auto.
Defined.

(** [push_back(1)] on 7, 7, 9. *)
Lemma push_back_appends_push_front_prepends_witness :
  wf_world three_world ∧ is_list three_world three_list three_nodes ∧
  ∃ l' w',
    push_back three_list 1 three_world = Ret l' w' ∧
    elements_of w' l' = Some [7; 7; 9; 1] ∧ size l' = 4.
Proof.
  destruct three_world_wf as [Hwf Hl]. do 2 (split; [assumption|]).
  assert (push_back three_list 1 three_world
          = Ret (mkList handle (Obj 0) 4)
              (world_of (push_back three_list 1 three_world) three_world))
    as Hrun by (vm_compute; reflexivity).
  destruct (push_back_appends_push_front_prepends three_list three_nodes 1
              three_world (mkList handle (Obj 0) 4)
              (world_of (push_back three_list 1 three_world) three_world)
              Hwf Hl) as [Hback _].
  destruct (Hback Hrun) as (p & k & Hc & _ & He & Hsz).
  cbn in Hc. assert (k = 1) as -> by congruence.
  eexists _, _. split; [exact Hrun|]. split; assumption.
Defined.

(** [List<int> a;] in the untouched arena. *)
Lemma default_constructor_builds_empty_list_witness :
  wf_world (start (T := Z) 1024 tt) ∧
  ∃ w' : world Z unit (gmap Z Arena.StackStorage),
    List_new (Obj 0) handle (start 1024 tt) = Ret fresh_list w' ∧
    begin fresh_list w' = Ret (Obj 0) w' ∧
    astate w' = astate (start (T := Z) 1024 tt) ∧ is_list w' fresh_list [].
Proof.
  split; [exact start_1024_wf|].
  destruct (default_constructor_builds_empty_list (start 1024 tt) (Obj 0) 0
              handle start_1024_wf eq_refl eq_refl eq_refl)
    as (l & w' & Hrun & _ & _ & _ & Hb & _ & Hm & _ & _ & _ & _ & Hl).
  assert (l = fresh_list) as ->.
  { unfold List_new in Hrun. rewrite List_init_eval in Hrun.
    by injection Hrun as <- _. }
  exists w'. auto.
Defined.

(** [List<int>(2, 7)] holds two copies of 7. *)
Lemma count_constructors_fill_witness :
  wf_world (start (T := Z) 1024 tt) ∧
  List_count_value (Obj 0) 2 7 handle (start 1024 tt)
  = Ret sevens_list sevens_world ∧
  ∃ ks, elements_of sevens_world sevens_list = Some ks ∧
        Forall (copy_of 7) ks ∧ size sevens_list = 2.
Proof.
  assert (List_count_value (Obj 0) 2 7 handle (start 1024 tt)
          = Ret sevens_list sevens_world) as Hrun by (vm_compute; reflexivity).
  do 2 (split; [first [exact start_1024_wf|exact Hrun]|]).
  destruct (count_constructors_fill (start 1024 tt) (Obj 0) 0 2 7 handle
              sevens_list sevens_world start_1024_wf eq_refl eq_refl eq_refl
              ltac:(lia)) as [Hfill _].
  destruct (Hfill Hrun) as (ks & He & Hall & Hsz & _).
  exists ks. auto.
Defined.

(** A copy of 7, 7, 9 at [Obj 1]. *)
Lemma copy_constructor_copies_witness :
  wf_world three_world ∧ is_list three_world three_list three_nodes ∧
  ∃ l w' ns,
    List_copy_alloc (Obj 1) three_list handle three_world = Ret l w' ∧
    nodes w' l = Some ns ∧
    Forall2 (λ k v, copy_of v k) (ns.*2) [7; 7; 9] ∧
    size l = 3 ∧ nodes w' three_list = Some three_nodes.
Proof.
  destruct three_world_wf as [Hwf Hl]. do 2 (split; [assumption|]).
  assert (List_copy_alloc (Obj 1) three_list handle three_world
          = Ret (mkList handle (Obj 1) 3)
              (world_of (List_copy_alloc (Obj 1) three_list handle
                           three_world) three_world))
    as Hrun by (vm_compute; reflexivity).
  destruct (copy_constructor_copies three_world (Obj 1) 1 three_list
              three_nodes handle (mkList handle (Obj 1) 3)
              (world_of (List_copy_alloc (Obj 1) three_list handle
                           three_world) three_world)
              Hwf eq_refl eq_refl eq_refl Hl (or_introl Hrun))
    as (ns & Hn & Hall & Hsz & _ & _ & Hsrc & _).
  eexists _, _, ns. split; [exact Hrun|]. auto.
Defined.

(** [List<int>(2, 7)] next to an empty list, then its destructor. *)
Lemma constructed_then_destroyed_restores_witness :
  wf_world w1 ∧ is_list w1 fresh_list [] ∧
  ∃ l w',
    List_count_value (Obj 1) 2 7 handle w1 = Ret l w' ∧
    ∃ w2, List_destructor l w' = Ret tt w2 ∧
          heap w2 = heap w1 ∧ live w2 = live w1.
Proof.
  destruct w1_wf as [Hwf Hl]. do 2 (split; [assumption|]).
  assert (List_count_value (Obj 1) 2 7 handle w1
          = Ret (mkList handle (Obj 1) 2)
              (world_of (List_count_value (Obj 1) 2 7 handle w1) w1))
    as Hrun by (vm_compute; reflexivity).
  destruct (constructed_then_destroyed_restores w1 (Obj 1) 1 2 7 fresh_list
              [] handle (mkList handle (Obj 1) 2)
              (world_of (List_count_value (Obj 1) 2 7 handle w1) w1)
              Hwf eq_refl eq_refl eq_refl Hl (or_intror (or_introl Hrun)))
    as (w2 & Hd & Hheap & Hlive & _).
  eexists _, _. split; [exact Hrun|]. exists w2. auto.
Defined.

(** Stepping from the middle node of 7, 7, 9 and back. *)
Lemma increment_and_decrement_are_inverse_witness :
  is_list three_world three_list three_nodes ∧
  Blk 4120 ∈ data three_list :: three_nodes.*1 ∧
  ∃ nx pv,
    iter_incr (Blk 4120) three_world = Ret nx three_world ∧
    iter_decr nx three_world = Ret (Blk 4120) three_world ∧
    iter_decr (Blk 4120) three_world = Ret pv three_world ∧
    iter_incr pv three_world = Ret (Blk 4120) three_world.
Proof.
  destruct three_world_wf as [Hwf Hl]. split; [assumption|].
  assert (Blk 4120 ∈ data three_list :: three_nodes.*1) as Hin.
  { right. right. left. }
  split; [exact Hin|].
  destruct (increment_and_decrement_are_inverse three_list three_nodes
              (Blk 4120) three_world Hl Hin)
    as (nx & pv & _ & _ & H1 & H2 & H3 & H4 & _).
  exists nx, pv. auto.
Defined.

(** [begin()] of 7, 7, 9 is its first node, and differs from [end()]. *)
Lemma begin_is_end_iff_empty_witness :
  is_list three_world three_list three_nodes ∧
  begin three_list three_world = Ret (Blk 4096) three_world ∧
  iter_incr (Obj 0) three_world = Ret (Blk 4096) three_world ∧
  iter_decr (Obj 0) three_world = Ret (Blk 4144) three_world ∧
  (iter_eq (Blk 4096) (Obj 0) = true ↔ size three_list = 0).
Proof.
  destruct three_world_wf as [Hwf Hl]. split; [assumption|].
  destruct (begin_is_end_iff_empty three_list three_nodes three_world Hl)
    as (Hb & _ & _ & _ & Hi & Hd & Heq & _).
  auto.
Defined.

(** The elements of 7, 7, 9 read forwards and backwards. *)
Lemma traversals_visit_in_order_witness :
  is_list three_world three_list three_nodes ∧
  traverse iter_deref iter_incr 4 (Blk 4096) (Obj 0) three_world
  = Ret [7; 7; 9] three_world ∧
  traverse riter_deref riter_incr 4 (Obj 0) (Blk 4096) three_world
  = Ret [9; 7; 7] three_world.
Proof.
  destruct three_world_wf as [Hwf Hl]. split; [assumption|].
  destruct (traversals_visit_in_order three_list three_nodes three_world 4
              Hl ltac:(cbn; lia))
    as (b & e & Hb & He & _ & _ & Hf & Hr).
  assert (b = Blk 4096) as ->.
  { assert (begin three_list three_world = Ret (Blk 4096) three_world)
      as Hb' by (vm_compute; reflexivity).
    rewrite Hb' in Hb. by injection Hb. }
  injection He as <-. auto.
Defined.
Lemma world_ab_wf :
  wf_world world_ab ∧
  is_list world_ab list_a [(Blk 4096, 3); (Blk 4120, 3)] ∧
  is_list world_ab list_b [(Blk 4144, 5)].
Proof.
  pose proof (List_count_value_all_or_nothing (start 1024 tt) (Obj 0) 0 2 3
                handle start_1024_wf eq_refl eq_refl eq_refl) as Hall.
  assert (List_count_value (Obj 0) 2 3 handle (start 1024 tt)
          = Ret list_a world_a) as Hrun by (vm_compute; reflexivity).
  rewrite Hrun in Hall. destruct Hall as [Hwf Hl].
  assert (is_list world_a list_a [(Blk 4096, 3); (Blk 4120, 3)]) as Ha.
  { apply built_nodes; [done|]. vm_compute. reflexivity. }
  assert (List_count_value (Obj 1) 1 5 handle world_a
          = Ret list_b world_ab) as Hrun' by (vm_compute; reflexivity).
  destruct (List_count_value_ret world_a (Obj 1) 1 1 5 handle list_b world_ab
              Hwf eq_refl eq_refl eq_refl Hrun')
    as (ns & Hb & _).
  pose proof Hb as (Hwf' & Hlb & _).
  destruct (building_keeps _ _ _ _ _ _ Hb Ha) as [Ha' _].
  split; [done|]. split; [done|].
  apply built_nodes; [by eauto|]. vm_compute. reflexivity.
Qed.

(** [a = b] with [a] holding 3, 3 and [b] holding 5. *)
Lemma assign_copies_between_nonempty_lists_witness :
  wf_world world_ab ∧
  is_list world_ab list_a [(Blk 4096, 3); (Blk 4120, 3)] ∧
  is_list world_ab list_b [(Blk 4144, 5)] ∧
  ∃ this' w' ns,
    operator_assign list_a list_b (Obj 2) world_ab = Ret this' w' ∧
    nodes w' this' = Some ns ∧
    Forall2 (λ k v, copy_of v k) (ns.*2) [5] ∧
    size this' = 1 ∧ heap w' !! Blk 4096 = None ∧
    is_list w' list_b [(Blk 4144, 5)].
Proof.
  destruct world_ab_wf as (Hwf & Ha & Hb). do 3 (split; [assumption|]).
  assert (List_copy_alloc (Obj 2) list_b handle world_ab
          = Ret (mkList handle (Obj 2) 1)
              (world_of (List_copy_alloc (Obj 2) list_b handle world_ab)
                 world_ab))
    as Hrun by (vm_compute; reflexivity).
  destruct (assign_copies_between_nonempty_lists world_ab list_a list_b
              [(Blk 4096, 3); (Blk 4120, 3)] [(Blk 4144, 5)] (Obj 2) 2
              (mkList handle (Obj 2) 1)
              (world_of (List_copy_alloc (Obj 2) list_b handle world_ab)
                 world_ab)
              Hwf Ha Hb ltac:(discriminate) ltac:(discriminate) eq_refl
              eq_refl Hrun)
    as (this' & w' & ns & Hassign & Hn & Hall & Hsz & _ & _ & Hgone & _ & _
        & _ & Hsrc).
  exists this', w', ns. do 4 (split; [assumption|]).
  split.
  - apply Hgone. right. left.
  - apply Hsrc. intros a Ha' Hin.
    apply elem_of_cons in Ha' as [->|Ha'];
      [|apply list_elem_of_singleton in Ha' as ->];
      (apply elem_of_cons in Hin as [Hin|Hin]; [discriminate|]);
      (apply elem_of_cons in Hin as [Hin|Hin]; [discriminate|]);
      by apply list_elem_of_singleton in Hin.
Defined.


(** The first node allocated from the empty arena of the examples. *)
Lemma stack_allocator_keeps_blocks_apart_witness :
  let m : gmap Z Arena.StackStorage :=
    {[ 4096 := Arena.StackStorage_new (replicate (Z.to_nat 1024) 0) ]} in
  stack_inv 1024 24 4096 m ∅ ∧
  ∃ m', Arena.allocate 1024 24 8 handle 1 m = Ok 4096 m' ∧
        4096 ≤ 4096 ∧ 4096 + 24 ≤ 4096 + 1024 ∧
        stack_inv 1024 24 4096 m' (∅ ∪ {[ 4096 ]}).
Proof.
  intros m. destruct start_1024_wf as [Hinv _].
  change (stack_inv 1024 24 4096 m ∅) in Hinv. split; [exact Hinv|].
  destruct (stack_allocator_keeps_blocks_apart 1024 24 8 4096
              ltac:(lia) ltac:(lia) ltac:(lia) fits_1024 handle m ∅
              eq_refl Hinv) as [Halloc _].
  assert (Arena.allocate 1024 24 8 handle 1 m
          = Ok 4096 {[ 4096 := Arena.mkStorage (replicate 1024 0) 24 ]})
    as Hrun by (vm_compute; reflexivity).
  rewrite Hrun in Halloc. destruct Halloc as (? & ? & _ & ?).
  eexists. split; [exact Hrun|]. auto.
Defined.
End Witnesses.

Section CountedLists.
#[local] Existing Instance counted_17.
#[local] Existing Instance arena_1024.
#[local] Existing Instance arena_1024_laws.

Abbreviation wc := (with_fresh_list (T := unit) 1024 0).

Lemma counted_eval :
  List_count (Obj 1) 100 handle wc = Raise counted_rolled_back.
Proof. vm_compute. reflexivity. Qed.


(** [List<Counted<17>>(100)] throws with the counter back at 0, and
    [List<Counted<17>>(5)] returns with the counter at 5. *)
Lemma counted_counter_counts_live_objects_witness :
  wf_world wc ∧
  List_count (Obj 1) 100 handle wc = Raise counted_rolled_back ∧
  estate counted_rolled_back = 0 ∧
  ∃ l w', List_count (Obj 1) 5 handle wc = Ret l w' ∧ estate w' = 5.
Proof.
  pose proof (with_fresh_list_wf (T := unit) 1024 fits_1024 ltac:(lia) 0)
    as [Hwf _].
  change (wf_world wc) in Hwf. split; [assumption|].
  split; [exact counted_eval|].
  destruct (counted_counter_counts_live_objects 17 wc (Obj 1) 1 100 tt
              handle Hwf eq_refl eq_refl eq_refl) as [Hthrow _].
  change (counted_element 17) with counted_17 in Hthrow.
  rewrite counted_eval in Hthrow. split; [exact Hthrow|].
  destruct (counted_counter_counts_live_objects 17 wc (Obj 1) 1 5 tt
              handle Hwf eq_refl eq_refl eq_refl) as [Hret _].
  change (counted_element 17) with counted_17 in Hret.
  assert (List_count (Obj 1) 5 handle wc
          = Ret (mkList handle (Obj 1) 5)
              (world_of (List_count (Obj 1) 5 handle wc) wc))
    as Hrun by (vm_compute; reflexivity).
  rewrite Hrun in Hret. destruct Hret as [He _].
  eexists _, _. split; [exact Hrun|]. exact He.
Defined.
End CountedLists.

Section ExplosiveLists.
#[local] Existing Instance Explosive.
#[local] Existing Instance arena_1024.
#[local] Existing Instance arena_1024_laws.
Abbreviation we := (with_fresh_list (T := bool) 1024 false).

(** [List<Explosive>(3)] and [push_back] of a safeguarded [Explosive]
    throw, and [exploded] stays false. *)
Lemma explosive_never_explodes_witness :
  wf_world we ∧ is_list we fresh_list [] ∧
  (∃ w', List_count (Obj 1) 3 handle we = Raise w' ∧ estate w' = false) ∧
  (∃ w', push_back fresh_list false we = Raise w' ∧ estate w' = false ∧
         nodes w' fresh_list = Some []).
Proof.
  pose proof (with_fresh_list_wf (T := bool) 1024 fits_1024 ltac:(lia)
                false) as [Hwf Hl].
  change (wf_world we) in Hwf. change (is_list we fresh_list []) in Hl.
  do 2 (split; [assumption|]).
  destruct (explosive_never_explodes we (Obj 1) 1 3 handle fresh_list []
              false Hwf eq_refl eq_refl eq_refl Hl)
    as (Hcount & _ & w' & Hpush & He & _ & _ & Hn).
  destruct (Hcount ltac:(lia)) as (w'' & Hrun & He' & _).
  split; [exists w''|exists w']; auto.
Defined.
End ExplosiveLists.

Section FullArena.
#[local] Existing Instance int_element.
#[local] Existing Instance arena_24.
#[local] Instance arena_24_laws : @AllocatorLaws _ _ arena_24 :=
  arena_laws 24 fits_24.

Lemma full_world_eval :
  List_count_value (Obj 0) 1 7 handle (start 24 tt)
  = Ret full_list full_world.
Proof. vm_compute. reflexivity. Qed.

Lemma full_world_wf :
  wf_world full_world ∧ ∃ ns, is_list full_world full_list ns.
Proof.
  pose proof (List_count_value_all_or_nothing (start 24 tt) (Obj 0) 0 1 7
                handle (start_wf 24 fits_24 ltac:(lia) tt) eq_refl eq_refl
                eq_refl) as Hall.
  change (all_or_nothing (start 24 tt)
            (List_count_value (Obj 0) 1 7 handle (start 24 tt))) in Hall.
  rewrite full_world_eval in Hall. exact Hall.
Qed.

(** [a = a] when the arena has no room for the copy: [std::bad_alloc]
    propagates and nothing has changed. *)
Lemma assign_failure_leaves_target_witness :
  wf_world full_world ∧
  List_copy_alloc (Obj 1) full_list handle full_world = Raise full_world ∧
  operator_assign full_list full_list (Obj 1) full_world
  = Raise full_world ∧
  nodes full_world full_list = Some [(Blk 4096, 7)].
Proof.
  destruct full_world_wf as (Hwf & ns & Hl).
  assert (List_copy_alloc (Obj 1) full_list handle full_world
          = Raise full_world) as Hfail by (vm_compute; reflexivity).
  destruct (assign_failure_leaves_target full_world full_list full_list
              ns ns (Obj 1) 1%nat full_world Hwf Hl Hl eq_refl eq_refl Hfail)
    as (Hrun & _).
  do 3 (split; [assumption|]). vm_compute. reflexivity.
Defined.

(** [push_back] on the list that fills its arena: [std::bad_alloc], and
    the list still holds its 7. *)
Lemma allocation_failure_leaves_list_witness :
  wf_world full_world ∧
  is_list full_world full_list ([(Blk 4096, 7)] ++ []) ∧
  allocate_node (alloc full_list) (astate full_world)
  = Throw (astate full_world) ∧
  push_back full_list 1 full_world = Raise full_world ∧
  push_front full_list 1 full_world = Raise full_world ∧
  nodes full_world full_list = Some [(Blk 4096, 7)].
Proof.
  destruct full_world_wf as (Hwf & ns & Hl).
  assert (is_list full_world full_list ([(Blk 4096, 7)] ++ [])) as Hl'.
  { pose proof (is_list_nodes _ _ _ Hl) as Hn. vm_compute in Hn.
    injection Hn as <-. exact Hl. }
  do 2 (split; [assumption|]).
  assert (allocate_node (alloc full_list) (astate full_world)
          = Throw (astate full_world)) as Hthrow by reflexivity.
  split; [exact Hthrow|].
  destruct (allocation_failure_leaves_list full_list [(Blk 4096, 7)] [] 1
              full_world (astate full_world) Hwf Hl' Hthrow)
    as (_ & Hpb & Hpf & _ & _ & _ & Hn).
  auto.
Defined.
End FullArena.

(** C2: [operator=] copies a non-empty list into a non-empty list, but not
    from or into an empty one.  [a(5, 3); b(4, 2); a = b] leaves [a] with
    size 4 and elements 2, 2, 2, 2, and a non-empty [a = a] keeps its
    elements.  With [b] empty, the body of [operator=] leaves [a] with
    [sz = 0] and the links of its sentinel pointing at the sentinel of the
    temporary, so that the walk from [begin()] does not come back to
    [end()]; the destructor of the temporary then runs [destroy] on the
    sentinel of [a], which is not a node: undefined behaviour.  The same
    happens with [a] empty and [b] not, and with [a = a] on an empty
    list. *)
Theorem assign_breaks_on_empty_lists :
  observe id (assigned 5 3 4 2) = Some (4, Some [2; 2; 2; 2]) ∧
  observe id (self_assigned 3 7) = Some (3, Some [7; 7; 7]) ∧
  observe fst (assigned_body 5 3 0 0) = Some (0, None) ∧
  assigned 5 3 0 0 = UB ∧
  observe fst (assigned_body 0 0 4 2) = Some (4, None) ∧
  assigned 0 0 4 2 = UB ∧
  self_assigned 0 0 = UB.
Proof. vm_compute. repeat split; reflexivity. Qed.

End DemoFacts.
